(** * Qubit tapering: the symmetry-generation kernel of [pennylane/hf/tapering.py]

    A shallow embedding of the five functions of the module
    ([_binary_matrix], [_reduced_row_echelon], [_kernel], [generate_taus],
    [generate_paulis]) and of their composition [generate_symmetries],
    followed by the properties of the specification proved, or refuted,
    against them. *)

From stdpp Require Import gmap strings list.
From Stdlib Require Import ZArith QArith Lia.

Open Scope Z_scope.

(** ** Python exceptions and results *)

Inductive exn := IndexError | KeyError | ValueError.

Inductive res (A : Type) : Type :=
| Ok (a : A)
| Raise (e : exn).
Arguments Ok {A} a.
Arguments Raise {A} e.

#[global] Instance res_ret : MRet res := fun A a => Ok a.
#[global] Instance res_bind : MBind res := fun A B f m =>
  match m with Ok a => f a | Raise e => Raise e end.

(** A [for] loop whose body may raise: the state is threaded from one
    iteration to the next and the first exception leaves the loop. *)
Fixpoint for_each {S A : Type} (body : S -> A -> res S) (s : S) (l : list A) : res S :=
  match l with
  | [] => Ok s
  | a :: l' => s' ← body s a; for_each body s' l'
  end.

Fixpoint map_res {A B : Type} (f : A -> res B) (l : list A) : res (list B) :=
  match l with
  | [] => Ok []
  | a :: l' => b ← f a; bs ← map_res f l'; Ok (b :: bs)
  end.

(** ** NumPy arrays

    A one-dimensional integer array is a [list Z], a two-dimensional one
    the list of its rows.  Every array the module builds is rectangular;
    the number of columns of an array without rows is never read by the
    code before the row count has ended its loop or raised.  The entries
    are machine integers in NumPy; on 0/1 matrices no product, XOR or
    negation modulo 2 leaves {0,1}, so their width plays no role here. *)

Module Np.

Abbreviation vector := (list Z).
Abbreviation matrix := (list (list Z)).

(** [np.zeros((r, c), dtype=int)] *)
Definition zeros (r c : nat) : matrix := replicate r (replicate c 0).

(** [a.shape] *)
Definition shape (a : matrix) : nat * nat := (length a, length (nth 0 a [])).

(** [a[r]] and [a[r][c]], for indexes in range *)
Definition row_at (a : matrix) (r : nat) : vector := nth r a [].
Definition entry (a : matrix) (r c : nat) : Z := nth c (row_at a r) 0.

(** [a[:, c]] *)
Definition column (a : matrix) (c : nat) : vector := (fun row : vector => nth c row 0) <$> a.

(** [v[j] = x] with NumPy's index rule: a negative index counts from the
    end, an index outside [-len, len) raises [IndexError].  This is the
    rule for an index that fits NumPy's index type, a signed 64-bit
    integer; a Python integer beyond it is refused with another exception
    before the bounds are looked at, and the statements about the kind of
    exception are made for indexes that fit. *)
Definition setitem (v : vector) (j : Z) (x : Z) : res vector :=
  let n := Z.of_nat (length v) in
  if (0 <=? j) && (j <? n) then Ok (<[Z.to_nat j := x]> v)
  else if (- n <=? j) && (j <? 0) then Ok (<[Z.to_nat (j + n) := x]> v)
  else Raise IndexError.

(** Index of the first element equal to [x]. *)
Fixpoint index_of (x : Z) (l : list Z) : nat :=
  match l with
  | [] => 0
  | y :: l' => if y =? x then 0%nat else S (index_of x l')
  end.

(** [np.argmax(v)]: the index of the first occurrence of the maximum. *)
Definition argmax (v : vector) : nat :=
  match v with
  | [] => 0
  | x :: l => index_of (foldl Z.max x l) v
  end.

(** [np.outer(u, v)] *)
Definition outer (u v : vector) : matrix := (fun a => (fun b => a * b) <$> v) <$> u.

(** [a.T] of an array of shape [(_, k)] *)
Definition transpose (k : nat) (a : matrix) : matrix :=
  (fun j => column a j) <$> seq 0 k.

(** [np.setdiff1d(range(n), b)]: the sorted values of [range(n)] not in [b]. *)
Definition setdiff1d_range (n : nat) (b : list nat) : list nat :=
  filter (fun c => c ∉ b) (seq 0 n).

(** [np.all(row == 0)] *)
Definition all_zero (row : vector) : bool := forallb (fun x => x =? 0) row.

(** [np.delete(a, r, axis=0)] *)
Definition delete_row (r : nat) (a : matrix) : matrix := delete r a.

(** [a[krow], a[irow] = deepcopy(a[irow]), deepcopy(a[krow])]: the right
    side is read first, then row [krow] and row [irow] are assigned in
    this order. *)
Definition swap_rows (krow irow : nat) (a : matrix) : matrix :=
  <[irow := row_at a krow]> (<[krow := row_at a irow]> a).

(** [a[:, icol:] ^= delta] *)
Definition ixor_from (icol : nat) (a delta : matrix) : matrix :=
  zip_with
    (fun (row d : vector) => take icol row ++ zip_with Z.lxor (drop icol row) d)
    a delta.

End Np.

Import Np.

(** ** Operators

    What the module reads of an operator: its [name] and its [wires].
    The name of a single observable is a string, the name of a tensor
    product the list of the names of its factors. *)

Inductive pyname :=
| NStr (s : string)
| NList (l : list string).

Record term := Term { name : pyname; wires : list Z }.

(** A weighted sum of operators ([qml.Hamiltonian]): [ops] is a list. *)
Record Hamiltonian := MkHamiltonian { coeffs : list Q; ops : list term }.

Definition PauliX (w : Z) : term := Term (NStr "PauliX") [w].
Definition PauliY (w : Z) : term := Term (NStr "PauliY") [w].
Definition PauliZ (w : Z) : term := Term (NStr "PauliZ") [w].
Definition Identity (w : Z) : term := Term (NStr "Identity") [w].

(** ** [_binary_matrix]

    [num_qubits] is a number of wires, a [nat]; wires are the integers the
    code adds [num_qubits] to. *)

(** The sequence the inner loop zips with the wires: [[ops]] when the
    term has one wire, else the elements of [term.name] (the factor
    names of a list, the characters of a string). *)
Definition ops_of (t : term) : list pyname :=
  if (length (wires t) =? 1)%nat then [name t]
  else match name t with
       | NList l => NStr <$> l
       | NStr s => (fun c => NStr (String c EmptyString)) <$> String.list_ascii_of_string s
       end.

(** [op in [a, b]]: a list is never equal to a string. *)
Definition op_in (op : pyname) (l : list string) : bool :=
  match op with
  | NStr s => bool_decide (s ∈ l)
  | NList _ => false
  end.

(** The body of the inner loop, on the row [binary_matrix[idx]]. *)
Definition mark (num_qubits : nat) (row : vector) (ow : pyname * Z) : res vector :=
  let '(op, wire) := ow in
  row1 ← (if op_in op ["PauliX"; "PauliY"]
          then setitem row (wire + Z.of_nat num_qubits) 1 else Ok row);
  if op_in op ["PauliZ"; "PauliY"] then setitem row1 wire 1 else Ok row1.

Definition _binary_matrix (terms : list term) (num_qubits : nat) : res matrix :=
  for_each
    (fun (binary_matrix : matrix) '(idx, t) =>
       row ← for_each (mark num_qubits) (row_at binary_matrix idx) (zip (ops_of t) (wires t));
       Ok (<[idx := row]> binary_matrix))
    (zeros (length terms) (2 * num_qubits))
    (imap pair terms).

(** ** [_reduced_row_echelon] *)

(** One iteration of the loop, at the diagonal position [(irow, icol)]. *)
Definition rref_step (a : matrix) (ic : nat * nat) : matrix :=
  let '(irow, icol) := ic in
  let krow := (irow + argmax (drop irow (column a icol)))%nat in
  let a := swap_rows krow irow a in
  let pvtcols := drop icol (row_at a irow) in
  let currcol := <[irow := 0]> (column a icol) in
  ixor_from icol a (outer currcol pvtcols).

(** The value the function returns, as a function of the value of its
    argument; [Heap._reduced_row_echelon] below is the same code over a
    store of arrays. *)
Definition _reduced_row_echelon (binary_matrix : matrix) : matrix :=
  let '(nrows, ncols) := shape binary_matrix in
  foldl rref_step binary_matrix (zip (seq 0 nrows) (seq 0 ncols)).

(** ** [_kernel] *)

(** [(row != 0).argmax()]: the first non-zero column of a row, 0 for a zero row. *)
Definition pivot_of (row : vector) : nat :=
  argmax ((fun x => if x =? 0 then 0 else 1) <$> row).

(** Without rows [binary_matrix[0]] raises [IndexError]; with rows and
    without columns the [argmax] over an empty axis raises [ValueError]
    before it (as it does for an array of shape (0, 0), which the list of
    rows does not tell from the other arrays without rows).  The second
    assignment writes one row of [null_vector] per pivot, in row order; when
    two rows share a pivot NumPy does not fix the order of the writes, and
    the model lets the later row win. *)
Definition _kernel (binary_matrix : matrix) : res matrix :=
  match binary_matrix with
  | [] => Raise IndexError
  | row0 :: _ =>
    let ncols := length row0 in
    if (ncols =? 0)%nat then Raise ValueError else
    let pivots := pivot_of <$> binary_matrix in
    let nonpivots := setdiff1d_range ncols pivots in
    let k := length nonpivots in
    let null_vector := zeros ncols k in
    (* null_vector[nonpivots, arange(k)] = 1 *)
    let null_vector :=
      foldl (fun (nv : matrix) '(j, c) => <[c := <[j := 1]> (row_at nv c)]> nv)
            null_vector (imap pair nonpivots) in
    (* null_vector[ix_(pivots, arange(k))] = -binary_matrix[ix_(arange(len(pivots)), nonpivots)] % 2 *)
    let null_vector :=
      foldl (fun (nv : matrix) '(i, p) =>
               <[p := (fun c => (- entry binary_matrix i c) `mod` 2) <$> nonpivots]> nv)
            null_vector (imap pair pivots) in
    Ok (transpose k null_vector)
  end.

(** ** [generate_taus] *)

(** [pauli_map[f"{x}{z}"]]: the four keys are "00", "10", "11" and "01";
    any other pair of integers formats to a missing key. *)
Definition pauli_map (x z : Z) : res string :=
  match x, z with
  | 0, 0 => Ok "Identity"
  | 1, 0 => Ok "PauliX"
  | 1, 1 => Ok "PauliY"
  | 0, 1 => Ok "PauliZ"
  | _, _ => Raise KeyError
  end%string.

(** A factor of a tensor product: a single-qubit observable, by name and wire. *)
Abbreviation factor := (string * Z)%type.

(** Modelled from the spec: the operator algebra ([qml.Identity], the
    tensor product [@] and [qml.Hamiltonian(coeffs, ops, simplify=True)])
    is code of the repository that is not among the sources.  The spec has
    identity labels act as no-ops in the product and the Pauli string
    packaged as a one-term sum with coefficient 1.0: the identity factors
    are dropped, one remaining factor is that single observable, several
    remaining factors are their tensor product (names and wires in factor
    order), and a product of identities only is the identity on its first
    wire. *)
Definition simplify_tensor (tau : list factor) : term :=
  match filter (fun o : factor => o.1 ≠ "Identity"%string) tau with
  | [] => Identity (default 0 (head (tau.*2)))
  | [(n, w)] => Term (NStr n) [w]
  | obs => Term (NList (obs.*1)) (obs.*2)
  end.

Definition Hamiltonian_simplified (coeff : Q) (tau : list factor) : Hamiltonian :=
  MkHamiltonian [coeff] [simplify_tensor tau].

Definition tau_of (num_qubits : nat) (null_vector : vector) : res (list factor) :=
  for_each
    (fun (tau : list factor) '(idx, (x, z)) =>
       p ← pauli_map x z; Ok (tau ++ [(p, Z.of_nat idx)]))
    [("Identity"%string, 0)]
    (imap pair (zip (take num_qubits null_vector) (drop num_qubits null_vector))).

Definition generate_taus (nullspace : matrix) (num_qubits : nat) : res (list Hamiltonian) :=
  map_res
    (fun null_vector =>
       tau ← tau_of num_qubits null_vector;
       Ok (Hamiltonian_simplified 1%Q tau))
    nullspace.

(** ** [generate_paulis] *)

(** [g.ops[0]]: the [ops] of a Hamiltonian is a list, so the [isinstance]
    test of the comprehension takes its first branch; an empty list has no
    element 0. *)
Definition first_op (g : Hamiltonian) : res term :=
  match ops g with
  | [] => Raise IndexError
  | t :: _ => Ok t
  end.

(** The test of the inner loop: [bmatrow[col]] is non-zero and the column
    [col] of the other rows equals a zero vector. *)
Definition qualifies (bmat : matrix) (row col : nat) : bool :=
  let bmatrow := row_at bmat row in
  let bmatrest := delete_row row bmat in
  negb (nth col bmatrow 0 =? 0) && all_zero (column bmatrest col).

(** The inner loop: the first qualifying column, where it [break]s. *)
Fixpoint first_qualifying (bmat : matrix) (row : nat) (cols : list nat) : option nat :=
  match cols with
  | [] => None
  | col :: cols' =>
    if qualifies bmat row col then Some col else first_qualifying bmat row cols'
  end.

Definition generate_paulis (generators : list Hamiltonian) (num_qubits : nat)
  : res (list term) :=
  ops_generator ← map_res first_op generators;
  bmat ← _binary_matrix ops_generator num_qubits;
  Ok (foldl
        (fun (sigma_x : list term) (row : nat) =>
           match first_qualifying bmat row (seq 0 ((shape bmat).2 / 2)%nat) with
           | Some col => sigma_x ++ [PauliX (Z.of_nat col)]
           | None => sigma_x
           end)
        [] (seq 0 (shape bmat).1)).

(** ** [generate_symmetries] *)

Definition strip_zero_rows (a : matrix) : matrix :=
  filter (fun row => all_zero row = false) a.

Definition generate_symmetries (qubit_op : Hamiltonian) (num_qubits : nat)
  : res (list Hamiltonian * list term) :=
  binary_matrix ← _binary_matrix (ops qubit_op) num_qubits;
  let rref_binary_matrix := _reduced_row_echelon binary_matrix in
  let rref_binary_matrix_red := strip_zero_rows rref_binary_matrix in
  nullspace ← _kernel rref_binary_matrix_red;
  generators ← generate_taus nullspace num_qubits;
  pauli_x ← generate_paulis generators num_qubits;
  Ok (generators, pauli_x).

(** ** The same reduction over a store of arrays

    In Python a variable holds a reference to its array, and the loop of
    [_reduced_row_echelon] updates an array in place.  Here arrays live in
    a store, [deepcopy] and [astype] allocate, and the two assignments of
    the loop body write to the array their target refers to.  The copies
    of rows, [currcol] and the outer product are new arrays that no other
    variable refers to: they are values here. *)

Module Heap.

Definition loc := nat.
Abbreviation store := (gmap loc matrix).

(** A computation reads and updates the store; [None] is a read of an
    address that holds no array, which no Python variable can cause. *)
Definition M (A : Type) : Type := store -> option (A * store).

Definition ret {A} (a : A) : M A := fun σ => Some (a, σ).
Definition bind {A B} (m : M A) (f : A -> M B) : M B :=
  fun σ => match m σ with Some (a, σ') => f a σ' | None => None end.

#[global] Instance M_ret : MRet M := @ret.
#[global] Instance M_bind : MBind M := fun A B f m => bind m f.

Definition alloc (a : matrix) : M loc :=
  fun σ => let l := fresh (dom σ) in Some (l, <[l := a]> σ).
Definition read (l : loc) : M matrix :=
  fun σ => match σ !! l with Some a => Some (a, σ) | None => None end.
Definition update (l : loc) (f : matrix -> matrix) : M unit :=
  fun σ => match σ !! l with Some a => Some (tt, <[l := f a]> σ) | None => None end.

(** [deepcopy(a)] and [a.astype(int)]: a new array with the entries of [a]. *)
Definition deepcopy (l : loc) : M loc := a ← read l; alloc a.
Definition astype_int (l : loc) : M loc := a ← read l; alloc a.

Fixpoint for_ {A} (body : A -> M unit) (l : list A) : M unit :=
  match l with
  | [] => ret tt
  | x :: l' => _ ← body x; for_ body l'
  end.

Definition _reduced_row_echelon (binary_matrix : loc) : M loc :=
  rref_binary_matrix ← deepcopy binary_matrix;
  a0 ← read rref_binary_matrix;
  let '(nrows, ncols) := shape a0 in
  _ ← for_
    (fun '(irow, icol) =>
       a ← read rref_binary_matrix;
       let krow := (irow + argmax (drop irow (column a icol)))%nat in
       _ ← update rref_binary_matrix (swap_rows krow irow);
       a ← read rref_binary_matrix;
       (* pvtcols is a view of row irow; currcol and the outer product are new arrays *)
       let pvtcols := drop icol (row_at a irow) in
       let currcol := <[irow := 0]> (column a icol) in
       let delta := outer currcol pvtcols in
       update rref_binary_matrix (fun a => ixor_from icol a delta))
    (zip (seq 0 nrows) (seq 0 ncols));
  astype_int rref_binary_matrix.

End Heap.

(** ** The notions of the specification *)

(** A bit, and a 0/1 matrix of a given shape. *)
Definition binary (x : Z) : Prop := x = 0 \/ x = 1.

Definition binary_shape (nrows ncols : nat) (a : matrix) : Prop :=
  length a = nrows /\ Forall (fun row => length row = ncols /\ Forall binary row) a.

(** The label/wire pairs of a term: a single observable has one, a tensor
    product one per factor. *)
Definition factors (t : term) : list (string * Z) :=
  match name t with
  | NStr s => (fun w => (s, w)) <$> wires t
  | NList l => zip l (wires t)
  end.

(** [t] acts on qubit [i] with one of the [labels]. *)
Definition acts_as (labels : list string) (t : term) (i : nat) : Prop :=
  exists s, s ∈ labels /\ (s, Z.of_nat i) ∈ factors t.

(** A term as the operator layer hands it over: a single observable on one
    wire, or a tensor product of several factors with as many wires; all
    its wires are qubits of the register. *)
Definition well_formed (num_qubits : nat) (t : term) : Prop :=
  match name t with
  | NStr _ => length (wires t) = 1%nat
  | NList l => length l = length (wires t) /\ length (wires t) ≠ 1%nat
  end /\ Forall (fun w => 0 <= w < Z.of_nat num_qubits) (wires t).

(** The column layout as the specification words it: X-part in the first
    [num_qubits] columns, Z-part in the last. *)
Definition xz_layout (num_qubits : nat) (terms : list term) (a : matrix) : Prop :=
  forall r t i, terms !! r = Some t -> (i < num_qubits)%nat ->
    (entry a r i = 1 <-> acts_as ["PauliX"; "PauliY"] t i) /\
    (entry a r (num_qubits + i) = 1 <-> acts_as ["PauliZ"; "PauliY"] t i).

(** The column layout of the code: Z-part first, X-part last. *)
Definition zx_layout (num_qubits : nat) (terms : list term) (a : matrix) : Prop :=
  forall r t i, terms !! r = Some t -> (i < num_qubits)%nat ->
    (entry a r i = 1 <-> acts_as ["PauliZ"; "PauliY"] t i) /\
    (entry a r (num_qubits + i) = 1 <-> acts_as ["PauliX"; "PauliY"] t i).

(** The first non-zero column of a row, if it has one. *)
Definition leading (row : vector) : option nat := fst <$> list_find (fun x => x ≠ 0) row.

(** Echelon: a leading 1 lies strictly to the right of the leading 1 of
    every non-zero row above it. *)
Definition echelon (a : matrix) : Prop :=
  forall r1 r2 c1 c2, (r1 < r2)%nat ->
    leading (row_at a r1) = Some c1 -> leading (row_at a r2) = Some c2 -> (c1 < c2)%nat.

(** Reduced: the pivot column of a non-zero row is zero in every other row. *)
Definition reduced (a : matrix) : Prop :=
  forall r c r', leading (row_at a r) = Some c -> (r' < length a)%nat -> r' ≠ r ->
    entry a r' c = 0.

(** GF(2) product of a matrix with a vector, and its right nullspace. *)
Definition dot (u v : vector) : Z := foldr Z.add 0 (zip_with Z.mul u v).

Definition in_nullspace (a : matrix) (v : vector) : Prop :=
  Forall (fun row => dot row v `mod` 2 = 0) a.

(** Full column rank over GF(2): no non-zero 0/1 vector is sent to zero. *)
Definition full_column_rank (ncols : nat) (a : matrix) : Prop :=
  forall v, length v = ncols -> Forall binary v -> in_nullspace a v -> v = replicate ncols 0.

(** The vectors spanned over GF(2) by the rows of a matrix with [ncols]
    columns, and its rank: the span has [2 ^ rank] elements. *)
Definition gf2_span (ncols : nat) (a : matrix) : list vector :=
  foldr (fun row acc => remove_dups (acc ++ (zip_with Z.lxor row <$> acc)))
        [replicate ncols 0] a.

Definition gf2_rank (ncols : nat) (a : matrix) : nat :=
  Z.to_nat (Z.log2 (Z.of_nat (length (gf2_span ncols a)))).

(** The binary encoding of one operator: its row of [_binary_matrix]. *)
Definition encoding (num_qubits : nat) (t : term) : res vector :=
  a ← _binary_matrix [t] num_qubits; Ok (row_at a 0).

(** The symplectic inner product modulo 2 of two encodings: the X-part of
    each against the Z-part of the other. *)
Definition symplectic (num_qubits : nat) (u v : vector) : Z :=
  foldr Z.add 0
    ((fun i => nth i u 0 * nth (num_qubits + i) v 0 + nth (num_qubits + i) u 0 * nth i v 0)
       <$> seq 0 num_qubits) `mod` 2.

(** The generators of the scenario of three terms on four qubits. *)
Definition tZ0X1 := Term (NList ["PauliZ"; "PauliX"]) [0; 1].
Definition tZ0Y2 := Term (NList ["PauliZ"; "PauliY"]) [0; 2].
Definition tX0Y3 := Term (NList ["PauliX"; "PauliY"]) [0; 3].
Definition scenario := MkHamiltonian [1%Q; 1%Q; 1%Q] [tZ0X1; tZ0Y2; tX0Y3].
Definition tau (t : term) : Hamiltonian := MkHamiltonian [1%Q] [t].
Definition scenario_generators : list Hamiltonian :=
  [ tau (PauliX 1);
    tau (Term (NList ["PauliZ"; "PauliX"; "PauliX"]) [0; 2; 3]);
    tau (Term (NList ["PauliX"; "PauliZ"; "PauliX"]) [0; 1; 2]);
    tau (PauliY 2);
    tau (Term (NList ["PauliX"; "PauliY"]) [2; 3]) ].

(** The matrices of Y0 + X0 X1, of X0 + X0 X1 and of Z0 Z1 + X0 on two
    qubits, and the terms they come from. *)
Definition y0_x0x1 : matrix := [[1; 0; 1; 0]; [0; 0; 1; 1]].
Definition x0_x0x1 : matrix := [[0; 0; 1; 0]; [0; 0; 1; 1]].
Definition z0z1_x0 : matrix := [[1; 1; 0; 0]; [0; 0; 1; 0]].
Definition z0z1_y0 : matrix := [[1; 1; 0; 0]; [1; 0; 1; 0]].
Definition tX0X1 := Term (NList ["PauliX"; "PauliX"]) [0; 1].
Definition tZ0Z1 := Term (NList ["PauliZ"; "PauliZ"]) [0; 1].

(** The row [_binary_matrix] computes for one term, starting from zeros. *)
Definition encode_term (num_qubits : nat) (t : term) : res vector :=
  for_each (mark num_qubits) (replicate (2 * num_qubits) 0) (zip (ops_of t) (wires t)).

(** ** Notions of the proofs *)

(** What one label/wire pair sets in a row of length [2 * num_qubits]. *)
Definition sets (num_qubits : nat) (ow : pyname * Z) (c : nat) : Prop :=
  (op_in ow.1 ["PauliX"; "PauliY"] = true /\ Z.of_nat c = ow.2 + Z.of_nat num_qubits) \/
  (op_in ow.1 ["PauliZ"; "PauliY"] = true /\ Z.of_nat c = ow.2).

(** The operator the loop appends for a row, if it appends one. *)
Definition sigma_of (bmat : matrix) (row : nat) : option term :=
  (fun col => PauliX (Z.of_nat col))
    <$> first_qualifying bmat row (seq 0 ((shape bmat).2 / 2)%nat).

(** Generator [j] of the list has the qualifying column [col]. *)
Definition qualifying_column (generators : list Hamiltonian) (num_qubits : nat)
    (j col : nat) : Prop :=
  exists ts bmat, map_res first_op generators = Ok ts /\
    _binary_matrix ts num_qubits = Ok bmat /\
    (col < num_qubits)%nat /\ qualifies bmat j col = true.

(** The column whose Pauli-X [generate_paulis] pairs with generator [j]:
    its first qualifying column, if it has one. *)
Definition first_qualifying_column (generators : list Hamiltonian) (num_qubits : nat)
    (j : nat) : option nat :=
  match ts ← map_res first_op generators; _binary_matrix ts num_qubits with
  | Ok bmat => first_qualifying bmat j (seq 0 num_qubits)
  | Raise _ => None
  end.

(** The encoding of a generator: that of the term [generate_paulis] reads. *)
Definition generator_encoding (num_qubits : nat) (g : Hamiltonian) : res vector :=
  t ← first_op g; encoding num_qubits t.

(** Columns [0 .. i-1] are the first [i] unit columns. *)
Definition cleared (i : nat) (a : matrix) : Prop :=
  forall r j, (r < length a)%nat -> (j < i)%nat ->
    entry a r j = if decide (r = j) then 1 else 0.

(** The invariant of the loop on a matrix of full column rank. *)
Definition reduction_inv (nrows ncols i : nat) (a : matrix) : Prop :=
  binary_shape nrows ncols a /\ full_column_rank ncols a /\ cleared i a.




(** Below row [i] the first [i] columns are zero. *)
Definition lower_left_zero (i : nat) (a : matrix) : Prop :=
  forall r j, (i <= r < length a)%nat -> (j < i)%nat -> entry a r j = 0.

(** The pivot column of every row is a unit column: it holds a 1 in its
    own row and 0 in the others. *)
Definition unit_pivots (a : matrix) : Prop :=
  forall i i', (i < length a)%nat -> (i' < length a)%nat ->
    entry a i (pivot_of (row_at a i')) = if decide (i = i') then 1 else 0.

(** The value of [pauli_map] at a pair of bits. *)
Definition pauli_name (x z : Z) : string :=
  match x, z with
  | 1, 0 => "PauliX"
  | 1, 1 => "PauliY"
  | 0, 1 => "PauliZ"
  | _, _ => "Identity"
  end%string.

(** The two halves of a vector of length [2 * num_qubits] exchanged. *)
Definition swap_halves (num_qubits : nat) (v : vector) : vector :=
  drop num_qubits v ++ take num_qubits v.

(** * Properties *)

(** Case analysis on every [decide] of the goal, closed by arithmetic. *)
Ltac decide_cases := repeat (destruct (decide _)); simpl in *; lia.

(** ** Results and loops *)

Lemma bind_Ok {A B} (f : A -> res B) (a : A) : (Ok a ≫= f) = f a.
Proof. reflexivity. Qed.

Lemma bind_Ok_inv {A B} (f : A -> res B) (m : res A) (b : B) :
  (m ≫= f) = Ok b -> exists a, m = Ok a /\ f a = Ok b.
Proof. destruct m as [a|e]; [eauto | discriminate]. Qed.

Lemma map_res_length {A B} (f : A -> res B) (l : list A) (bs : list B) :
  map_res f l = Ok bs -> length bs = length l.
Proof.
  revert bs; induction l as [|a l IH]; intros bs H; simpl in H.
  - by inversion H.
  - apply bind_Ok_inv in H as (b & Hb & H).
    apply bind_Ok_inv in H as (bs' & Hbs & H).
    inversion H; subst; simpl. f_equal. by apply IH.
Qed.

Lemma map_res_lookup {A B} (f : A -> res B) (l : list A) (bs : list B) i a :
  map_res f l = Ok bs -> l !! i = Some a -> exists b, bs !! i = Some b /\ f a = Ok b.
Proof.
  revert bs i; induction l as [|x l IH]; intros bs i H Hi; [done|].
  simpl in H.
  apply bind_Ok_inv in H as (b & Hb & H).
  apply bind_Ok_inv in H as (bs' & Hbs & H).
  inversion H; subst.
  destruct i as [|i]; simpl in *.
  - inversion Hi; subst; eauto.
  - eauto.
Qed.

(** ** [_binary_matrix] row by row *)

Lemma row_at_middle (pre : matrix) (row : vector) (rest : matrix) :
  row_at (pre ++ row :: rest) (length pre) = row.
Proof. unfold row_at. by rewrite app_nth2, Nat.sub_diag by lia. Qed.

Lemma binary_matrix_rows_gen (num_qubits : nat) (ts : list term) (pre : matrix) :
  for_each
    (fun (binary_matrix : matrix) '(idx, t) =>
       row ← for_each (mark num_qubits) (row_at binary_matrix idx) (zip (ops_of t) (wires t));
       Ok (<[idx := row]> binary_matrix))
    (pre ++ replicate (length ts) (replicate (2 * num_qubits) 0))
    (imap (fun i => pair (length pre + i)%nat) ts)
  = (rows ← map_res (encode_term num_qubits) ts; Ok (pre ++ rows)).
Proof.
  revert pre; induction ts as [|t ts IH]; intros pre.
  - cbn [imap for_each map_res length replicate]. by rewrite bind_Ok, !app_nil_r.
  - rewrite imap_cons. cbn [for_each map_res length replicate].
    rewrite Nat.add_0_r, row_at_middle.
    fold (encode_term num_qubits t).
    destruct (encode_term num_qubits t) as [row|e]; [|done].
    rewrite !bind_Ok.
    replace (<[length pre := row]> (pre ++ replicate (2 * num_qubits) 0
               :: replicate (length ts) (replicate (2 * num_qubits) 0)))
      with ((pre ++ [row]) ++ replicate (length ts) (replicate (2 * num_qubits) 0)).
    2:{ rewrite insert_app_r_alt by done. rewrite Nat.sub_diag. simpl.
        by rewrite <- app_assoc. }
    rewrite (imap_ext _ (fun i => pair (length (pre ++ [row]) + i)%nat)).
    2:{ intros i x _. simpl. rewrite length_app. simpl. f_equal. lia. }
    rewrite IH.
    destruct (map_res (encode_term num_qubits) ts) as [rows|e]; [|done].
    simpl. by rewrite <- app_assoc.
Qed.

Lemma binary_matrix_rows (terms : list term) (num_qubits : nat) :
  _binary_matrix terms num_qubits = map_res (encode_term num_qubits) terms.
Proof.
  unfold _binary_matrix, zeros.
  pose proof (binary_matrix_rows_gen num_qubits terms []) as H.
  cbn [app length Nat.add] in H.
  etrans; [exact H|]. by destruct (map_res _ _).
Qed.

(** ** The rows of [_binary_matrix] are 0/1 rows of length [2 * num_qubits] *)

Lemma binary_insert_one (row : vector) (i : nat) :
  Forall binary row -> Forall binary (<[i := 1]> row).
Proof.
  intros H. apply Forall_insert; [done | by right].
Qed.

Lemma setitem_one_shape (row row' : vector) (j : Z) :
  setitem row j 1 = Ok row' ->
  length row' = length row /\ (Forall binary row -> Forall binary row').
Proof.
  unfold setitem. intros H.
  destruct (_ && _); [|destruct (_ && _)]; inversion H; subst;
    (split; [apply length_insert | apply binary_insert_one]).
Qed.

Lemma setitem_in_range (row : vector) (j x : Z) :
  0 <= j < Z.of_nat (length row) -> setitem row j x = Ok (<[Z.to_nat j := x]> row).
Proof.
  intros [H1 H2]. unfold setitem.
  apply Z.leb_le in H1. apply Z.ltb_lt in H2. by rewrite H1, H2.
Qed.

Lemma mark_shape (num_qubits : nat) (row row' : vector) (ow : pyname * Z) :
  mark num_qubits row ow = Ok row' ->
  length row' = length row /\ (Forall binary row -> Forall binary row').
Proof.
  destruct ow as [op w]. unfold mark. intros H.
  apply bind_Ok_inv in H as (row1 & H1 & H2).
  assert (length row1 = length row /\ (Forall binary row -> Forall binary row1)) as [L1 B1].
  { revert H1. case (op_in op _); intros H1;
      [by apply setitem_one_shape in H1 | by inversion H1]. }
  assert (length row' = length row1 /\ (Forall binary row1 -> Forall binary row')) as [L2 B2].
  { revert H2. case (op_in op _); intros H2;
      [by apply setitem_one_shape in H2 | by inversion H2]. }
  split; [congruence | auto].
Qed.

Lemma for_each_mark_shape (num_qubits : nat) (l : list (pyname * Z)) (row row' : vector) :
  for_each (mark num_qubits) row l = Ok row' ->
  length row' = length row /\ (Forall binary row -> Forall binary row').
Proof.
  revert row; induction l as [|ow l IH]; intros row H; cbn [for_each] in H.
  - by inversion H.
  - apply bind_Ok_inv in H as (row1 & H1 & H2).
    apply mark_shape in H1 as [L1 B1]. apply IH in H2 as [L2 B2].
    split; [congruence | auto].
Qed.

Lemma binary_replicate_zero (n : nat) : Forall binary (replicate n 0).
Proof. apply Forall_replicate. by left. Qed.

Lemma encode_term_shape (num_qubits : nat) (t : term) (row : vector) :
  encode_term num_qubits t = Ok row ->
  length row = (2 * num_qubits)%nat /\ Forall binary row.
Proof.
  intros H. apply for_each_mark_shape in H as [L B].
  rewrite length_replicate in L. auto using binary_replicate_zero.
Qed.

Lemma binary_matrix_shape (terms : list term) (num_qubits : nat) (a : matrix) :
  _binary_matrix terms num_qubits = Ok a ->
  binary_shape (length terms) (2 * num_qubits) a.
Proof.
  rewrite binary_matrix_rows. intros H. split; [by eapply map_res_length|].
  apply Forall_lookup. intros i row Hi.
  assert (i < length terms)%nat as Hlt.
  { apply map_res_length in H as <-. by eapply lookup_lt_Some. }
  apply lookup_lt_is_Some in Hlt as [t Ht].
  destruct (map_res_lookup _ _ _ _ _ H Ht) as (row' & Hr & He).
  assert (row' = row) as -> by congruence.
  by apply encode_term_shape in He.
Qed.

Lemma binary_matrix_row (terms : list term) (num_qubits : nat) (a : matrix) r t :
  _binary_matrix terms num_qubits = Ok a -> terms !! r = Some t ->
  encode_term num_qubits t = Ok (row_at a r).
Proof.
  rewrite binary_matrix_rows. intros H Ht.
  destruct (map_res_lookup _ _ _ _ _ H Ht) as (row & Hr & He).
  unfold row_at. rewrite nth_lookup, Hr. done.
Qed.

(** ** Which bits [_binary_matrix] sets *)

Lemma nth_insert (row : vector) (i c : nat) (x : Z) :
  (i < length row)%nat ->
  nth c (<[i := x]> row) 0 = if decide (c = i) then x else nth c row 0.
Proof.
  intros Hi. rewrite !nth_lookup. case_decide as Hc.
  - subst. by rewrite list_lookup_insert_eq.
  - by rewrite list_lookup_insert_ne.
Qed.

Lemma nth_insert_one (row : vector) (i c : nat) :
  (i < length row)%nat ->
  nth c (<[i := 1]> row) 0 = 1 <-> nth c row 0 = 1 \/ c = i.
Proof.
  intros Hi. rewrite nth_insert by done. case_decide; intuition.
Qed.

Lemma mark_spec (num_qubits : nat) (row : vector) (ow : pyname * Z) :
  length row = (2 * num_qubits)%nat ->
  0 <= ow.2 < Z.of_nat num_qubits ->
  exists row', mark num_qubits row ow = Ok row' /\
    forall c, nth c row' 0 = 1 <-> nth c row 0 = 1 \/ sets num_qubits ow c.
Proof.
  destruct ow as [op w]. unfold sets, mark. cbn [fst snd]. intros L Hw.
  case (op_in op ["PauliX"; "PauliY"]); case (op_in op ["PauliZ"; "PauliY"]).
  - rewrite setitem_in_range by lia. rewrite bind_Ok.
    rewrite setitem_in_range by (rewrite length_insert; lia).
    eexists; split; [done|]. intros c.
    rewrite !nth_insert_one by (rewrite ?length_insert; lia). intuition lia.
  - rewrite setitem_in_range by lia. rewrite bind_Ok.
    eexists; split; [done|]. intros c.
    rewrite !nth_insert_one by lia. intuition (try lia; try discriminate).
  - rewrite bind_Ok, setitem_in_range by lia.
    eexists; split; [done|]. intros c.
    rewrite !nth_insert_one by lia. intuition (try lia; try discriminate).
  - rewrite bind_Ok. eexists; split; [done|]. intros c.
    intuition (try lia; try discriminate).
Qed.

Lemma for_each_mark_spec (num_qubits : nat) (l : list (pyname * Z)) (row : vector) :
  length row = (2 * num_qubits)%nat ->
  Forall (fun ow => 0 <= ow.2 < Z.of_nat num_qubits) l ->
  exists row', for_each (mark num_qubits) row l = Ok row' /\
    forall c, nth c row' 0 = 1 <-> nth c row 0 = 1 \/ Exists (fun ow => sets num_qubits ow c) l.
Proof.
  revert row; induction l as [|ow l IH]; intros row L Hl.
  - exists row. split; [done|]. intros c. rewrite Exists_nil. tauto.
  - inversion Hl as [|? ? Hw Hl']; subst.
    destruct (mark_spec num_qubits row ow L Hw) as (row1 & H1 & S1).
    assert (length row1 = (2 * num_qubits)%nat) as L1.
    { apply mark_shape in H1 as [-> _]. done. }
    destruct (IH row1 L1 Hl') as (row' & H2 & S2).
    exists row'. cbn [for_each]. rewrite H1, bind_Ok. split; [done|].
    intros c. rewrite S2, S1, Exists_cons. tauto.
Qed.

(** On a well-formed term the inner loop runs over its label/wire pairs. *)
Lemma zip_ops_wires (num_qubits : nat) (t : term) :
  well_formed num_qubits t ->
  zip (ops_of t) (wires t) = (fun sw : string * Z => (NStr sw.1, sw.2)) <$> factors t.
Proof.
  destruct t as [nm ws]. unfold well_formed, ops_of, factors. cbn [name wires].
  intros [Hn _]. destruct nm as [s|l].
  - destruct ws as [|w [|? ?]]; try discriminate. done.
  - destruct Hn as [Hl Hne].
    apply Nat.eqb_neq in Hne. rewrite Hne.
    clear Hne. revert ws Hl. induction l as [|s l IH]; intros [|w ws] Hl; try done.
    simpl. f_equal. apply IH. simpl in Hl. lia.
Qed.

Lemma factors_wires (t : term) (s : string) (w : Z) :
  (s, w) ∈ factors t -> w ∈ wires t.
Proof.
  unfold factors. destruct (name t) as [s'|l].
  - intros H. apply list_elem_of_fmap in H as (w' & Heq & Hw). by inversion Heq; subst.
  - intros H. apply elem_of_zip_r in H. done.
Qed.

Lemma encode_term_spec (num_qubits : nat) (t : term) :
  well_formed num_qubits t ->
  exists row, encode_term num_qubits t = Ok row /\
    forall i, (i < num_qubits)%nat ->
      (nth i row 0 = 1 <-> acts_as ["PauliZ"; "PauliY"] t i) /\
      (nth (num_qubits + i) row 0 = 1 <-> acts_as ["PauliX"; "PauliY"] t i).
Proof.
  intros Hwf. unfold encode_term. rewrite (zip_ops_wires num_qubits) by done.
  destruct Hwf as [_ Hws].
  assert (Forall (fun sw : string * Z => 0 <= sw.2 < Z.of_nat num_qubits) (factors t)) as Hf.
  { apply Forall_forall. intros [s w] Hin. cbn [snd].
    rewrite Forall_forall in Hws. apply Hws. by eapply factors_wires. }
  destruct (for_each_mark_spec num_qubits
              ((fun sw : string * Z => (NStr sw.1, sw.2)) <$> factors t)
              (replicate (2 * num_qubits) 0)) as (row & Hrow & Hspec).
  { by rewrite length_replicate. }
  { apply Forall_fmap. eapply Forall_impl; [exact Hf|]. by intros [s w]. }
  exists row. split; [done|]. intros i Hi.
  assert (forall c, nth c (replicate (2 * num_qubits) 0) 0 = 1 <-> False) as Hz.
  { intros c. rewrite nth_lookup. destruct (replicate _ _ !! c) as [x|] eqn:E; [|done].
    apply lookup_replicate in E as [-> _]. done. }
  split; rewrite Hspec, Hz, Exists_fmap, Exists_exists; unfold acts_as, sets; cbn [fst snd op_in].
  - split.
    + intros [[]|([s w] & Hin & Hs)]. unfold compose in Hs. cbn [fst snd op_in] in Hs.
      rewrite Forall_forall in Hf. specialize (Hf _ Hin). cbn [snd] in Hf.
      destruct Hs as [[_ Hc]|[Hop Hc]]; [lia|].
      apply bool_decide_eq_true in Hop. exists s. split; [done|]. by rewrite Hc.
    + intros (s & Hs & Hin). right. exists (s, Z.of_nat i). split; [done|].
      unfold compose. cbn [fst snd op_in]. right. split; [by apply bool_decide_eq_true | done].
  - split.
    + intros [[]|([s w] & Hin & Hs)]. unfold compose in Hs. cbn [fst snd op_in] in Hs.
      rewrite Forall_forall in Hf. specialize (Hf _ Hin). cbn [snd] in Hf.
      destruct Hs as [[Hop Hc]|[_ Hc]]; [|lia].
      apply bool_decide_eq_true in Hop. exists s. split; [done|].
      replace (Z.of_nat i) with w by lia. done.
    + intros (s & Hs & Hin). right. exists (s, Z.of_nat i). split; [done|].
      unfold compose. cbn [fst snd op_in]. left. split; [by apply bool_decide_eq_true | lia].
Qed.

Lemma map_res_total {A B} (f : A -> res B) (l : list A) :
  Forall (fun a => exists b, f a = Ok b) l -> exists bs, map_res f l = Ok bs.
Proof.
  induction 1 as [|a l [b Hb] _ [bs Hbs]]; [by exists []|].
  exists (b :: bs). cbn [map_res]. by rewrite Hb, bind_Ok, Hbs.
Qed.

(** C6, as amended: on well-formed terms with wires in [0, N) the matrix
    of [_binary_matrix] has one 0/1 row of length 2N per term, with a 1 in
    column i exactly when the term acts as Z or Y on qubit i, and a 1 in
    column N + i exactly when it acts as X or Y on qubit i. *)
Theorem binary_matrix_zx_layout (terms : list term) (num_qubits : nat) :
  Forall (well_formed num_qubits) terms ->
  exists a, _binary_matrix terms num_qubits = Ok a /\
    binary_shape (length terms) (2 * num_qubits) a /\
    zx_layout num_qubits terms a.
Proof.
  intros Hwf.
  destruct (map_res_total (encode_term num_qubits) terms) as [a Ha].
  { eapply Forall_impl; [exact Hwf|]. intros t Ht.
    destruct (encode_term_spec num_qubits t Ht) as (row & Hrow & _). eauto. }
  rewrite <- binary_matrix_rows in Ha.
  exists a. split; [done|]. split; [by apply binary_matrix_shape|].
  intros r t i Hr Hi.
  pose proof (binary_matrix_row _ _ _ _ _ Ha Hr) as Hrow.
  rewrite Forall_forall in Hwf.
  destruct (encode_term_spec num_qubits t) as (row & Hrow' & Hspec).
  { apply Hwf. by eapply list_elem_of_lookup_2. }
  assert (row = row_at a r) as -> by congruence.
  by apply Hspec.
Qed.

(** C6, as the specification words it, fails on the single term X0 of a
    one-qubit register: its row is [0; 1], so column 0 is clear although
    the term acts as X on qubit 0. *)
Lemma binary_matrix_not_xz_layout :
  exists a, _binary_matrix [PauliX 0] 1 = Ok a /\ ~ xz_layout 1 [PauliX 0] a.
Proof.
  exists [[0; 1]]. split; [reflexivity|].
  intros H. destruct (H 0%nat (PauliX 0) 0%nat eq_refl) as [[_ H1] _]; [lia|].
  assert (entry [[0; 1]] 0 0 = 1) as E; [|discriminate E].
  apply H1. exists "PauliX"%string. split; [by left | by left].
Qed.

Lemma binary_matrix_zx_layout_scenario :
  exists a, _binary_matrix [tZ0X1; tZ0Y2; tX0Y3] 4 = Ok a /\
    binary_shape 3 8 a /\ zx_layout 4 [tZ0X1; tZ0Y2; tX0Y3] a.
Proof.
  apply (binary_matrix_zx_layout [tZ0X1; tZ0Y2; tX0Y3] 4).
  repeat constructor; simpl; try lia; discriminate.
Defined.

(** ** [generate_paulis] *)

Lemma omap_cons_eq {A B} (g : A -> option B) (x : A) (l : list A) :
  omap g (x :: l) = match g x with Some y => y :: omap g l | None => omap g l end.
Proof. reflexivity. Qed.

Lemma foldl_snoc_option {A B} (g : A -> option B) (acc : list B) (l : list A) :
  foldl (fun (acc : list B) (x : A) =>
           match g x with Some y => acc ++ [y] | None => acc end) acc l
  = acc ++ omap g l.
Proof.
  revert acc; induction l as [|x l IH]; intros acc.
  - simpl. by rewrite app_nil_r.
  - cbn [foldl]. rewrite IH, omap_cons_eq.
    destruct (g x); [by rewrite <- app_assoc | done].
Qed.

Lemma omap_length_le {A B} (g : A -> option B) (l : list A) :
  (length (omap g l) <= length l)%nat.
Proof.
  induction l as [|x l IH]; [simpl; lia|].
  rewrite omap_cons_eq. destruct (g x); simpl; lia.
Qed.

Lemma omap_full_lookup {A B} (g : A -> option B) (l : list A) i x :
  length (omap g l) = length l -> l !! i = Some x ->
  exists y, g x = Some y /\ omap g l !! i = Some y.
Proof.
  revert i; induction l as [|a l IH]; intros i HL Hi; [done|].
  rewrite omap_cons_eq in *. pose proof (omap_length_le g l) as Hle.
  destruct (g a) as [b|] eqn:E; simpl in HL; [|lia].
  destruct i as [|i]; simpl in Hi.
  - inversion Hi; subst. exists b. by rewrite E.
  - simpl. apply IH; [lia | done].
Qed.

Lemma omap_full_iff {A B} (g : A -> option B) (l : list A) :
  length (omap g l) = length l <-> Forall (fun x => is_Some (g x)) l.
Proof.
  induction l as [|a l IH]; [by split; [constructor|] |].
  pose proof (omap_length_le g l) as Hle.
  rewrite omap_cons_eq, Forall_cons.
  destruct (g a) as [b|] eqn:E; simpl.
  - split.
    + intros H. split; [by eexists | apply IH; lia].
    + intros [_ H]. f_equal. by apply IH.
  - split; [lia|]. intros [[? ?] _]. discriminate.
Qed.

Lemma first_qualifying_Some (bmat : matrix) (row : nat) (cols : list nat) (col : nat) :
  first_qualifying bmat row cols = Some col ->
  col ∈ cols /\ qualifies bmat row col = true.
Proof.
  induction cols as [|c cols IH]; simpl; [done|].
  destruct (qualifies bmat row c) eqn:E.
  - intros [= ->]. split; [by left | done].
  - intros H. destruct (IH H). split; [by right | done].
Qed.

Lemma lookup_delete_other {A} (l : list A) (row j : nat) (x : A) :
  j ≠ row -> l !! j = Some x -> x ∈ delete row l.
Proof.
  intros Hne Hj. destruct (decide (j < row)%nat).
  - apply list_elem_of_lookup. exists j. by rewrite list_lookup_delete_lt.
  - apply list_elem_of_lookup. exists (j - 1)%nat.
    rewrite list_lookup_delete_ge by lia.
    replace (S (j - 1)) with j by lia. done.
Qed.

Lemma all_zero_spec (v : vector) : all_zero v = true <-> Forall (fun x => x = 0) v.
Proof.
  unfold all_zero. rewrite forallb_forall, Forall_forall.
  split; intros H x Hx.
  - apply Z.eqb_eq, H. by apply list_elem_of_In.
  - apply Z.eqb_eq, H. by apply list_elem_of_In.
Qed.

Lemma qualifies_spec (bmat : matrix) (row col : nat) :
  qualifies bmat row col = true ->
  entry bmat row col ≠ 0 /\
  forall j, j ≠ row -> (j < length bmat)%nat -> entry bmat j col = 0.
Proof.
  unfold qualifies, delete_row, entry. intros H.
  apply andb_true_iff in H as [H1 H2].
  apply negb_true_iff, Z.eqb_neq in H1. split; [done|].
  intros j Hne Hj. apply lookup_lt_is_Some in Hj as [r Hr].
  apply all_zero_spec in H2. unfold column in H2.
  rewrite Forall_fmap, Forall_forall in H2.
  unfold row_at. rewrite (nth_lookup_Some _ _ _ _ Hr).
  apply (H2 r). by eapply lookup_delete_other.
Qed.

Lemma foldl_sigma (bmat : matrix) (rows : list nat) (acc : list term) :
  foldl
    (fun (sigma_x : list term) (row : nat) =>
       match first_qualifying bmat row (seq 0 ((shape bmat).2 / 2)%nat) with
       | Some col => sigma_x ++ [PauliX (Z.of_nat col)]
       | None => sigma_x
       end) acc rows
  = acc ++ omap (sigma_of bmat) rows.
Proof.
  rewrite <- foldl_snoc_option. revert acc.
  induction rows as [|r rows IH]; intros acc; [done|].
  cbn [foldl]. rewrite IH. f_equal. unfold sigma_of.
  by destruct (first_qualifying _ _ _).
Qed.

Lemma generate_paulis_inv (generators : list Hamiltonian) (num_qubits : nat) sx :
  generate_paulis generators num_qubits = Ok sx ->
  exists ts bmat, map_res first_op generators = Ok ts /\
    _binary_matrix ts num_qubits = Ok bmat /\
    length bmat = length generators /\
    binary_shape (length generators) (2 * num_qubits) bmat /\
    sx = omap (sigma_of bmat) (seq 0 (length bmat)).
Proof.
  unfold generate_paulis. intros H.
  apply bind_Ok_inv in H as (ts & Hts & H).
  apply bind_Ok_inv in H as (bmat & Hb & H).
  exists ts, bmat. pose proof (binary_matrix_shape _ _ _ Hb) as Hs.
  rewrite (map_res_length _ _ _ Hts) in Hs.
  repeat split; try done; try apply Hs.
  rewrite foldl_sigma in H. by inversion H.
Qed.

Lemma shape_columns (nrows ncols : nat) (a : matrix) :
  binary_shape nrows ncols a -> (0 < nrows)%nat -> (shape a).2 = ncols.
Proof.
  intros [HL HF] Hpos. unfold shape. cbn [snd].
  destruct a as [|row a]; simpl in *; [lia|].
  apply Forall_cons in HF as [[Hlen _] _]. done.
Qed.

Lemma half_double (n : nat) : ((2 * n) / 2 = n)%nat.
Proof. rewrite Nat.mul_comm. by apply Nat.div_mul. Qed.

Lemma sigma_of_Some (num_qubits nrows : nat) (bmat : matrix) (row : nat) (s : term) :
  binary_shape nrows (2 * num_qubits) bmat -> (row < nrows)%nat ->
  sigma_of bmat row = Some s ->
  exists col, (col < num_qubits)%nat /\ s = PauliX (Z.of_nat col) /\
    qualifies bmat row col = true.
Proof.
  intros Hs Hrow. unfold sigma_of.
  rewrite (shape_columns _ _ _ Hs) by lia. rewrite half_double.
  destruct (first_qualifying _ _ _) as [col|] eqn:E; [|done].
  intros [= <-]. apply first_qualifying_Some in E as [Hin Hq].
  apply elem_of_seq in Hin. exists col. split; [lia|done].
Qed.

Lemma first_qualifying_complete (bmat : matrix) (row : nat) (cols : list nat) (col : nat) :
  col ∈ cols -> qualifies bmat row col = true ->
  is_Some (first_qualifying bmat row cols).
Proof.
  induction cols as [|c cols IH]; intros Hin Hq; [by apply elem_of_nil in Hin|].
  simpl. destruct (qualifies bmat row c) eqn:E; [by eexists|].
  apply elem_of_cons in Hin as [->|Hin]; [congruence | by apply IH].
Qed.

Lemma first_qualifying_seq (bmat : matrix) (row s n col : nat) :
  first_qualifying bmat row (seq s n) = Some col <->
  (s <= col < s + n)%nat /\ qualifies bmat row col = true /\
  forall c, (s <= c < col)%nat -> qualifies bmat row c = false.
Proof.
  revert s; induction n as [|n IH]; intros s; simpl.
  - split; [done | lia].
  - destruct (qualifies bmat row s) eqn:E.
    + split.
      * intros [= <-]. split; [lia|]. split; [done|]. lia.
      * intros (Hc & Hq & Hmin). f_equal.
        destruct (decide (col = s)) as [|Hne]; [done|].
        specialize (Hmin s ltac:(lia)). congruence.
    + rewrite IH. split.
      * intros (Hc & Hq & Hmin). split; [lia|]. split; [done|].
        intros c Hcs. destruct (decide (c = s)) as [->|]; [done|]. apply Hmin. lia.
      * intros (Hc & Hq & Hmin). split; [|split; [done|intros; apply Hmin; lia]].
        destruct (decide (col = s)) as [->|]; [congruence | lia].
Qed.

Lemma omap_ext_in {A B} (f g : A -> option B) (l : list A) :
  (forall x, x ∈ l -> f x = g x) -> omap f l = omap g l.
Proof.
  induction l as [|x l IH]; intros H; [done|].
  rewrite !omap_cons_eq, (H x) by left. rewrite IH; [done|]. intros; apply H; by right.
Qed.

(** What [generate_paulis] returns, when it returns: in generator order,
    the Pauli-X on the first qualifying column of each generator that has
    a qualifying column, and nothing for a generator without one.  The
    list is as long as the generator list exactly when every generator has
    a qualifying column. *)
Lemma generate_paulis_at_most_one_each
    (generators : list Hamiltonian) (num_qubits : nat) (sx : list term) :
  generate_paulis generators num_qubits = Ok sx ->
  sx = omap (fun j => (fun col => PauliX (Z.of_nat col))
                        <$> first_qualifying_column generators num_qubits j)
            (seq 0 (length generators)) /\
  (forall j col, (j < length generators)%nat ->
     first_qualifying_column generators num_qubits j = Some col <->
     qualifying_column generators num_qubits j col /\
     forall c, (c < col)%nat -> ~ qualifying_column generators num_qubits j c) /\
  (length sx <= length generators)%nat /\
  (length sx = length generators <->
   forall j, (j < length generators)%nat ->
     exists col, qualifying_column generators num_qubits j col).
Proof.
  intros H. destruct (generate_paulis_inv _ _ _ H) as (ts & bmat & Hts & Hb & HL & Hs & ->).
  assert (forall j, first_qualifying_column generators num_qubits j
                    = first_qualifying bmat j (seq 0 num_qubits)) as Hfq.
  { intros j. unfold first_qualifying_column. by rewrite Hts, bind_Ok, Hb. }
  assert (forall j c, qualifying_column generators num_qubits j c <->
                      (c < num_qubits)%nat /\ qualifies bmat j c = true) as Hqc.
  { intros j c. split.
    - intros (ts' & bmat' & Hts' & Hb' & Hc & Hq).
      assert (ts' = ts) as -> by congruence. assert (bmat' = bmat) as -> by congruence. done.
    - intros [Hc Hq]. by exists ts, bmat. }
  split; [|split; [|split]].
  - rewrite HL. apply omap_ext_in. intros j Hj. apply elem_of_seq in Hj.
    unfold sigma_of. rewrite (shape_columns _ _ _ Hs) by lia.
    by rewrite half_double, Hfq.
  - intros j col Hj. rewrite Hfq, first_qualifying_seq. split.
    + intros (Hc & Hq & Hmin). split; [apply Hqc; split; [lia | done]|].
      intros c Hlt Hq'. apply Hqc in Hq' as [_ Hq']. rewrite Hmin in Hq' by lia. done.
    + intros [Hq Hmin]. apply Hqc in Hq as [Hc Hq]. split; [lia|]. split; [done|].
      intros c Hlt. destruct (qualifies bmat j c) eqn:E; [|done].
      exfalso. apply (Hmin c); [lia|]. apply Hqc. split; [lia | done].
  - etrans; [apply omap_length_le|]. rewrite length_seq. lia.
  - assert (length generators = length (seq 0 (length bmat))) as Hg
      by (rewrite length_seq; lia).
    rewrite Hg at 1. rewrite omap_full_iff, Forall_forall. split.
    + intros Hall j Hj. destruct (Hall j) as [s Hsig]; [apply elem_of_seq; lia|].
      destruct (sigma_of_Some num_qubits _ bmat j s Hs) as (col & Hc & _ & Hq); [lia|done|].
      exists col. by exists ts, bmat.
    + intros Hall j Hj. apply elem_of_seq in Hj.
      destruct (Hall j) as (col & Hq); [lia|]. apply Hqc in Hq as [Hc Hq].
      unfold sigma_of. rewrite (shape_columns _ _ _ Hs) by lia. rewrite half_double.
      destruct (first_qualifying_complete bmat j (seq 0 num_qubits) col) as [c Hc'];
        [apply elem_of_seq; lia | done |].
      rewrite Hc'. by eexists.
Qed.

(** C3 fails on the five generators of the scenario of three terms on four
    qubits, as the pipeline itself computes them: the first generator, X1,
    has no Z or Y factor, hence no qualifying column, and
    [generate_paulis] returns four operators for five generators without
    raising.  The list is shifted against the generators: its first
    operator, X0, is the one found for the second generator, and it
    commutes with the first.  On the Hamiltonian X0 on one qubit the
    pipeline returns the generator X0 and no Pauli-X at all. *)
Theorem generate_paulis_skips_generator :
  generate_symmetries scenario 4
  = Ok (scenario_generators, [PauliX 0; PauliX 1; PauliX 2; PauliX 3]) /\
  generate_paulis scenario_generators 4 = Ok [PauliX 0; PauliX 1; PauliX 2; PauliX 3] /\
  length [PauliX 0; PauliX 1; PauliX 2; PauliX 3] ≠ length scenario_generators /\
  scenario_generators !! 0%nat = Some (tau (PauliX 1)) /\
  (exists es eg, encoding 4 (PauliX 0) = Ok es /\
     generator_encoding 4 (tau (PauliX 1)) = Ok eg /\ symplectic 4 es eg = 0) /\
  generate_symmetries (MkHamiltonian [1%Q] [PauliX 0]) 1 = Ok ([tau (PauliX 0)], []).
Proof.
  split; [vm_compute; reflexivity|]. split; [reflexivity|].
  split; [simpl; lia|]. split; [reflexivity|]. split.
  - eexists _, _. split; [reflexivity|]. split; reflexivity.
  - vm_compute. reflexivity.
Qed.

Lemma generate_paulis_at_most_one_each_scenario :
  [PauliX 0; PauliX 1; PauliX 2; PauliX 3]
  = omap (fun j => (fun col => PauliX (Z.of_nat col))
                     <$> first_qualifying_column scenario_generators 4 j)
         (seq 0 (length scenario_generators)) /\
  (forall j col, (j < length scenario_generators)%nat ->
     first_qualifying_column scenario_generators 4 j = Some col <->
     qualifying_column scenario_generators 4 j col /\
     forall c, (c < col)%nat -> ~ qualifying_column scenario_generators 4 j c) /\
  (length [PauliX 0; PauliX 1; PauliX 2; PauliX 3] <= length scenario_generators)%nat /\
  (length [PauliX 0; PauliX 1; PauliX 2; PauliX 3] = length scenario_generators <->
   forall j, (j < length scenario_generators)%nat ->
     exists col, qualifying_column scenario_generators 4 j col).
Proof.
  apply (generate_paulis_at_most_one_each scenario_generators 4). reflexivity.
Defined.

(** C10: [generate_paulis] reads only the first term of each generator. *)
Theorem generate_paulis_first_term_only
    (generators generators' : list Hamiltonian) (num_qubits : nat) :
  Forall2 (fun g g' => head (ops g) = head (ops g')) generators generators' ->
  generate_paulis generators num_qubits = generate_paulis generators' num_qubits.
Proof.
  intros H. unfold generate_paulis.
  assert (map_res first_op generators = map_res first_op generators') as ->; [|done].
  induction H as [|g g' gs gs' Hg _ IH]; [done|].
  cbn [map_res]. rewrite IH. f_equal. unfold first_op.
  destruct (ops g), (ops g'); simpl in Hg; congruence.
Qed.

Lemma generate_paulis_first_term_only_example :
  generate_paulis
    [MkHamiltonian [1%Q; 1%Q] [PauliZ 0; PauliX 1];
     MkHamiltonian [1%Q] [Term (NList ["PauliZ"; "PauliZ"]) [0; 1]]] 2
  = generate_paulis
    [MkHamiltonian [1%Q] [PauliZ 0];
     MkHamiltonian [1%Q; 1%Q; 1%Q]
       [Term (NList ["PauliZ"; "PauliZ"]) [0; 1]; PauliY 0; PauliY 1]] 2.
Proof.
  apply generate_paulis_first_term_only. repeat constructor.
Defined.

(** ** The Pauli-X of a generator against the encodings of the generators *)

Lemma encoding_encode_term (num_qubits : nat) (t : term) :
  encoding num_qubits t = encode_term num_qubits t.
Proof.
  unfold encoding. rewrite binary_matrix_rows. cbn [map_res].
  by destruct (encode_term num_qubits t).
Qed.

Lemma encode_term_PauliX (num_qubits col : nat) :
  (col < num_qubits)%nat ->
  encode_term num_qubits (PauliX (Z.of_nat col))
  = Ok (<[(num_qubits + col)%nat := 1]> (replicate (2 * num_qubits) 0)).
Proof.
  intros Hc. unfold encode_term, PauliX, ops_of. cbn [wires name length Nat.eqb zip zip_with for_each mark].
  replace (op_in (NStr "PauliX") ["PauliX"; "PauliY"]) with true by reflexivity.
  replace (op_in (NStr "PauliX") ["PauliZ"; "PauliY"]) with false by reflexivity.
  rewrite setitem_in_range by (rewrite length_replicate; lia).
  rewrite !bind_Ok. do 2 f_equal. lia.
Qed.

Lemma sum_single (f : nat -> Z) (n col : nat) :
  (col < n)%nat -> (forall i, (i < n)%nat -> i ≠ col -> f i = 0) ->
  foldr Z.add 0 (f <$> seq 0 n) = f col.
Proof.
  induction n as [|n IH]; intros Hc Hf; [lia|].
  rewrite seq_S, fmap_app, foldr_app. simpl.
  assert (forall (l : list Z) (z : Z), foldr Z.add z l = foldr Z.add 0 l + z) as Hacc.
  { induction l as [|x l IHl]; intros z; simpl; [lia|]. rewrite IHl. lia. }
  rewrite Hacc. destruct (decide (col = n)) as [->|Hne].
  - assert (foldr Z.add 0 (f <$> seq 0 n) = 0) as ->; [|lia].
    assert (forall i, (i < n)%nat -> f i = 0) as Hz by (intros; apply Hf; lia).
    clear -Hz. induction n as [|n IH]; [done|].
    rewrite seq_S, fmap_app, foldr_app. simpl. rewrite Z.add_0_r, Hz by lia.
    apply IH. intros; apply Hz; lia.
  - rewrite IH by (try lia; intros; apply Hf; lia). rewrite (Hf n) by lia. lia.
Qed.

Lemma nth_replicate_zero (n c : nat) : nth c (replicate n 0) 0 = 0.
Proof.
  rewrite nth_lookup. destruct (replicate n 0 !! c) as [x|] eqn:E; [|done].
  by apply lookup_replicate in E as [-> _].
Qed.

Lemma symplectic_sigma (num_qubits col : nat) (eg : vector) :
  (col < num_qubits)%nat ->
  symplectic num_qubits (<[(num_qubits + col)%nat := 1]> (replicate (2 * num_qubits) 0)) eg
  = nth col eg 0 `mod` 2.
Proof.
  intros Hc. unfold symplectic. f_equal.
  rewrite (sum_single _ num_qubits col Hc).
  - rewrite !nth_insert by (rewrite length_replicate; lia).
    rewrite nth_replicate_zero.
    rewrite decide_False by lia. rewrite decide_True by lia. lia.
  - intros i Hi Hne. rewrite !nth_insert by (rewrite length_replicate; lia).
    rewrite !nth_replicate_zero.
    rewrite decide_False by lia. rewrite (decide_False (P := (num_qubits + i)%nat = _)) by lia.
    lia.
Qed.

Lemma entry_binary (nrows ncols : nat) (a : matrix) (r c : nat) :
  binary_shape nrows ncols a -> (r < nrows)%nat -> (c < ncols)%nat ->
  binary (entry a r c).
Proof.
  intros [HL HF] Hr Hc. unfold entry, row_at.
  rewrite <- HL in Hr. apply lookup_lt_is_Some in Hr as [row Hrow].
  rewrite (nth_lookup_Some _ _ _ _ Hrow).
  rewrite Forall_forall in HF. destruct (HF row) as [Hlen Hbin].
  { by eapply list_elem_of_lookup_2. }
  rewrite <- Hlen in Hc. apply lookup_lt_is_Some in Hc as [x Hx].
  rewrite (nth_lookup_Some _ _ _ _ Hx).
  rewrite Forall_forall in Hbin. apply Hbin. by eapply list_elem_of_lookup_2.
Qed.

(** C1: when [generate_paulis] returns one Pauli-X per generator, the
    symplectic inner product modulo 2 of the encoding of the i-th Pauli-X
    with the encoding of the j-th generator is 1 for j = i (they
    anticommute) and 0 for j <> i (they commute). *)
Theorem generate_paulis_anticommutation
    (generators : list Hamiltonian) (num_qubits : nat) (sx : list term) :
  generate_paulis generators num_qubits = Ok sx ->
  length sx = length generators ->
  forall i j s g, sx !! i = Some s -> generators !! j = Some g ->
    exists es eg, encoding num_qubits s = Ok es /\
      generator_encoding num_qubits g = Ok eg /\
      symplectic num_qubits es eg = if decide (i = j) then 1 else 0.
Proof.
  intros H HLsx i j s g Hi Hj.
  destruct (generate_paulis_inv _ _ _ H) as (ts & bmat & Hts & Hb & HL & Hs & ->).
  assert (i < length bmat)%nat as Hilt.
  { apply lookup_lt_Some in Hi. lia. }
  assert (j < length bmat)%nat as Hjlt.
  { apply lookup_lt_Some in Hj. lia. }
  destruct (omap_full_lookup (sigma_of bmat) (seq 0 (length bmat)) i i) as (s' & Hsig & Hs').
  { rewrite length_seq. lia. }
  { by apply lookup_seq_lt. }
  assert (s' = s) as -> by congruence.
  destruct (sigma_of_Some num_qubits _ bmat i s Hs) as (col & Hc & -> & Hq); [lia|done|].
  apply qualifies_spec in Hq as [Hown Hothers].
  destruct (map_res_lookup _ _ _ _ _ Hts Hj) as (t & Ht & Hfirst).
  pose proof (binary_matrix_row _ _ _ _ _ Hb Ht) as Hrow.
  exists (<[(num_qubits + col)%nat := 1]> (replicate (2 * num_qubits) 0)), (row_at bmat j).
  split; [|split].
  - rewrite encoding_encode_term. by apply encode_term_PauliX.
  - unfold generator_encoding. rewrite Hfirst, bind_Ok. by rewrite encoding_encode_term.
  - rewrite symplectic_sigma by done. fold (entry bmat j col).
    assert (binary (entry bmat j col)) as Hbin.
    { eapply entry_binary; [exact Hs | lia | lia]. }
    case_decide as Hij.
    + subst j. destruct Hbin as [E|E]; [done | by rewrite E].
    + rewrite Hothers by (try lia; done). done.
Qed.

Lemma generate_paulis_anticommutation_H2 :
  exists es eg,
    encoding 4 (PauliX 2) = Ok es /\
    generator_encoding 4 (tau (Term (NList ["PauliZ"; "PauliZ"]) [0; 3])) = Ok eg /\
    symplectic 4 es eg = if decide (1%nat = 2%nat) then 1 else 0.
Proof.
  apply (generate_paulis_anticommutation
           [tau (Term (NList ["PauliZ"; "PauliZ"]) [0; 1]);
            tau (Term (NList ["PauliZ"; "PauliZ"]) [0; 2]);
            tau (Term (NList ["PauliZ"; "PauliZ"]) [0; 3])] 4
           [PauliX 1; PauliX 2; PauliX 3]);
    reflexivity.
Defined.

(** ** The scenario of three terms on four qubits *)

(** C2: the matrix of the three terms Z0 X1, Z0 Y2, X0 Y3 on four qubits,
    its reduction, and the five generators of the pipeline, in order. *)
Theorem scenario_three_terms_four_qubits :
  _binary_matrix [tZ0X1; tZ0Y2; tX0Y3] 4
  = Ok [[1; 0; 0; 0; 0; 1; 0; 0]; [1; 0; 1; 0; 0; 0; 1; 0]; [0; 0; 0; 1; 1; 0; 0; 1]] /\
  _reduced_row_echelon
    [[1; 0; 0; 0; 0; 1; 0; 0]; [1; 0; 1; 0; 0; 0; 1; 0]; [0; 0; 0; 1; 1; 0; 0; 1]]
  = [[1; 0; 0; 0; 0; 1; 0; 0]; [0; 0; 1; 1; 1; 1; 1; 1]; [0; 0; 0; 1; 1; 0; 0; 1]] /\
  exists pauli_x, generate_symmetries scenario 4 = Ok (scenario_generators, pauli_x).
Proof.
  split; [reflexivity|]. split; [reflexivity|].
  exists [PauliX 0; PauliX 1; PauliX 2; PauliX 3]. vm_compute. reflexivity.
Qed.

(** ** Where the reduction leaves the reduced row-echelon form *)

(** C4 at the matrix of Y0 + X0 X1 on two qubits: the function returns the
    matrix as it is, and column 2, the pivot column of row 1, holds a 1 in
    row 0.  At the matrix of X0 + X0 X1 it returns the matrix as it is,
    with the leading 1 of both rows in column 2. *)
Theorem reduced_row_echelon_not_reduced :
  _binary_matrix [PauliY 0; tX0X1] 2 = Ok y0_x0x1 /\
  _reduced_row_echelon y0_x0x1 = [[1; 0; 1; 0]; [0; 0; 1; 1]] /\
  ~ reduced (_reduced_row_echelon y0_x0x1) /\
  _binary_matrix [PauliX 0; tX0X1] 2 = Ok x0_x0x1 /\
  _reduced_row_echelon x0_x0x1 = [[0; 0; 1; 0]; [0; 0; 1; 1]] /\
  ~ echelon (_reduced_row_echelon x0_x0x1).
Proof.
  split; [reflexivity|]. split; [reflexivity|]. split; [|split; [reflexivity|split; [reflexivity|]]].
  - intros H. specialize (H 1%nat 2%nat 0%nat eq_refl).
    assert (entry (_reduced_row_echelon y0_x0x1) 0 2 = 1) as E by reflexivity.
    rewrite H in E; [discriminate | simpl; lia | lia].
  - intros H. specialize (H 0%nat 1%nat 2%nat 2%nat ltac:(lia) eq_refl eq_refl). lia.
Qed.

(** C5 at the matrix of Y0 + X0 X1, of rank 2: [_kernel] on its stripped
    reduction returns the two vectors [0;1;0;0] and [0;0;1;1], and the
    second is not in the nullspace, neither of the reduction nor of the
    matrix. *)
Theorem kernel_vector_outside_nullspace :
  _binary_matrix [PauliY 0; tX0X1] 2 = Ok y0_x0x1 /\
  gf2_rank 4 y0_x0x1 = 2%nat /\
  _kernel (strip_zero_rows (_reduced_row_echelon y0_x0x1))
  = Ok [[0; 1; 0; 0]; [0; 0; 1; 1]] /\
  ~ in_nullspace (strip_zero_rows (_reduced_row_echelon y0_x0x1)) [0; 0; 1; 1] /\
  ~ in_nullspace y0_x0x1 [0; 0; 1; 1].
Proof.
  split; [reflexivity|]. split; [reflexivity|]. split; [reflexivity|].
  split; intros H; apply Forall_cons in H as [H _]; discriminate H.
Qed.

(** The pipeline on Y0 + X0 X1 returns the generators X1 and Z0 Z1; the
    second anticommutes with the term Y0. *)
Lemma pipeline_y0_x0x1 :
  generate_symmetries (MkHamiltonian [1%Q; 1%Q] [PauliY 0; tX0X1]) 2
  = Ok ([tau (PauliX 1); tau tZ0Z1], [PauliX 0]) /\
  symplectic 2 [1; 1; 0; 0] [1; 0; 1; 0] = 1.
Proof. split; reflexivity. Qed.

(** On a Hamiltonian of identity terms only the matrix is zero, nothing is
    left after stripping, and [_kernel] raises on the array without rows. *)
Lemma pipeline_identity_raises :
  _reduced_row_echelon [[0; 0]] = [[0; 0]] /\
  strip_zero_rows [[0; 0]] = [] /\
  generate_symmetries (MkHamiltonian [1%Q] [Identity 0]) 1 = Raise IndexError.
Proof. repeat split; reflexivity. Qed.

(** C7 at the matrix of Z0 Z1 + X0 on two qubits, which is in reduced
    row-echelon form: the first application XORs row 1 into row 0, the
    second one undoes it. *)
Theorem reduced_row_echelon_not_idempotent :
  _binary_matrix [tZ0Z1; PauliX 0] 2 = Ok z0z1_x0 /\
  _reduced_row_echelon z0z1_x0 = [[1; 1; 1; 0]; [0; 0; 1; 0]] /\
  _reduced_row_echelon (_reduced_row_echelon z0z1_x0) = [[1; 1; 0; 0]; [0; 0; 1; 0]] /\
  _reduced_row_echelon (_reduced_row_echelon z0z1_x0) ≠ _reduced_row_echelon z0z1_x0.
Proof.
  split; [reflexivity|]. split; [reflexivity|]. split; [reflexivity|]. discriminate.
Qed.

(** ** The reduction over the store *)

Section HeapReduction.

Lemma run_bind {A B} (m : Heap.M A) (f : A -> Heap.M B) (σ : Heap.store) :
  (m ≫= f) σ = match m σ with Some (a, σ') => f a σ' | None => None end.
Proof. reflexivity. Qed.

Lemma run_read (l : Heap.loc) (a : matrix) (σ : Heap.store) :
  σ !! l = Some a -> Heap.read l σ = Some (a, σ).
Proof. unfold Heap.read. by intros ->. Qed.

Lemma run_update (l : Heap.loc) (f : matrix -> matrix) (a : matrix) (σ : Heap.store) :
  σ !! l = Some a -> Heap.update l f σ = Some (tt, <[l := f a]> σ).
Proof. unfold Heap.update. by intros ->. Qed.

Lemma run_copy (l : Heap.loc) (a : matrix) (σ : Heap.store) :
  σ !! l = Some a ->
  Heap.deepcopy l σ = Some (fresh (dom σ), <[fresh (dom σ) := a]> σ).
Proof. intros H. unfold Heap.deepcopy. by rewrite run_bind, (run_read _ _ _ H). Qed.

Lemma fresh_not_allocated (l : Heap.loc) (a : matrix) (σ : Heap.store) :
  σ !! l = Some a -> fresh (dom σ) ≠ l.
Proof.
  intros H E. apply (is_fresh (dom σ)). rewrite E. apply elem_of_dom. by eexists.
Qed.

(** The loop, run on the array at [l], leaves there what [rref_step]
    computes and writes nowhere else. *)
Lemma run_loop (l : Heap.loc) (steps : list (nat * nat)) (a : matrix) (σ : Heap.store) :
  Heap.for_
    (fun '(irow, icol) =>
       a ← Heap.read l;
       let krow := (irow + argmax (drop irow (column a icol)))%nat in
       _ ← Heap.update l (swap_rows krow irow);
       a ← Heap.read l;
       let pvtcols := drop icol (row_at a irow) in
       let currcol := <[irow := 0]> (column a icol) in
       let delta := outer currcol pvtcols in
       Heap.update l (fun a => ixor_from icol a delta))
    steps (<[l := a]> σ)
  = Some (tt, <[l := foldl rref_step a steps]> σ).
Proof.
  revert a; induction steps as [|[irow icol] steps IH]; intros a; [done|].
  cbn [Heap.for_ foldl]. rewrite run_bind.
  rewrite run_bind, (run_read l a) by apply lookup_insert_eq.
  rewrite run_bind, (run_update l _ a) by apply lookup_insert_eq.
  rewrite insert_insert_eq.
  rewrite run_bind, (run_read l (swap_rows (irow + argmax (drop irow (column a icol))) irow a))
    by apply lookup_insert_eq.
  rewrite (run_update l _ (swap_rows (irow + argmax (drop irow (column a icol))) irow a))
    by apply lookup_insert_eq.
  rewrite insert_insert_eq. apply IH.
Qed.

(** C9: run on the array at [binary_matrix], [_reduced_row_echelon]
    returns the address of a new array, which holds the reduction, and
    leaves the caller's array, like every array allocated before the call,
    as it was. *)
Theorem reduced_row_echelon_frame (binary_matrix : Heap.loc) (m : matrix) (σ : Heap.store) :
  σ !! binary_matrix = Some m ->
  exists result σ',
    Heap._reduced_row_echelon binary_matrix σ = Some (result, σ') /\
    result ≠ binary_matrix /\
    σ' !! binary_matrix = Some m /\
    σ' !! result = Some (_reduced_row_echelon m) /\
    forall l, l ∈ dom σ -> σ' !! l = σ !! l.
Proof.
  intros Hm. unfold Heap._reduced_row_echelon.
  set (l1 := fresh (dom σ)).
  assert (l1 ≠ binary_matrix) as Hl1 by (by eapply fresh_not_allocated).
  rewrite run_bind, (run_copy _ _ _ Hm). fold l1.
  rewrite run_bind, (run_read l1 m) by apply lookup_insert_eq.
  destruct (shape m) as [nrows ncols] eqn:Hshape.
  rewrite run_bind, run_loop.
  set (final := foldl rref_step m (zip (seq 0 nrows) (seq 0 ncols))).
  assert (_reduced_row_echelon m = final) as Hfinal.
  { unfold _reduced_row_echelon. by rewrite Hshape. }
  unfold Heap.astype_int. rewrite run_bind, (run_read l1 final) by apply lookup_insert_eq.
  unfold Heap.alloc. set (σ1 := <[l1 := final]> σ). set (l2 := fresh (dom σ1)).
  assert (σ1 !! binary_matrix = Some m) as Hm1.
  { unfold σ1. by rewrite lookup_insert_ne. }
  assert (l2 ≠ binary_matrix) as Hl2 by (by eapply fresh_not_allocated).
  exists l2, (<[l2 := final]> σ1). split; [done|]. split; [done|].
  split; [by rewrite lookup_insert_ne|].
  split; [by rewrite lookup_insert_eq, Hfinal|].
  intros l Hl.
  assert (l ≠ l1) as Hne1.
  { intros E. apply (is_fresh (dom σ)). fold l1. by rewrite <- E. }
  assert (l ≠ l2) as Hne2.
  { intros E. apply (is_fresh (dom σ1)). fold l2. rewrite <- E.
    unfold σ1. rewrite dom_insert_L. by apply elem_of_union_r. }
  unfold σ1. by rewrite !lookup_insert_ne.
Qed.

Lemma reduced_row_echelon_frame_example :
  exists result σ',
    Heap._reduced_row_echelon 0%nat {[ 0%nat := z0z1_x0 ]} = Some (result, σ') /\
    result ≠ 0%nat /\
    σ' !! 0%nat = Some z0z1_x0 /\
    σ' !! result = Some (_reduced_row_echelon z0z1_x0) /\
    forall l, l ∈ dom ({[ 0%nat := z0z1_x0 ]} : Heap.store) -> σ' !! l = ({[ 0%nat := z0z1_x0 ]} : Heap.store) !! l.
Proof.
  apply (reduced_row_echelon_frame 0%nat z0z1_x0 {[ 0%nat := z0z1_x0 ]}).
  reflexivity.
Defined.

End HeapReduction.

(** ** Reduction of a matrix of full column rank *)

Lemma dot_nil_l (v : vector) : dot [] v = 0.
Proof. reflexivity. Qed.

Lemma dot_nil_r (u : vector) : dot u [] = 0.
Proof. by destruct u. Qed.

Lemma dot_cons (x y : Z) (u v : vector) : dot (x :: u) (y :: v) = x * y + dot u v.
Proof. reflexivity. Qed.

Lemma dot_app (u1 u2 v1 v2 : vector) :
  length u1 = length v1 -> dot (u1 ++ u2) (v1 ++ v2) = dot u1 v1 + dot u2 v2.
Proof.
  revert v1; induction u1 as [|x u1 IH]; intros [|y v1] HL; try discriminate.
  - simpl. rewrite dot_nil_l. lia.
  - simpl app. rewrite !dot_cons, IH by (simpl in HL; lia). lia.
Qed.

(** A vector that is zero except, possibly, for a 1 at position [r]
    selects the component [r] of the other vector. *)
Lemma dot_unit (w u : vector) (r : nat) :
  length w = length u ->
  (forall j, (j < length u)%nat -> nth j w 0 = if decide (j = r) then 1 else 0) ->
  dot w u = if decide (r < length u)%nat then nth r u 0 else 0.
Proof.
  revert u r; induction w as [|x w IH]; intros [|y u] r HL Hw; try discriminate.
  - destruct (decide _) as [Hr|]; [simpl in Hr; lia | done].
  - rewrite dot_cons. simpl in HL.
    pose proof (Hw 0%nat ltac:(simpl; lia)) as H0. cbn [nth] in H0.
    assert (forall r', (forall j, (j < length u)%nat ->
              (if decide (S j = r) then 1 else 0) = if decide (j = r') then 1 else 0) ->
            dot w u = if decide (r' < length u)%nat then nth r' u 0 else 0) as Htail.
    { intros r' Hr'. apply IH; [lia|]. intros j Hj. rewrite <- Hr' by done.
      apply (Hw (S j)). simpl. lia. }
    destruct r as [|r].
    + rewrite (Htail (length u)).
      * subst x. decide_cases.
      * intros j Hj. decide_cases.
    + rewrite (Htail r).
      * subst x. decide_cases.
      * intros j Hj. decide_cases.
Qed.

Lemma lxor_binary (x y : Z) :
  binary x -> binary y -> binary (Z.lxor x y) /\ Z.lxor x y = x + y - 2 * x * y.
Proof. intros [-> | ->] [-> | ->]; (split; [vm_compute; auto | reflexivity]). Qed.

Lemma dot_lxor (a b w : vector) :
  length a = length b -> Forall binary a -> Forall binary b ->
  dot (zip_with Z.lxor a b) w `mod` 2 = (dot a w + dot b w) `mod` 2.
Proof.
  revert b w; induction a as [|x a IH]; intros [|y b] w HL Ha Hb; try discriminate.
  - done.
  - destruct w as [|z w]; [by rewrite !dot_nil_r|].
    apply Forall_cons in Ha as [Hx Ha]. apply Forall_cons in Hb as [Hy Hb].
    simpl zip_with. rewrite !dot_cons.
    specialize (IH b w ltac:(simpl in HL; lia) Ha Hb).
    destruct (lxor_binary x y Hx Hy) as [_ ->].
    destruct Hx as [-> | ->], Hy as [-> | ->]; Z.div_mod_to_equations; lia.
Qed.

Lemma zip_with_lxor_binary (a b : vector) :
  Forall binary a -> Forall binary b -> Forall binary (zip_with Z.lxor a b).
Proof.
  intros Ha; revert b; induction Ha as [|x a Hx Ha IH]; intros b Hb; [done|].
  destruct Hb as [|y b Hy Hb]; [done|]. simpl. constructor; [|by apply IH].
  by apply lxor_binary.
Qed.

Lemma zip_with_lxor_zeros (a : vector) :
  zip_with Z.lxor a (replicate (length a) 0) = a.
Proof.
  induction a as [|x a IH]; [done|]. simpl. by rewrite Z.lxor_0_r, IH.
Qed.

Lemma nth_zip_with_lxor (a b : vector) (c : nat) :
  length a = length b ->
  nth c (zip_with Z.lxor a b) 0 = Z.lxor (nth c a 0) (nth c b 0).
Proof.
  revert b c; induction a as [|x a IH]; intros [|y b] c HL; try discriminate.
  - by destruct c.
  - destruct c as [|c]; [done|]. simpl. apply IH. simpl in HL. lia.
Qed.

(** [argmax] on a 0/1 vector with a 1 finds a 1. *)
Lemma foldl_max_binary (x : Z) (l : vector) :
  binary x -> Forall binary l ->
  binary (foldl Z.max x l) /\
  (foldl Z.max x l = 1 <-> x = 1 \/ Exists (fun y => y = 1) l).
Proof.
  intros Hx Hl; revert x Hx; induction Hl as [|y l Hy Hl IH]; intros x Hx.
  - simpl. split; [done|]. rewrite Exists_nil. tauto.
  - cbn [foldl]. destruct (IH (Z.max x y)) as [Hb Hiff].
    { destruct Hx as [-> | ->], Hy as [-> | ->]; vm_compute; auto. }
    split; [done|]. rewrite Hiff, Exists_cons.
    destruct Hx as [-> | ->], Hy as [-> | ->]; vm_compute; intuition congruence.
Qed.

Lemma index_of_found (x : Z) (l : vector) :
  Exists (fun y => y = x) l ->
  (index_of x l < length l)%nat /\ nth (index_of x l) l 0 = x.
Proof.
  induction l as [|y l IH]; intros H; [by apply Exists_nil in H|].
  simpl. destruct (Z.eqb_spec y x) as [->|Hne].
  - split; [lia | done].
  - apply Exists_cons in H as [H|H]; [done|]. destruct (IH H). split; [lia | done].
Qed.

Lemma argmax_binary (l : vector) :
  Forall binary l -> Exists (fun y => y = 1) l ->
  (argmax l < length l)%nat /\ nth (argmax l) l 0 = 1.
Proof.
  intros Hb He. destruct l as [|x l]; [by apply Exists_nil in He|].
  unfold argmax. apply Forall_cons in Hb as [Hx Hl].
  destruct (foldl_max_binary x l Hx Hl) as [_ Hiff].
  assert (foldl Z.max x l = 1) as -> by (apply Hiff; by apply Exists_cons in He).
  by apply index_of_found.
Qed.

(** Rows of a matrix, by index. *)
Lemma row_at_lookup (a : matrix) (r : nat) (row : vector) :
  a !! r = Some row -> row_at a r = row.
Proof. intros H. unfold row_at. by apply nth_lookup_Some. Qed.

Lemma lookup_row_at (a : matrix) (r : nat) :
  (r < length a)%nat -> a !! r = Some (row_at a r).
Proof.
  intros H. apply lookup_lt_is_Some in H as [row Hrow].
  by rewrite (row_at_lookup _ _ _ Hrow).
Qed.

Lemma Forall_rows (P : vector -> Prop) (a : matrix) :
  Forall P a <-> forall r, (r < length a)%nat -> P (row_at a r).
Proof.
  rewrite Forall_lookup. split.
  - intros H r Hr. apply (H r). by apply lookup_row_at.
  - intros H r row Hrow. rewrite <- (row_at_lookup _ _ _ Hrow).
    apply H. by eapply lookup_lt_Some.
Qed.

Lemma binary_shape_row (nrows ncols : nat) (a : matrix) (r : nat) :
  binary_shape nrows ncols a -> (r < nrows)%nat ->
  length (row_at a r) = ncols /\ Forall binary (row_at a r).
Proof.
  intros [HL HF] Hr. rewrite Forall_rows in HF. apply HF. lia.
Qed.

Lemma nth_column (a : matrix) (c r : nat) :
  nth r (column a c) 0 = if decide (r < length a)%nat then entry a r c else 0.
Proof.
  unfold column, entry. rewrite nth_lookup, list_lookup_fmap.
  case_decide as Hr.
  - by rewrite (lookup_row_at _ _ Hr).
  - by rewrite lookup_ge_None_2 by lia.
Qed.

Lemma length_column (a : matrix) (c : nat) : length (column a c) = length a.
Proof. unfold column. by rewrite length_fmap. Qed.

Lemma in_nullspace_rows (a : matrix) (v : vector) :
  in_nullspace a v <-> forall r, (r < length a)%nat -> dot (row_at a r) v `mod` 2 = 0.
Proof. unfold in_nullspace. by rewrite Forall_rows. Qed.

(** The rows after the swap. *)
Lemma length_swap_rows (k i : nat) (a : matrix) :
  length (swap_rows k i a) = length a.
Proof. unfold swap_rows. by rewrite !length_insert. Qed.

Lemma row_at_swap_rows (k i : nat) (a : matrix) (r : nat) :
  (k < length a)%nat -> (i < length a)%nat ->
  row_at (swap_rows k i a) r =
  if decide (r = i) then row_at a k
  else if decide (r = k) then row_at a i else row_at a r.
Proof.
  intros Hk Hi. unfold swap_rows, row_at at 1. rewrite nth_lookup.
  destruct (decide (r = i)) as [->|Hri].
  - by rewrite list_lookup_insert_eq by (by rewrite length_insert).
  - rewrite list_lookup_insert_ne by done.
    destruct (decide (r = k)) as [->|Hrk].
    + by rewrite list_lookup_insert_eq.
    + rewrite list_lookup_insert_ne by done. by rewrite <- nth_lookup.
Qed.

(** The rows after the in-place XOR. *)
Lemma row_at_ixor_from (icol : nat) (a delta : matrix) (r : nat) :
  (r < length a)%nat -> length delta = length a ->
  row_at (ixor_from icol a delta) r
  = take icol (row_at a r) ++ zip_with Z.lxor (drop icol (row_at a r)) (row_at delta r).
Proof.
  intros Hr HL. apply row_at_lookup. unfold ixor_from.
  rewrite lookup_zip_with, (lookup_row_at a r) by done. simpl.
  rewrite (lookup_row_at delta r) by lia. done.
Qed.

Lemma row_at_outer (u v : vector) (r : nat) :
  (r < length u)%nat -> row_at (outer u v) r = (fun b => nth r u 0 * b) <$> v.
Proof.
  intros Hr. apply row_at_lookup. unfold outer.
  rewrite list_lookup_fmap. apply lookup_lt_is_Some in Hr as [x Hx].
  by rewrite (nth_lookup_Some _ _ _ _ Hx), Hx.
Qed.

Lemma fmap_mul_zero (v : vector) : (fun b => 0 * b) <$> v = replicate (length v) 0.
Proof. induction v as [|x v IH]; [done|]. rewrite fmap_cons, IH. done. Qed.

Lemma fmap_mul_one (v : vector) : (fun b => 1 * b) <$> v = v.
Proof.
  induction v as [|x v IH]; [done|]. rewrite fmap_cons, IH. f_equal. lia.
Qed.

Lemma nth_take (l : vector) (n j : nat) : (j < n)%nat -> nth j (take n l) 0 = nth j l 0.
Proof. intros H. by rewrite !nth_lookup, lookup_take_lt. Qed.

Lemma nth_drop (l : vector) (n j : nat) : nth j (drop n l) 0 = nth (n + j) l 0.
Proof. by rewrite !nth_lookup, lookup_drop. Qed.

Lemma dot_zeros_r (u : vector) (n : nat) : dot u (replicate n 0) = 0.
Proof.
  revert n; induction u as [|x u IH]; intros [|n]; try done.
  simpl replicate. rewrite dot_cons, IH. lia.
Qed.

Lemma column_binary (nrows ncols : nat) (a : matrix) (c : nat) :
  binary_shape nrows ncols a -> (c < ncols)%nat -> Forall binary (column a c).
Proof.
  intros Hs Hc. apply Forall_lookup. intros r x Hx.
  assert (r < length a)%nat as Hr.
  { apply lookup_lt_Some in Hx. by rewrite length_column in Hx. }
  apply nth_lookup_Some with (d := 0) in Hx. rewrite nth_column, decide_True in Hx by done.
  subst x. destruct Hs as [HL HF]. eapply entry_binary; [by split | lia | done].
Qed.

(** Split a row at column [i]. *)
Lemma row_split (row : vector) (i : nat) :
  (i < length row)%nat -> row = take i row ++ nth i row 0 :: drop (S i) row.
Proof.
  intros Hi. apply lookup_lt_is_Some in Hi as [x Hx].
  rewrite (nth_lookup_Some _ _ _ _ Hx), <- (drop_S _ _ _ Hx). by rewrite take_drop.
Qed.

(** The loop on a matrix of [nrows] rows and [ncols] columns. *)
Section FullColumnRank.

Variables nrows ncols : nat.

(** The product of a row with the candidate kernel vector built from
    column [i]: the column above the diagonal, a 1 on it, zeros below. *)
Lemma dot_candidate (i : nat) (a : matrix) (r : nat) :
  binary_shape nrows ncols a -> cleared i a ->
  (i <= nrows)%nat -> (i < ncols)%nat -> (r < nrows)%nat ->
  dot (row_at a r) (take i (column a i) ++ 1 :: replicate (ncols - S i) 0)
  = if decide (r < i)%nat then 2 * entry a r i else entry a r i.
Proof.
  intros Hs Hcl Hi Hc Hr.
  destruct (binary_shape_row _ _ _ r Hs Hr) as [Hlen _].
  destruct Hs as [HL HF].
  rewrite (row_split (row_at a r) i) at 1 by lia.
  rewrite dot_app by (rewrite !length_take, length_column; lia).
  rewrite dot_cons, dot_zeros_r.
  rewrite (dot_unit _ _ r).
  - rewrite length_take, length_column.
    fold (entry a r i).
    destruct (decide (r < i `min` length a)%nat), (decide (r < i)%nat); try lia.
    rewrite nth_take, nth_column, decide_True by lia. lia.
  - rewrite !length_take, length_column. lia.
  - intros j Hj. rewrite length_take, length_column in Hj.
    rewrite nth_take by lia. fold (entry a r j). rewrite Hcl by lia.
    decide_cases.
Qed.

Lemma pivot_exists (i : nat) (a : matrix) :
  reduction_inv nrows ncols i a -> (i <= nrows)%nat -> (i < ncols)%nat ->
  Exists (fun y => y = 1) (drop i (column a i)).
Proof.
  intros (Hs & Hrank & Hcl) Hi Hc.
  destruct (decide (Exists (fun y => y = 1) (drop i (column a i)))) as [|Hno]; [done|].
  exfalso. apply not_Exists_Forall in Hno; [|intros; apply _].
  pose (v := take i (column a i) ++ 1 :: replicate (ncols - S i) 0).
  assert (length (column a i) = nrows) as Hlc by (rewrite length_column; apply Hs).
  assert (length v = ncols) as Hlv.
  { unfold v. rewrite length_app, length_take, Hlc. simpl. rewrite length_replicate. lia. }
  assert (Forall binary v) as Hbv.
  { unfold v. apply Forall_app. split.
    - apply Forall_take. by eapply column_binary.
    - constructor; [by right | apply binary_replicate_zero]. }
  assert (in_nullspace a v) as Hnull.
  { apply in_nullspace_rows. intros r Hr.
    assert (r < nrows)%nat as Hr' by (destruct Hs; lia).
    unfold v. rewrite dot_candidate by done.
    destruct (decide (r < i)%nat) as [Hlt|Hge].
    - rewrite Z.mul_comm. apply Z.mod_mul. lia.
    - rewrite Forall_lookup in Hno.
      assert (drop i (column a i) !! (r - i)%nat = Some (entry a r i)) as Hx.
      { rewrite lookup_drop. replace (i + (r - i))%nat with r by lia.
        unfold column. rewrite list_lookup_fmap, (lookup_row_at a r) by done. done. }
      pose proof (Hno _ _ Hx) as Hne. simpl in Hne.
      destruct (entry_binary _ _ a r i Hs Hr' Hc) as [E | E]; [by rewrite E | done]. }
  pose proof (Hrank v Hlv Hbv Hnull) as Hv.
  assert (nth i v 0 = 1) as H1.
  { unfold v. replace i with (length (take i (column a i))) at 1
      by (rewrite length_take; lia). apply nth_middle. }
  rewrite Hv, nth_replicate_zero in H1. discriminate.
Qed.

Lemma swap_rows_inv (i k : nat) (a : matrix) :
  reduction_inv nrows ncols i a -> (i < nrows)%nat -> (i <= k < nrows)%nat ->
  reduction_inv nrows ncols i (swap_rows k i a).
Proof.
  intros (Hs & Hrank & Hcl) Hi Hk.
  pose proof Hs as [HL HF].
  assert (forall r, row_at (swap_rows k i a) r =
            if decide (r = i) then row_at a k
            else if decide (r = k) then row_at a i else row_at a r) as Hrow.
  { intros r. apply row_at_swap_rows; lia. }
  split; [|split].
  - split; [by rewrite length_swap_rows|].
    apply Forall_rows. intros r Hr. rewrite length_swap_rows in Hr. rewrite Hrow.
    rewrite Forall_rows in HF.
    repeat (destruct (decide _)); apply HF; lia.
  - intros v Hlv Hbv Hnull. apply Hrank; [done | done |].
    rewrite in_nullspace_rows in Hnull. rewrite length_swap_rows in Hnull.
    apply in_nullspace_rows. intros r Hr.
    destruct (decide (r = i)) as [->|Hri].
    + specialize (Hnull k ltac:(lia)). rewrite Hrow in Hnull.
      destruct (decide (k = i)) as [->|]; [done|]. by rewrite decide_True in Hnull.
    + destruct (decide (r = k)) as [->|Hrk].
      * specialize (Hnull i ltac:(lia)). rewrite Hrow in Hnull.
        by rewrite decide_True in Hnull.
      * specialize (Hnull r Hr). rewrite Hrow in Hnull.
        by rewrite !decide_False in Hnull.
  - intros r j Hr Hj. rewrite length_swap_rows in Hr. unfold entry. rewrite Hrow.
    destruct (decide (r = i)) as [->|Hri]; [|destruct (decide (r = k)) as [->|Hrk]].
    + fold (entry a k j). rewrite Hcl by lia. decide_cases.
    + fold (entry a i j). rewrite Hcl by lia. decide_cases.
    + by apply Hcl.
Qed.

(** The rows after the XOR step on a 0/1 matrix. *)
Lemma xor_step_row (i : nat) (a : matrix) (r : nat) :
  binary_shape nrows ncols a -> (i < nrows)%nat -> (i < ncols)%nat -> (r < nrows)%nat ->
  row_at (ixor_from i a (outer (<[i := 0]> (column a i)) (drop i (row_at a i)))) r
  = if decide (r = i \/ entry a r i = 0) then row_at a r
    else take i (row_at a r)
           ++ zip_with Z.lxor (drop i (row_at a r)) (drop i (row_at a i)).
Proof.
  intros Hs Hi Hc Hr. pose proof Hs as [HL HF].
  destruct (binary_shape_row _ _ _ r Hs Hr) as [Hlr _].
  destruct (binary_shape_row _ _ _ i Hs Hi) as [Hli _].
  rewrite row_at_ixor_from
    by (unfold outer; rewrite ?length_fmap, ?length_insert, ?length_column; lia).
  rewrite row_at_outer by (rewrite length_insert, length_column; lia).
  rewrite nth_insert by (rewrite length_column; lia).
  rewrite nth_column, (decide_True (P := (r < length a)%nat)) by lia.
  assert (take i (row_at a r)
            ++ zip_with Z.lxor (drop i (row_at a r))
                 ((fun b => 0 * b) <$> drop i (row_at a i)) = row_at a r) as Hzero.
  { rewrite fmap_mul_zero.
    replace (length (drop i (row_at a i))) with (length (drop i (row_at a r)))
      by (rewrite !length_drop; lia).
    by rewrite zip_with_lxor_zeros, take_drop. }
  destruct (decide (r = i)) as [->|Hri].
  - rewrite decide_True by (by left). exact Hzero.
  - destruct (entry_binary _ _ a r i Hs Hr Hc) as [E|E]; rewrite E.
    + rewrite decide_True by (by right). exact Hzero.
    + rewrite decide_False by (intros [?|?]; [done|discriminate]).
      by rewrite fmap_mul_one.
Qed.

Lemma xor_step_inv (i : nat) (a : matrix) :
  reduction_inv nrows ncols i a -> (i < nrows)%nat -> (i < ncols)%nat ->
  entry a i i = 1 ->
  reduction_inv nrows ncols (S i)
    (ixor_from i a (outer (<[i := 0]> (column a i)) (drop i (row_at a i)))).
Proof.
  intros (Hs & Hrank & Hcl) Hi Hc Hpiv.
  pose proof Hs as [HL HF].
  set (a' := ixor_from i a (outer (<[i := 0]> (column a i)) (drop i (row_at a i)))).
  assert (length a' = nrows) as HL'.
  { unfold a', ixor_from, outer.
    rewrite length_zip_with, !length_fmap, length_insert, length_column. lia. }
  assert (forall r, (r < nrows)%nat ->
            row_at a' r = if decide (r = i \/ entry a r i = 0) then row_at a r
                          else take i (row_at a r)
                                 ++ zip_with Z.lxor (drop i (row_at a r)) (drop i (row_at a i)))
    as Hrow.
  { intros r Hr. by apply xor_step_row. }
  destruct (binary_shape_row _ _ _ i Hs Hi) as [Hli Hbi].
  split; [|split].
  - split; [done|]. apply Forall_rows. intros r Hr. rewrite HL' in Hr.
    rewrite Hrow by done.
    destruct (binary_shape_row _ _ _ r Hs Hr) as [Hlr Hbr].
    destruct (decide _); [done|]. split.
    + rewrite length_app, length_take, length_zip_with, !length_drop. lia.
    + apply Forall_app. split; [by apply Forall_take|].
      apply zip_with_lxor_binary; by apply Forall_drop.
  - intros v Hlv Hbv Hnull. apply Hrank; [done | done |].
    rewrite in_nullspace_rows in Hnull. rewrite HL' in Hnull.
    apply in_nullspace_rows. rewrite HL. intros r Hr.
    pose proof (Hnull i Hi) as Hni. rewrite Hrow, decide_True in Hni by (done || by left).
    pose proof (Hnull r Hr) as Hnr. rewrite Hrow in Hnr by done.
    destruct (decide _) as [|Hx]; [done|].
    destruct (binary_shape_row _ _ _ r Hs Hr) as [Hlr Hbr].
    rewrite <- (take_drop i v) in Hnr, Hni |- *.
    rewrite dot_app in Hnr by (rewrite !length_take; lia).
    rewrite <- (take_drop i (row_at a r)) at 1.
    rewrite <- (take_drop i (row_at a i)) in Hni at 1.
    rewrite dot_app in Hni |- * by (rewrite !length_take; lia).
    rewrite (dot_unit (take i (row_at a i)) (take i v) i) in Hni.
    2:{ rewrite !length_take. lia. }
    2:{ intros j Hj. rewrite length_take in Hj. rewrite nth_take by lia.
        fold (entry a i j). rewrite Hcl by lia. decide_cases. }
    rewrite decide_False in Hni by (rewrite length_take; lia).
    pose proof (dot_lxor (drop i (row_at a r)) (drop i (row_at a i)) (drop i v)) as Hl.
    rewrite !length_drop in Hl.
    specialize (Hl ltac:(lia) ltac:(by apply Forall_drop) ltac:(by apply Forall_drop)).
    revert Hnr Hni Hl.
    generalize (dot (take i (row_at a r)) (take i v)).
    generalize (dot (drop i (row_at a r)) (drop i v)).
    generalize (dot (drop i (row_at a i)) (drop i v)).
    generalize (dot (zip_with Z.lxor (drop i (row_at a r)) (drop i (row_at a i))) (drop i v)).
    intros z1 z2 z3 z4 Hnr Hni Hl. Z.div_mod_to_equations. lia.
  - intros r j Hr Hj. rewrite HL' in Hr. unfold entry. rewrite Hrow by done.
    destruct (binary_shape_row _ _ _ r Hs Hr) as [Hlr Hbr].
    destruct (decide (r = i \/ entry a r i = 0)) as [Hsame|Hx].
    + fold (entry a r j). destruct (decide (j = i)) as [->|Hji].
      * destruct Hsame as [->|E]; [by rewrite decide_True | ].
        rewrite E. destruct (decide (r = i)) as [->|]; [congruence | done].
      * apply Hcl; lia.
    + assert (r ≠ i) as Hri by (intros ->; apply Hx; by left).
      assert (entry a r i = 1) as E.
      { destruct (entry_binary _ _ a r i Hs Hr Hc) as [E|E]; [|done].
        exfalso. apply Hx. by right. }
      destruct (decide (j = i)) as [->|Hji].
      * rewrite app_nth2 by (rewrite length_take; lia).
        rewrite length_take, Nat.min_l, Nat.sub_diag by lia.
        rewrite nth_zip_with_lxor by (rewrite !length_drop; lia).
        rewrite !nth_drop, Nat.add_0_r.
        fold (entry a r i) (entry a i i). rewrite E, Hpiv.
        by rewrite decide_False.
      * rewrite app_nth1 by (rewrite length_take; lia).
        rewrite nth_take by lia. fold (entry a r j). apply Hcl; lia.
Qed.

Lemma rref_step_inv (i : nat) (a : matrix) :
  reduction_inv nrows ncols i a -> (i < nrows)%nat -> (i < ncols)%nat ->
  reduction_inv nrows ncols (S i) (rref_step a (i, i)).
Proof.
  intros Hinv Hi Hc. pose proof Hinv as (Hs & Hrank & Hcl). pose proof Hs as [HL HF].
  unfold rref_step.
  destruct (argmax_binary (drop i (column a i))) as [Hlt Hone].
  { apply Forall_drop. by eapply column_binary. }
  { eapply pivot_exists; [exact Hinv | lia | done]. }
  rewrite length_drop, length_column in Hlt.
  set (k := (i + argmax (drop i (column a i)))%nat) in *.
  rewrite nth_drop in Hone. fold k in Hone.
  rewrite nth_column, decide_True in Hone by lia.
  apply xor_step_inv; [apply swap_rows_inv; [done | done | lia] | done | done |].
  unfold entry. rewrite row_at_swap_rows, decide_True by (lia || done). exact Hone.
Qed.

Lemma zip_seq_diag (s n m : nat) :
  zip (seq s n) (seq s m) = (fun i => (i, i)) <$> seq s (n `min` m).
Proof.
  revert s m; induction n as [|n IH]; intros s [|m]; try done.
  simpl. f_equal. apply IH.
Qed.

Lemma reduction_loop (a : matrix) (n : nat) :
  reduction_inv nrows ncols 0 a -> (n <= nrows)%nat -> (n <= ncols)%nat ->
  reduction_inv nrows ncols n (foldl rref_step a ((fun i => (i, i)) <$> seq 0 n)).
Proof.
  intros H0. induction n as [|n IH]; intros Hr Hc; [done|].
  rewrite seq_S, fmap_app, foldl_app. simpl.
  apply rref_step_inv; [apply IH; lia | lia | lia].
Qed.

Lemma reduction_inv_start (a : matrix) :
  binary_shape nrows ncols a -> full_column_rank ncols a -> reduction_inv nrows ncols 0 a.
Proof. intros Hs Hr. split; [done|]. split; [done|]. intros r j _ Hj. lia. Qed.

(** On a matrix of full column rank the loop finds a pivot at every
    diagonal position: there are at least as many rows as columns and the
    reduction has the unit columns. *)
Lemma reduced_row_echelon_full_rank (a : matrix) :
  binary_shape nrows ncols a -> full_column_rank ncols a -> (0 < ncols)%nat ->
  (ncols <= nrows)%nat /\ reduction_inv nrows ncols ncols (_reduced_row_echelon a).
Proof.
  intros Hs Hrank Hpos.
  pose proof (reduction_inv_start _ Hs Hrank) as H0.
  assert (0 < nrows)%nat as Hrows.
  { pose proof (pivot_exists 0 a H0 ltac:(lia) Hpos) as He.
    rewrite drop_0 in He. destruct Hs as [HL _].
    destruct a; [by apply Exists_nil in He | simpl in HL; lia]. }
  unfold _reduced_row_echelon.
  assert (shape a = (nrows, ncols)) as ->.
  { unfold shape. f_equal; [apply Hs|]. apply (shape_columns nrows ncols a Hs Hrows). }
  rewrite zip_seq_diag.
  pose proof (reduction_loop a (nrows `min` ncols) H0 ltac:(lia) ltac:(lia)) as Hn.
  assert (ncols <= nrows)%nat as Hle.
  { destruct (decide (ncols <= nrows)%nat) as [|Hlt]; [done|]. exfalso.
    rewrite Nat.min_l in Hn by lia.
    pose proof (pivot_exists nrows _ Hn ltac:(lia) ltac:(lia)) as He.
    rewrite drop_ge in He; [by apply Exists_nil in He|].
    rewrite length_column. destruct Hn as [[-> _] _]. done. }
  split; [done|]. rewrite Nat.min_r in Hn |- * by lia. done.
Qed.

End FullColumnRank.

Lemma filter_all {A} (P : A -> Prop) `{forall x, Decision (P x)} (l : list A) :
  Forall P l -> filter P l = l.
Proof.
  induction 1 as [|x l Hx _ IH]; [done|]. by rewrite filter_cons_True, IH.
Qed.

Lemma filter_none {A} (P : A -> Prop) `{forall x, Decision (P x)} (l : list A) :
  Forall (fun x => ~ P x) l -> filter P l = [].
Proof.
  induction 1 as [|x l Hx _ IH]; [done|]. by rewrite filter_cons_False, IH.
Qed.

Lemma index_of_first (x : Z) (l : vector) (r : nat) :
  (r < length l)%nat -> (forall j, (j < r)%nat -> nth j l 0 ≠ x) -> nth r l 0 = x ->
  index_of x l = r.
Proof.
  revert r; induction l as [|y l IH]; intros r Hr Hbefore Hat; [simpl in Hr; lia|].
  simpl. destruct r as [|r].
  - simpl in Hat. subst. by rewrite Z.eqb_refl.
  - pose proof (Hbefore 0%nat ltac:(lia)) as H0. simpl in H0.
    apply Z.eqb_neq in H0. rewrite H0. f_equal. apply IH.
    + simpl in Hr. lia.
    + intros j Hj. apply (Hbefore (S j)). lia.
    + done.
Qed.

Lemma pivot_of_unit (row : vector) (r : nat) :
  (r < length row)%nat -> (forall j, (j < r)%nat -> nth j row 0 = 0) -> nth r row 0 ≠ 0 ->
  pivot_of row = r.
Proof.
  intros Hr Hbefore Hat. unfold pivot_of.
  set (ind := (fun x : Z => if x =? 0 then 0 else 1) <$> row).
  assert (forall j, (j < length row)%nat ->
            nth j ind 0 = if nth j row 0 =? 0 then 0 else 1) as Hind.
  { intros j Hj. unfold ind. rewrite !nth_lookup, list_lookup_fmap.
    apply lookup_lt_is_Some in Hj as [x ->]. done. }
  assert (Forall binary ind) as Hbin.
  { unfold ind. apply Forall_fmap, Forall_forall. intros x _. simpl.
    destruct (x =? 0); [by left | by right]. }
  assert (length ind = length row) as Hlen by (unfold ind; by rewrite length_fmap).
  assert (nth r ind 0 = 1) as Hone.
  { rewrite Hind by done. apply Z.eqb_neq in Hat. by rewrite Hat. }
  assert (Exists (fun y => y = 1) ind) as Hex.
  { apply Exists_exists. exists 1. split; [|done].
    rewrite <- Hone. apply list_elem_of_lookup. exists r.
    rewrite <- Hlen in Hr. apply lookup_lt_is_Some in Hr as [x Hx].
    by rewrite (nth_lookup_Some _ _ _ _ Hx). }
  destruct ind as [|x ind'] eqn:E; [by apply Exists_nil in Hex|].
  unfold argmax. apply Forall_cons in Hbin as [Hx Hrest].
  destruct (foldl_max_binary x ind' Hx Hrest) as [_ Hiff].
  assert (foldl Z.max x ind' = 1) as -> by (apply Hiff; by apply Exists_cons in Hex).
  apply index_of_first; [lia | | done].
  intros j Hj. rewrite Hind by lia. rewrite Hbefore by done. done.
Qed.

Lemma kernel_no_free_columns (row0 : vector) (rest : matrix) :
  length row0 ≠ 0%nat ->
  setdiff1d_range (length row0) (pivot_of <$> row0 :: rest) = [] ->
  _kernel (row0 :: rest) = Ok [].
Proof.
  intros Hlen Hfree. unfold _kernel.
  apply Nat.eqb_neq in Hlen. rewrite Hlen. cbv zeta. rewrite Hfree. reflexivity.
Qed.

(** The reduction of a matrix of full column rank, stripped, has no free
    column: its kernel is empty. *)
Lemma kernel_full_rank (nrows ncols : nat) (a : matrix) :
  binary_shape nrows ncols a -> full_column_rank ncols a -> (0 < ncols)%nat ->
  _kernel (strip_zero_rows (_reduced_row_echelon a)) = Ok [].
Proof.
  intros Hs Hrank Hpos.
  destruct (reduced_row_echelon_full_rank _ _ _ Hs Hrank Hpos) as (Hle & Hs' & _ & Hcl).
  set (b := _reduced_row_echelon a) in *. pose proof Hs' as [HL HF].
  assert (forall r, (r < ncols)%nat ->
            length (row_at b r) = ncols /\ nth r (row_at b r) 0 = 1 /\
            forall j, (j < r)%nat -> nth j (row_at b r) 0 = 0) as Hunit.
  { intros r Hr. destruct (binary_shape_row _ _ _ r Hs' ltac:(lia)) as [Hlr _].
    split; [done|]. split.
    - fold (entry b r r). rewrite Hcl by lia. by rewrite decide_True.
    - intros j Hj. fold (entry b r j). rewrite Hcl by lia. by rewrite decide_False by lia. }
  assert (strip_zero_rows b = take ncols b) as ->.
  { unfold strip_zero_rows. rewrite <- (take_drop ncols b) at 1.
    rewrite filter_app, filter_all, filter_none; [by rewrite app_nil_r | |].
    - apply Forall_lookup. intros r row Hrow. rewrite lookup_drop in Hrow.
      apply not_false_iff_true, all_zero_spec, Forall_lookup. intros j x Hx.
      assert (ncols + r < nrows)%nat as Hr by (apply lookup_lt_Some in Hrow; lia).
      destruct (binary_shape_row _ _ _ _ Hs' Hr) as [Hlr _].
      rewrite (row_at_lookup _ _ _ Hrow) in Hlr.
      assert (j < ncols)%nat as Hj by (apply lookup_lt_Some in Hx; lia).
      pose proof (Hcl (ncols + r)%nat j ltac:(lia) Hj) as He.
      unfold entry in He. rewrite (row_at_lookup _ _ _ Hrow), (nth_lookup_Some _ _ _ _ Hx) in He.
      by rewrite decide_False in He by lia.
    - apply Forall_lookup. intros r row Hrow.
      apply lookup_take_Some in Hrow as [Hrow Hr].
      destruct (Hunit r Hr) as (Hlr & Hone & _).
      rewrite (row_at_lookup _ _ _ Hrow) in Hlr, Hone.
      destruct (all_zero row) eqn:E; [|done]. exfalso.
      apply all_zero_spec in E. rewrite Forall_lookup in E.
      rewrite <- Hlr in Hr. apply lookup_lt_is_Some in Hr as [x Hx].
      rewrite (nth_lookup_Some _ _ _ _ Hx) in Hone. subst x.
      by specialize (E _ _ Hx). }
  assert (pivot_of <$> take ncols b = seq 0 ncols) as Hpiv.
  { apply list_eq. intros r. rewrite list_lookup_fmap.
    destruct (decide (r < ncols)%nat) as [Hr|Hr].
    - rewrite lookup_take_lt, (lookup_row_at b r), lookup_seq_lt by lia. simpl.
      destruct (Hunit r Hr) as (Hlr & Hone & Hzero).
      f_equal. apply pivot_of_unit; [lia | done | by rewrite Hone].
    - by rewrite lookup_take_ge, lookup_seq_ge by lia. }
  destruct (take ncols b) as [|row0 rest] eqn:E.
  { apply (f_equal length) in E. rewrite length_take in E. simpl in E. lia. }
  assert (length row0 = ncols) as Hl0.
  { destruct (Hunit 0%nat Hpos) as (Hlr & _).
    assert (b !! 0%nat = Some row0) as H0.
    { rewrite <- (lookup_take_lt b ncols 0) by lia. by rewrite E. }
    by rewrite (row_at_lookup _ _ _ H0) in Hlr. }
  apply kernel_no_free_columns; [lia|].
  rewrite Hpiv, Hl0. unfold setdiff1d_range. apply filter_none.
  apply Forall_forall. intros c Hc Hnot. done.
Qed.

(** C8: for a Hamiltonian on at least one qubit whose binary
    matrix has full column rank 2N, [_kernel] returns an empty basis on
    the stripped reduction, [generate_taus] and [generate_paulis] return
    empty lists on it, and the pipeline returns no generator and no
    Pauli-X, without raising. *)
Theorem full_rank_no_symmetries (qubit_op : Hamiltonian) (num_qubits : nat) (a : matrix) :
  (0 < num_qubits)%nat ->
  _binary_matrix (ops qubit_op) num_qubits = Ok a ->
  full_column_rank (2 * num_qubits) a ->
  _kernel (strip_zero_rows (_reduced_row_echelon a)) = Ok [] /\
  generate_taus [] num_qubits = Ok [] /\
  generate_paulis [] num_qubits = Ok [] /\
  generate_symmetries qubit_op num_qubits = Ok ([], []).
Proof.
  intros Hpos Ha Hrank.
  pose proof (binary_matrix_shape _ _ _ Ha) as Hs.
  pose proof (kernel_full_rank _ _ _ Hs Hrank ltac:(lia)) as Hk.
  split; [done|]. split; [reflexivity|]. split; [reflexivity|].
  unfold generate_symmetries. rewrite Ha, bind_Ok. cbv zeta. rewrite Hk. reflexivity.
Qed.

Lemma full_column_rank_x0_z0 : full_column_rank (2 * 1) [[0; 1]; [1; 0]].
Proof.
  intros v Hv Hb Hnull.
  destruct v as [|x [|y [|? ?]]]; try discriminate.
  apply Forall_cons in Hb as [Hx Hb]. apply Forall_cons in Hb as [Hy _].
  apply Forall_cons in Hnull as [H1 Hnull]. apply Forall_cons in Hnull as [H2 _].
  destruct Hx as [-> | ->], Hy as [-> | ->]; try done;
    try discriminate H1; discriminate H2.
Qed.

Lemma full_rank_no_symmetries_x0_z0 :
  _kernel (strip_zero_rows (_reduced_row_echelon [[0; 1]; [1; 0]])) = Ok [] /\
  generate_taus [] 1 = Ok [] /\
  generate_paulis [] 1 = Ok [] /\
  generate_symmetries (MkHamiltonian [1%Q; 1%Q] [PauliX 0; PauliZ 0]) 1 = Ok ([], []).
Proof.
  apply (full_rank_no_symmetries (MkHamiltonian [1%Q; 1%Q] [PauliX 0; PauliZ 0]) 1
           [[0; 1]; [1; 0]]).
  - lia.
  - reflexivity.
  - exact full_column_rank_x0_z0.
Defined.

(** * Further properties of the module *)

(** ** [_binary_matrix]: shape, bits and bounds *)

(** X1: when [_binary_matrix] returns, the matrix has one row per term,
    of length [2 * num_qubits] with entries 0 and 1, and the row of a term
    is the encoding of that term alone, whatever the other terms are. *)
Theorem binary_matrix_rows_are_encodings (terms : list term) (num_qubits : nat) (a : matrix) :
  _binary_matrix terms num_qubits = Ok a ->
  binary_shape (length terms) (2 * num_qubits) a /\
  forall r t, terms !! r = Some t -> encoding num_qubits t = Ok (row_at a r).
Proof.
  intros H. split; [by apply binary_matrix_shape|].
  intros r t Ht. rewrite encoding_encode_term. by eapply binary_matrix_row.
Qed.

Lemma binary_matrix_rows_are_encodings_scenario :
  binary_shape (length [tZ0X1; tZ0Y2; tX0Y3]) (2 * 4)
    [[1; 0; 0; 0; 0; 1; 0; 0]; [1; 0; 1; 0; 0; 0; 1; 0]; [0; 0; 0; 1; 1; 0; 0; 1]] /\
  forall r t, [tZ0X1; tZ0Y2; tX0Y3] !! r = Some t ->
    encoding 4 t
    = Ok (row_at [[1; 0; 0; 0; 0; 1; 0; 0]; [1; 0; 1; 0; 0; 0; 1; 0]; [0; 0; 0; 1; 1; 0; 0; 1]] r).
Proof.
  apply (binary_matrix_rows_are_encodings [tZ0X1; tZ0Y2; tX0Y3] 4). reflexivity.
Defined.

Lemma setitem_result (row : vector) (j x : Z) :
  match setitem row j x with
  | Ok row' => - Z.of_nat (length row) <= j < Z.of_nat (length row) /\ length row' = length row
  | Raise e => e = IndexError /\ ~ (- Z.of_nat (length row) <= j < Z.of_nat (length row))
  end.
Proof.
  unfold setitem.
  destruct (Z.leb_spec 0 j), (Z.ltb_spec j (Z.of_nat (length row))); simpl;
    try (rewrite length_insert; lia);
    destruct (Z.leb_spec (- Z.of_nat (length row)) j), (Z.ltb_spec j 0); simpl;
    try (rewrite length_insert; lia); split; (done || lia).
Qed.





(** X3: the bounds are those of the row, not of the register: for a wire
    [w] with N <= w < 2N an X on [w] raises [IndexError], but a Z on [w] is
    accepted and gets the encoding of an X on qubit [w - N]. *)
Theorem encoding_beyond_register (num_qubits : nat) (w : Z) :
  Z.of_nat num_qubits <= w < Z.of_nat (2 * num_qubits) ->
  encoding num_qubits (PauliX w) = Raise IndexError /\
  encoding num_qubits (PauliZ w) = Ok (<[Z.to_nat w := 1]> (replicate (2 * num_qubits) 0)) /\
  encoding num_qubits (PauliZ w) = encoding num_qubits (PauliX (w - Z.of_nat num_qubits)).
Proof.
  intros Hw. rewrite !encoding_encode_term.
  unfold encode_term, PauliX, PauliZ, ops_of.
  cbn [wires name length Nat.eqb zip zip_with for_each mark].
  replace (op_in (NStr "PauliX") ["PauliX"; "PauliY"]) with true by reflexivity.
  replace (op_in (NStr "PauliX") ["PauliZ"; "PauliY"]) with false by reflexivity.
  replace (op_in (NStr "PauliZ") ["PauliX"; "PauliY"]) with false by reflexivity.
  replace (op_in (NStr "PauliZ") ["PauliZ"; "PauliY"]) with true by reflexivity.
  rewrite !bind_Ok.
  rewrite (setitem_in_range _ w) by (rewrite length_replicate; lia).
  rewrite (setitem_in_range _ (w - Z.of_nat num_qubits + Z.of_nat num_qubits))
    by (rewrite length_replicate; lia).
  rewrite !bind_Ok.
  split; [|split; [done | do 2 f_equal; lia]].
  pose proof (setitem_result (replicate (2 * num_qubits) 0) (w + Z.of_nat num_qubits) 1) as H.
  rewrite length_replicate in H.
  destruct (setitem _ _ _) as [row|e]; [lia|]. by destruct H as [-> _].
Qed.

Lemma encoding_beyond_register_example :
  encoding 2 (PauliX 2) = Raise IndexError /\
  encoding 2 (PauliZ 2) = Ok (<[Z.to_nat 2 := 1]> (replicate (2 * 2) 0)) /\
  encoding 2 (PauliZ 2) = encoding 2 (PauliX (2 - Z.of_nat 2)).
Proof. apply (encoding_beyond_register 2 2). lia. Defined.

(** ** [generate_paulis]: the qubits it picks *)

Lemma NoDup_omap_inj {A B} (f : A -> option B) (l : list A) :
  NoDup l ->
  (forall x y z, x ∈ l -> y ∈ l -> f x = Some z -> f y = Some z -> x = y) ->
  NoDup (omap f l).
Proof.
  induction 1 as [|x l Hx Hl IH]; intros Hinj; [constructor|].
  rewrite omap_cons_eq.
  assert (NoDup (omap f l)) as Hrest.
  { apply IH. intros a b z Ha Hb. apply Hinj; by right. }
  destruct (f x) as [z|] eqn:E; [|done].
  constructor; [|done]. intros Hin.
  apply list_elem_of_omap in Hin as (y & Hy & Hfy).
  apply Hx. rewrite (Hinj x y z); [done | by left | by right | done | done].
Qed.

Lemma PauliX_inj (c c' : nat) : PauliX (Z.of_nat c) = PauliX (Z.of_nat c') -> c = c'.
Proof. unfold PauliX. intros [= H]. lia. Qed.

(** X4: the operators [generate_paulis] returns are Pauli-X on qubits of
    the register, and no qubit is returned twice. *)
Theorem generate_paulis_distinct_qubits
    (generators : list Hamiltonian) (num_qubits : nat) (sx : list term) :
  generate_paulis generators num_qubits = Ok sx ->
  NoDup sx /\
  Forall (fun s => exists col, (col < num_qubits)%nat /\ s = PauliX (Z.of_nat col)) sx.
Proof.
  intros H. destruct (generate_paulis_inv _ _ _ H) as (ts & bmat & Hts & Hb & HL & Hs & ->).
  split.
  - apply NoDup_omap_inj; [apply NoDup_seq|].
    intros i j s Hi Hj Hsi Hsj. apply elem_of_seq in Hi, Hj.
    destruct (sigma_of_Some num_qubits _ bmat i s Hs) as (c & Hc & -> & Hq); [lia|done|].
    destruct (sigma_of_Some num_qubits _ bmat j (PauliX (Z.of_nat c)) Hs)
      as (c' & Hc' & Heq & Hq'); [lia|done|].
    apply PauliX_inj in Heq. subst c'.
    destruct (decide (i = j)) as [|Hne]; [done|]. exfalso.
    apply qualifies_spec in Hq as [Hown _]. apply qualifies_spec in Hq' as [_ Hothers].
    apply Hown, Hothers; lia.
  - apply Forall_forall. intros s Hin.
    apply list_elem_of_omap in Hin as (j & Hj & Hsig). apply elem_of_seq in Hj.
    destruct (sigma_of_Some num_qubits _ bmat j s Hs) as (c & Hc & -> & _); [lia|done|].
    by exists c.
Qed.

Lemma generate_paulis_distinct_qubits_scenario :
  NoDup [PauliX 0; PauliX 1; PauliX 2; PauliX 3] /\
  Forall (fun s => exists col, (col < 4)%nat /\ s = PauliX (Z.of_nat col))
    [PauliX 0; PauliX 1; PauliX 2; PauliX 3].
Proof.
  apply (generate_paulis_distinct_qubits scenario_generators 4). reflexivity.
Defined.

(** X5: every operator [generate_paulis] returns anticommutes with exactly
    one generator of the list and commutes with all the others, whether
    or not every generator got an operator. *)
Theorem generate_paulis_one_partner
    (generators : list Hamiltonian) (num_qubits : nat) (sx : list term) :
  generate_paulis generators num_qubits = Ok sx ->
  forall s, s ∈ sx ->
    exists j, (j < length generators)%nat /\
      forall k g, generators !! k = Some g ->
        exists es eg, encoding num_qubits s = Ok es /\
          generator_encoding num_qubits g = Ok eg /\
          symplectic num_qubits es eg = if decide (k = j) then 1 else 0.
Proof.
  intros H s Hin.
  destruct (generate_paulis_inv _ _ _ H) as (ts & bmat & Hts & Hb & HL & Hs & ->).
  apply list_elem_of_omap in Hin as (j & Hj & Hsig). apply elem_of_seq in Hj.
  destruct (sigma_of_Some num_qubits _ bmat j s Hs) as (col & Hc & -> & Hq); [lia|done|].
  apply qualifies_spec in Hq as [Hown Hothers].
  exists j. split; [lia|]. intros k g Hk.
  assert (k < length bmat)%nat as Hklt by (apply lookup_lt_Some in Hk; lia).
  destruct (map_res_lookup _ _ _ _ _ Hts Hk) as (t & Ht & Hfirst).
  pose proof (binary_matrix_row _ _ _ _ _ Hb Ht) as Hrow.
  exists (<[(num_qubits + col)%nat := 1]> (replicate (2 * num_qubits) 0)), (row_at bmat k).
  split; [|split].
  - rewrite encoding_encode_term. by apply encode_term_PauliX.
  - unfold generator_encoding. rewrite Hfirst, bind_Ok. by rewrite encoding_encode_term.
  - rewrite symplectic_sigma by done. fold (entry bmat k col).
    assert (binary (entry bmat k col)) as Hbin.
    { eapply entry_binary; [exact Hs | lia | lia]. }
    case_decide as Hkj.
    + subst k. destruct Hbin as [E|E]; [done | by rewrite E].
    + by rewrite Hothers by (try lia; done).
Qed.

Lemma generate_paulis_one_partner_scenario :
  generate_paulis scenario_generators 4 = Ok [PauliX 0; PauliX 1; PauliX 2; PauliX 3] /\
  forall s, s ∈ [PauliX 0; PauliX 1; PauliX 2; PauliX 3] ->
    exists j, (j < length scenario_generators)%nat /\
      forall k g, scenario_generators !! k = Some g ->
        exists es eg, encoding 4 s = Ok es /\
          generator_encoding 4 g = Ok eg /\
          symplectic 4 es eg = if decide (k = j) then 1 else 0.
Proof.
  split; [reflexivity|].
  apply (generate_paulis_one_partner scenario_generators 4). reflexivity.
Defined.

(** ** [_reduced_row_echelon]: what every run keeps *)

Lemma foldl_max_elem (x : Z) (l : vector) : foldl Z.max x l ∈ x :: l.
Proof.
  revert x; induction l as [|y l IH]; intros x; [by left|].
  cbn [foldl]. specialize (IH (Z.max x y)).
  apply elem_of_cons in IH as [->|IH].
  - destruct (Z.max_spec x y) as [[_ ->]|[_ ->]]; [right; by left | by left].
  - right. by right.
Qed.

Lemma argmax_lt (l : vector) : l ≠ [] -> (argmax l < length l)%nat.
Proof.
  destruct l as [|x l]; [done|]. intros _. unfold argmax.
  apply index_of_found, Exists_exists. exists (foldl Z.max x l).
  split; [apply foldl_max_elem | done].
Qed.

Section RowOperations.

Variables nrows ncols : nat.

Lemma swap_rows_shape (i k : nat) (a : matrix) :
  binary_shape nrows ncols a -> (i < nrows)%nat -> (k < nrows)%nat ->
  binary_shape nrows ncols (swap_rows k i a).
Proof.
  intros [HL HF] Hi Hk. split; [by rewrite length_swap_rows|].
  apply Forall_rows. intros r Hr. rewrite length_swap_rows in Hr.
  rewrite row_at_swap_rows by lia. rewrite Forall_rows in HF.
  repeat (destruct (decide _)); apply HF; lia.
Qed.

Lemma swap_rows_nullspace (i k : nat) (a : matrix) (v : vector) :
  length a = nrows -> (i < nrows)%nat -> (k < nrows)%nat ->
  in_nullspace (swap_rows k i a) v <-> in_nullspace a v.
Proof.
  intros HL Hi Hk. rewrite !in_nullspace_rows, length_swap_rows.
  assert (forall r, row_at (swap_rows k i a) r =
            if decide (r = i) then row_at a k
            else if decide (r = k) then row_at a i else row_at a r) as Hrow.
  { intros r. apply row_at_swap_rows; lia. }
  split; intros H r Hr.
  - destruct (decide (r = i)) as [->|Hri].
    + specialize (H k ltac:(lia)). rewrite Hrow in H.
      destruct (decide (k = i)) as [->|]; [done|]. by rewrite decide_True in H.
    + destruct (decide (r = k)) as [->|Hrk].
      * specialize (H i ltac:(lia)). rewrite Hrow in H. by rewrite decide_True in H.
      * specialize (H r Hr). rewrite Hrow in H. by rewrite !decide_False in H.
  - rewrite Hrow. repeat (destruct (decide _)); apply H; lia.
Qed.

Lemma swap_rows_lower (i k : nat) (a : matrix) :
  length a = nrows -> lower_left_zero i a -> (i <= k < nrows)%nat ->
  lower_left_zero i (swap_rows k i a).
Proof.
  intros HL Hlow Hk r j Hr Hj. rewrite length_swap_rows in Hr.
  unfold entry. rewrite row_at_swap_rows by lia.
  destruct (decide (r = i)) as [->|Hri]; [|destruct (decide (r = k)) as [->|Hrk]].
  - fold (entry a k j). apply Hlow; lia.
  - fold (entry a i j). apply Hlow; lia.
  - apply Hlow; lia.
Qed.

Lemma xor_step_length (i : nat) (a : matrix) :
  length a = nrows ->
  length (ixor_from i a (outer (<[i := 0]> (column a i)) (drop i (row_at a i)))) = nrows.
Proof.
  intros HL. unfold ixor_from, outer.
  rewrite length_zip_with, !length_fmap, length_insert, length_column. lia.
Qed.

Lemma xor_step_shape (i : nat) (a : matrix) :
  binary_shape nrows ncols a -> (i < nrows)%nat -> (i < ncols)%nat ->
  binary_shape nrows ncols
    (ixor_from i a (outer (<[i := 0]> (column a i)) (drop i (row_at a i)))).
Proof.
  intros Hs Hi Hc. pose proof Hs as [HL HF].
  split; [by apply xor_step_length|].
  apply Forall_rows. intros r Hr. rewrite xor_step_length in Hr by done.
  rewrite (xor_step_row nrows ncols) by done.
  destruct (binary_shape_row _ _ _ r Hs Hr) as [Hlr Hbr].
  destruct (binary_shape_row _ _ _ i Hs Hi) as [Hli Hbi].
  destruct (decide _); [done|]. split.
  - rewrite length_app, length_take, length_zip_with, !length_drop. lia.
  - apply Forall_app. split; [by apply Forall_take|].
    apply zip_with_lxor_binary; by apply Forall_drop.
Qed.

Lemma xor_step_nullspace (i : nat) (a : matrix) (v : vector) :
  binary_shape nrows ncols a -> lower_left_zero i a ->
  (i < nrows)%nat -> (i < ncols)%nat -> length v = ncols ->
  in_nullspace (ixor_from i a (outer (<[i := 0]> (column a i)) (drop i (row_at a i)))) v
  <-> in_nullspace a v.
Proof.
  intros Hs Hlow Hi Hc Hlv. pose proof Hs as [HL HF].
  rewrite !in_nullspace_rows, xor_step_length, HL by done.
  destruct (binary_shape_row _ _ _ i Hs Hi) as [Hli Hbi].
  assert (forall r, (r < nrows)%nat -> ~ (r = i \/ entry a r i = 0) ->
            (dot (take i (row_at a r)
                    ++ zip_with Z.lxor (drop i (row_at a r)) (drop i (row_at a i))) v) `mod` 2
            = (dot (row_at a r) v + dot (row_at a i) v) `mod` 2) as Hxor.
  { intros r Hr _.
    destruct (binary_shape_row _ _ _ r Hs Hr) as [Hlr Hbr].
    rewrite <- (take_drop i v).
    rewrite <- (take_drop i (row_at a r)) at 3.
    rewrite <- (take_drop i (row_at a i)) at 2.
    rewrite !dot_app by (rewrite !length_take; lia).
    rewrite (dot_unit (take i (row_at a i)) (take i v) i).
    2:{ rewrite !length_take. lia. }
    2:{ intros j Hj. rewrite length_take in Hj. rewrite nth_take by lia.
        fold (entry a i j). rewrite Hlow by lia. by rewrite decide_False by lia. }
    rewrite decide_False by (rewrite length_take; lia).
    pose proof (dot_lxor (drop i (row_at a r)) (drop i (row_at a i)) (drop i v)) as Hl.
    rewrite !length_drop in Hl.
    specialize (Hl ltac:(lia) ltac:(by apply Forall_drop) ltac:(by apply Forall_drop)).
    revert Hl.
    generalize (dot (take i (row_at a r)) (take i v)).
    generalize (dot (drop i (row_at a r)) (drop i v)).
    generalize (dot (drop i (row_at a i)) (drop i v)).
    generalize (dot (zip_with Z.lxor (drop i (row_at a r)) (drop i (row_at a i))) (drop i v)).
    intros z1 z2 z3 z4 Hl. Z.div_mod_to_equations. lia. }
  split; intros H r Hr.
  - pose proof (H i Hi) as Hni.
    rewrite (xor_step_row nrows ncols), decide_True in Hni by (done || by left).
    pose proof (H r Hr) as Hnr. rewrite (xor_step_row nrows ncols) in Hnr by done.
    destruct (decide _) as [|Hx]; [done|].
    rewrite Hxor in Hnr by done. revert Hnr Hni.
    generalize (dot (row_at a r) v). generalize (dot (row_at a i) v).
    intros z1 z2 Hnr Hni. Z.div_mod_to_equations. lia.
  - rewrite (xor_step_row nrows ncols) by done.
    destruct (decide _) as [|Hx]; [by apply H|].
    rewrite Hxor by done. pose proof (H r Hr) as Hnr. pose proof (H i Hi) as Hni.
    revert Hnr Hni.
    generalize (dot (row_at a r) v). generalize (dot (row_at a i) v).
    intros z1 z2 Hnr Hni. Z.div_mod_to_equations. lia.
Qed.

Lemma xor_step_lower (i : nat) (a : matrix) :
  binary_shape nrows ncols a -> lower_left_zero i a ->
  (i < nrows)%nat -> (i < ncols)%nat ->
  (forall r, (i < r < nrows)%nat -> entry a r i = 1 -> entry a i i = 1) ->
  lower_left_zero (S i)
    (ixor_from i a (outer (<[i := 0]> (column a i)) (drop i (row_at a i)))).
Proof.
  intros Hs Hlow Hi Hc Hpiv r j Hr Hj. pose proof Hs as [HL HF].
  rewrite xor_step_length in Hr by done.
  unfold entry. rewrite (xor_step_row nrows ncols) by (done || lia).
  destruct (binary_shape_row _ _ _ r Hs ltac:(lia)) as [Hlr Hbr].
  destruct (binary_shape_row _ _ _ i Hs Hi) as [Hli Hbi].
  destruct (decide (r = i \/ entry a r i = 0)) as [[->|E]|Hx]; [lia | |].
  - fold (entry a r j). destruct (decide (j = i)) as [->|]; [done|]. apply Hlow; lia.
  - assert (entry a r i = 1) as E.
    { destruct (entry_binary _ _ a r i Hs ltac:(lia) Hc) as [E|E]; [|done].
      exfalso. apply Hx. by right. }
    destruct (decide (j = i)) as [->|Hji].
    + rewrite app_nth2 by (rewrite length_take; lia).
      rewrite length_take, Nat.min_l, Nat.sub_diag by lia.
      rewrite nth_zip_with_lxor by (rewrite !length_drop; lia).
      rewrite !nth_drop, Nat.add_0_r.
      fold (entry a r i) (entry a i i). rewrite E, (Hpiv r) by (lia || done). done.
    + rewrite app_nth1 by (rewrite length_take; lia).
      rewrite nth_take by lia. fold (entry a r j). apply Hlow; lia.
Qed.

(** One iteration keeps the shape, the bits, the zero block below the
    diagonal and the nullspace. *)
Lemma rref_step_keeps (i : nat) (a : matrix) :
  binary_shape nrows ncols a -> lower_left_zero i a ->
  (i < nrows)%nat -> (i < ncols)%nat ->
  binary_shape nrows ncols (rref_step a (i, i)) /\
  lower_left_zero (S i) (rref_step a (i, i)) /\
  forall v, length v = ncols ->
    (in_nullspace (rref_step a (i, i)) v <-> in_nullspace a v).
Proof.
  intros Hs Hlow Hi Hc. pose proof Hs as [HL HF]. unfold rref_step.
  assert (argmax (drop i (column a i)) < nrows - i)%nat as Hlt.
  { pose proof (argmax_lt (drop i (column a i))) as H.
    rewrite length_drop, length_column, HL in H. apply H.
    intros E. apply (f_equal length) in E.
    rewrite length_drop, length_column in E. simpl in E. lia. }
  set (k := (i + argmax (drop i (column a i)))%nat) in *.
  pose proof (swap_rows_shape i k a Hs Hi ltac:(lia)) as Hs1.
  pose proof (swap_rows_lower i k a HL Hlow ltac:(lia)) as Hlow1.
  split; [by apply xor_step_shape|]. split.
  - apply xor_step_lower; [done | done | done | done |].
    intros r Hr E.
    assert (Exists (fun y => y = 1) (drop i (column a i))) as Hex.
    { unfold entry in E. rewrite row_at_swap_rows in E by lia.
      rewrite decide_False in E by lia.
      apply Exists_exists. exists 1. split; [|done].
      apply list_elem_of_lookup.
      destruct (decide (r = k)) as [->|Hrk].
      - exists 0%nat. rewrite lookup_drop, Nat.add_0_r.
        unfold column. rewrite list_lookup_fmap, (lookup_row_at a i) by lia.
        simpl. by rewrite E.
      - exists (r - i)%nat. rewrite lookup_drop.
        replace (i + (r - i))%nat with r by lia.
        unfold column. rewrite list_lookup_fmap, (lookup_row_at a r) by lia.
        simpl. by rewrite E. }
    destruct (argmax_binary (drop i (column a i))) as [_ Hone]; [|done|].
    { apply Forall_drop. by eapply column_binary. }
    rewrite nth_drop in Hone. fold k in Hone.
    rewrite nth_column, decide_True in Hone by lia.
    unfold entry. rewrite row_at_swap_rows, decide_True by (lia || done). exact Hone.
  - intros v Hlv. rewrite xor_step_nullspace by done.
    apply swap_rows_nullspace; (done || lia).
Qed.

Lemma reduction_loop_keeps (a : matrix) (n : nat) :
  binary_shape nrows ncols a -> (n <= nrows)%nat -> (n <= ncols)%nat ->
  binary_shape nrows ncols (foldl rref_step a ((fun i => (i, i)) <$> seq 0 n)) /\
  lower_left_zero n (foldl rref_step a ((fun i => (i, i)) <$> seq 0 n)) /\
  forall v, length v = ncols ->
    (in_nullspace (foldl rref_step a ((fun i => (i, i)) <$> seq 0 n)) v <-> in_nullspace a v).
Proof.
  intros Hs. induction n as [|n IH]; intros Hr Hc.
  - simpl. split; [done|]. split; [intros r j _ Hj; lia | done].
  - rewrite seq_S, fmap_app, foldl_app. simpl.
    destruct IH as (Hs' & Hlow' & Hnull'); [lia | lia |].
    destruct (rref_step_keeps n _ Hs' Hlow') as (Hs2 & Hlow2 & Hnull2); [lia | lia |].
    split; [done|]. split; [done|]. intros v Hlv. by rewrite Hnull2, Hnull'.
Qed.

Lemma reduced_row_echelon_unfold (a : matrix) :
  binary_shape nrows ncols a ->
  _reduced_row_echelon a = a \/
  ((0 < nrows)%nat /\
   _reduced_row_echelon a
   = foldl rref_step a ((fun i => (i, i)) <$> seq 0 (nrows `min` ncols))).
Proof.
  intros Hs. unfold _reduced_row_echelon.
  destruct a as [|row a'] eqn:E; [by left|]. right.
  assert (0 < nrows)%nat as Hpos by (destruct Hs as [<- _]; simpl; lia).
  split; [done|]. rewrite <- E in *.
  assert (shape a = (nrows, ncols)) as ->.
  { unfold shape. f_equal; [apply Hs|]. apply (shape_columns nrows ncols a Hs Hpos). }
  by rewrite zip_seq_diag.
Qed.

End RowOperations.

(** X6: on every 0/1 matrix [_reduced_row_echelon] returns a 0/1 matrix
    of the same shape with the same right nullspace: whatever it does to
    the rows, it does by row operations over GF(2). *)
Theorem reduced_row_echelon_keeps_nullspace (nrows ncols : nat) (a : matrix) :
  binary_shape nrows ncols a ->
  binary_shape nrows ncols (_reduced_row_echelon a) /\
  forall v, length v = ncols ->
    (in_nullspace (_reduced_row_echelon a) v <-> in_nullspace a v).
Proof.
  intros Hs.
  destruct (reduced_row_echelon_unfold nrows ncols a Hs) as [->|[_ ->]]; [done|].
  destruct (reduction_loop_keeps nrows ncols a (nrows `min` ncols) Hs) as (H1 & _ & H2);
    [lia | lia | done].
Qed.

Lemma y0_x0x1_binary_shape : binary_shape 2 4 y0_x0x1.
Proof.
  split; [done|]. repeat constructor; (by left) || (by right).
Qed.

Lemma reduced_row_echelon_keeps_nullspace_y0_x0x1 :
  binary_shape 2 4 (_reduced_row_echelon y0_x0x1) /\
  forall v, length v = 4%nat ->
    (in_nullspace (_reduced_row_echelon y0_x0x1) v <-> in_nullspace y0_x0x1 v).
Proof.
  apply (reduced_row_echelon_keeps_nullspace 2 4 y0_x0x1). exact y0_x0x1_binary_shape.
Defined.

(** ** [_reduced_row_echelon] on matrices of full column rank *)

Lemma matrix_ext (nrows ncols : nat) (a b : matrix) :
  binary_shape nrows ncols a -> binary_shape nrows ncols b ->
  (forall r c, (r < nrows)%nat -> (c < ncols)%nat -> entry a r c = entry b r c) ->
  a = b.
Proof.
  intros Ha Hb Heq. pose proof Ha as [HLa _]. pose proof Hb as [HLb _].
  apply (list_eq_same_length _ _ nrows); [done | done |].
  intros r x y Hr Hx Hy.
  destruct (binary_shape_row _ _ _ r Ha Hr) as [Hlx _].
  destruct (binary_shape_row _ _ _ r Hb Hr) as [Hly _].
  specialize (Heq r). unfold entry, row_at in *.
  rewrite (nth_lookup_Some _ _ _ _ Hx) in Heq, Hlx.
  rewrite (nth_lookup_Some _ _ _ _ Hy) in Heq, Hly.
  apply (list_eq_same_length _ _ ncols); [done | done |].
  intros c u v Hc Hu Hv. specialize (Heq c Hr Hc).
  by rewrite (nth_lookup_Some _ _ _ _ Hu), (nth_lookup_Some _ _ _ _ Hv) in Heq.
Qed.

Lemma leading_Some (a : matrix) (r c : nat) :
  leading (row_at a r) = Some c ->
  (r < length a)%nat /\ (c < length (row_at a r))%nat /\ entry a r c ≠ 0.
Proof.
  unfold leading. intros H. apply fmap_Some in H as ([c' x] & Hf & ->).
  apply list_find_Some in Hf as (Hx & Hnz & _). simpl.
  assert (r < length a)%nat.
  { destruct (decide (r < length a)%nat); [done|]. exfalso.
    unfold row_at in Hx. rewrite nth_overflow in Hx by lia. done. }
  split; [done|]. split; [by apply lookup_lt_Some in Hx|].
  unfold entry. by rewrite (nth_lookup_Some _ _ _ _ Hx).
Qed.

Lemma leading_unit_row (nrows ncols : nat) (a : matrix) (r c : nat) :
  binary_shape nrows ncols a -> cleared ncols a ->
  leading (row_at a r) = Some c -> c = r /\ (r < nrows)%nat /\ (c < ncols)%nat.
Proof.
  intros Hs Hcl H. apply leading_Some in H as (Hr & Hc & Hnz).
  pose proof Hs as [HL _]. rewrite HL in Hr.
  destruct (binary_shape_row _ _ _ r Hs Hr) as [Hlr _]. rewrite Hlr in Hc.
  rewrite Hcl in Hnz by lia. by destruct (decide (r = c)) as [->|].
Qed.

(** X7: on a 0/1 matrix of full column rank (with at least one column)
    the diagonal walk of [_reduced_row_echelon] is enough: there are at
    least as many rows as columns, the result has the unit columns (entry
    [(r, c)] is 1 exactly on the diagonal), and it is in reduced row
    echelon form. *)
Theorem reduced_row_echelon_full_rank_reduced (nrows ncols : nat) (a : matrix) :
  binary_shape nrows ncols a -> full_column_rank ncols a -> (0 < ncols)%nat ->
  (ncols <= nrows)%nat /\
  (forall r c, (r < nrows)%nat -> (c < ncols)%nat ->
     entry (_reduced_row_echelon a) r c = if decide (r = c) then 1 else 0) /\
  echelon (_reduced_row_echelon a) /\ reduced (_reduced_row_echelon a).
Proof.
  intros Hs Hrank Hpos.
  destruct (reduced_row_echelon_full_rank _ _ _ Hs Hrank Hpos) as (Hle & Hs' & _ & Hcl).
  pose proof Hs' as [HL _].
  split; [done|]. split; [|split].
  - intros r c Hr Hc. apply Hcl; [by rewrite HL | done].
  - intros r1 r2 c1 c2 Hlt H1 H2.
    apply (leading_unit_row _ _ _ _ _ Hs' Hcl) in H1 as (-> & _ & _).
    by apply (leading_unit_row _ _ _ _ _ Hs' Hcl) in H2 as (-> & _ & _).
  - intros r c r' Hlead Hr' Hne.
    apply (leading_unit_row _ _ _ _ _ Hs' Hcl) in Hlead as (-> & _ & Hc).
    rewrite Hcl by done. by rewrite decide_False.
Qed.

Lemma x0_z0_binary_shape : binary_shape 2 2 [[0; 1]; [1; 0]].
Proof.
  split; [done|]. repeat constructor; (by left) || (by right).
Qed.

Lemma reduced_row_echelon_full_rank_reduced_x0_z0 :
  (2 <= 2)%nat /\
  (forall r c, (r < 2)%nat -> (c < 2)%nat ->
     entry (_reduced_row_echelon [[0; 1]; [1; 0]]) r c = if decide (r = c) then 1 else 0) /\
  echelon (_reduced_row_echelon [[0; 1]; [1; 0]]) /\
  reduced (_reduced_row_echelon [[0; 1]; [1; 0]]).
Proof.
  apply (reduced_row_echelon_full_rank_reduced 2 2 [[0; 1]; [1; 0]]).
  - exact x0_z0_binary_shape.
  - exact full_column_rank_x0_z0.
  - lia.
Defined.

(** X8: on a 0/1 matrix of full column rank (with at least one column)
    [_reduced_row_echelon] is idempotent: reducing its result again
    changes nothing. *)
Theorem reduced_row_echelon_full_rank_idempotent (nrows ncols : nat) (a : matrix) :
  binary_shape nrows ncols a -> full_column_rank ncols a -> (0 < ncols)%nat ->
  _reduced_row_echelon (_reduced_row_echelon a) = _reduced_row_echelon a.
Proof.
  intros Hs Hrank Hpos.
  destruct (reduced_row_echelon_full_rank _ _ _ Hs Hrank Hpos) as (Hle & Hs1 & Hrank1 & Hcl1).
  destruct (reduced_row_echelon_full_rank _ _ _ Hs1 Hrank1 Hpos) as (_ & Hs2 & _ & Hcl2).
  apply (matrix_ext nrows ncols); [done | done |].
  intros r c Hr Hc.
  rewrite Hcl1, Hcl2; [done | | done | | done].
  - by rewrite (proj1 Hs2).
  - by rewrite (proj1 Hs1).
Qed.

Lemma reduced_row_echelon_full_rank_idempotent_x0_z0 :
  _reduced_row_echelon (_reduced_row_echelon [[0; 1]; [1; 0]])
  = _reduced_row_echelon [[0; 1]; [1; 0]].
Proof.
  apply (reduced_row_echelon_full_rank_idempotent 2 2 [[0; 1]; [1; 0]]).
  - exact x0_z0_binary_shape.
  - exact full_column_rank_x0_z0.
  - lia.
Defined.

(** ** [_kernel] *)

Lemma row_at_insert (a : matrix) (i x : nat) (row : vector) :
  (i < length a)%nat ->
  row_at (<[i := row]> a) x = if decide (x = i) then row else row_at a x.
Proof.
  intros Hi. unfold row_at. rewrite !nth_lookup. case_decide as Hx.
  - subst. by rewrite list_lookup_insert_eq.
  - by rewrite list_lookup_insert_ne.
Qed.

Lemma row_at_zeros (r c x : nat) : (x < r)%nat -> row_at (zeros r c) x = replicate c 0.
Proof.
  intros Hx. apply row_at_lookup. unfold zeros. by apply lookup_replicate_2.
Qed.

Lemma pivot_of_lt (row : vector) : row ≠ [] -> (pivot_of row < length row)%nat.
Proof.
  intros Hne. unfold pivot_of.
  rewrite <- (length_fmap (fun x : Z => if x =? 0 then 0 else 1) row).
  apply argmax_lt. by destruct row.
Qed.

Lemma neg_mod_binary (e : Z) : binary ((- e) `mod` 2).
Proof. unfold binary. Z.div_mod_to_equations. lia. Qed.

Lemma neg_mod_of_binary (e : Z) : binary e -> (- e) `mod` 2 = e.
Proof. by intros [-> | ->]. Qed.

(** The first assignment of [_kernel]: [null_vector[nonpivots, arange(k)] = 1]. *)
Lemma kernel_free_ones (ncols k : nat) (cs : list nat) :
  Forall (fun c => (c < ncols)%nat) cs -> (length cs <= k)%nat ->
  length (foldl (fun (nv : matrix) '(j, c) => <[c := <[j := 1]> (row_at nv c)]> nv)
                (zeros ncols k) (imap pair cs)) = ncols /\
  forall x, (x < ncols)%nat ->
    length (row_at (foldl (fun (nv : matrix) '(j, c) => <[c := <[j := 1]> (row_at nv c)]> nv)
                          (zeros ncols k) (imap pair cs)) x) = k /\
    forall j, (j < k)%nat ->
      entry (foldl (fun (nv : matrix) '(j, c) => <[c := <[j := 1]> (row_at nv c)]> nv)
                   (zeros ncols k) (imap pair cs)) x j
      = if decide (cs !! j = Some x) then 1 else 0.
Proof.
  induction cs as [|c cs IH] using rev_ind; intros Hcs Hlen.
  - cbn [imap foldl]. split; [unfold zeros; by rewrite length_replicate|]. intros x Hx.
    unfold entry. rewrite row_at_zeros by done. split; [by rewrite length_replicate|].
    intros j Hj. by rewrite nth_replicate_zero.
  - apply Forall_app in Hcs as [Hcs Hc]. apply Forall_cons in Hc as [Hc _].
    rewrite length_app in Hlen. simpl in Hlen.
    rewrite imap_app, foldl_app. cbn [imap foldl]. rewrite Nat.add_0_r.
    destruct IH as [HL Hrows]; [done | lia |].
    set (nv := foldl _ (zeros ncols k) (imap pair cs)) in *.
    split; [by rewrite length_insert|]. intros x Hx.
    unfold entry. rewrite row_at_insert by lia.
    destruct (Hrows x Hx) as [Hlx Hex]. destruct (Hrows c Hc) as [Hlc Hec].
    destruct (decide (x = c)) as [->|Hne].
    + split; [by rewrite length_insert|]. intros j Hj.
      rewrite nth_insert by lia. fold (entry nv c j). rewrite Hec by done.
      destruct (decide (j = length cs)) as [->|Hjl].
      * by rewrite lookup_app_r, Nat.sub_diag, decide_True by (done || lia).
      * destruct (decide (j < length cs)%nat) as [Hlt|Hge].
        -- by rewrite lookup_app_l by done.
        -- rewrite (lookup_ge_None_2 cs j) by lia.
           rewrite lookup_app_r by lia.
           rewrite (lookup_ge_None_2 [c]) by (simpl; lia). done.
    + split; [done|]. intros j Hj. fold (entry nv x j). rewrite Hex by done.
      destruct (decide (j < length cs)%nat) as [Hlt|Hge].
      * by rewrite lookup_app_l by done.
      * rewrite (lookup_ge_None_2 cs j) by lia. rewrite lookup_app_r by lia.
        destruct (decide (j = length cs)) as [->|Hjl].
        -- rewrite Nat.sub_diag. simpl. by rewrite !decide_False by congruence.
        -- rewrite (lookup_ge_None_2 [c]) by (simpl; lia). done.
Qed.

(** The second assignment of [_kernel] keeps what holds of every row. *)
Lemma kernel_pivot_rows_Forall (P : vector -> Prop) (f : nat -> vector)
    (l : list (nat * nat)) (nv : matrix) :
  Forall P nv -> (forall i, P (f i)) ->
  length (foldl (fun (nv : matrix) '(i, p) => <[p := f i]> nv) nv l) = length nv /\
  Forall P (foldl (fun (nv : matrix) '(i, p) => <[p := f i]> nv) nv l).
Proof.
  revert nv; induction l as [|[i p] l IH]; intros nv Hnv Hf; [done|].
  cbn [foldl]. destruct (IH (<[p := f i]> nv)) as [HL HF]; [by apply Forall_insert | done |].
  rewrite length_insert in HL. done.
Qed.

(** The second assignment of [_kernel] when no two rows share a pivot. *)
Lemma kernel_pivot_rows (f : nat -> vector) (ps : list nat) (nv : matrix) :
  NoDup ps -> Forall (fun p => (p < length nv)%nat) ps ->
  length (foldl (fun (nv : matrix) '(i, p) => <[p := f i]> nv) nv (imap pair ps)) = length nv /\
  forall x,
    (x ∉ ps ->
     row_at (foldl (fun (nv : matrix) '(i, p) => <[p := f i]> nv) nv (imap pair ps)) x
     = row_at nv x) /\
    (forall i, ps !! i = Some x ->
     row_at (foldl (fun (nv : matrix) '(i, p) => <[p := f i]> nv) nv (imap pair ps)) x = f i).
Proof.
  induction ps as [|p ps IH] using rev_ind; intros Hnd Hps.
  - simpl. split; [done|]. intros x. split; [done|]. intros i Hi. done.
  - apply NoDup_app in Hnd as (Hnd & Hdisj & _).
    apply Forall_app in Hps as [Hps Hp]. apply Forall_cons in Hp as [Hp _].
    rewrite imap_app, foldl_app. cbn [imap foldl]. rewrite Nat.add_0_r.
    destruct (IH Hnd Hps) as [HL Hrows].
    set (nv' := foldl _ nv (imap pair ps)) in *.
    split; [by rewrite length_insert|]. intros x.
    rewrite row_at_insert by lia. destruct (Hrows x) as [Hout Hin]. split.
    + intros Hx. rewrite decide_False.
      * apply Hout. intros Hx'. apply Hx. apply elem_of_app. by left.
      * intros ->. apply Hx. apply elem_of_app. right. by left.
    + intros i Hi. destruct (decide (i < length ps)%nat) as [Hlt|Hge].
      * rewrite lookup_app_l in Hi by done.
        rewrite decide_False; [by apply Hin|].
        intros ->. apply (Hdisj p); [by eapply list_elem_of_lookup_2 | by left].
      * rewrite lookup_app_r in Hi by lia.
        destruct (i - length ps)%nat as [|n] eqn:E; [|done].
        simpl in Hi. injection Hi as ->. rewrite decide_True by done.
        f_equal. lia.
Qed.

Lemma row_at_transpose (k : nat) (a : matrix) (j : nat) :
  (j < k)%nat -> row_at (transpose k a) j = column a j.
Proof.
  intros Hj. apply row_at_lookup. unfold transpose.
  by rewrite list_lookup_fmap, lookup_seq_lt.
Qed.

Lemma length_transpose (k : nat) (a : matrix) : length (transpose k a) = k.
Proof. unfold transpose. by rewrite length_fmap, length_seq. Qed.

Lemma setdiff1d_range_spec (n : nat) (b : list nat) (c : nat) :
  c ∈ setdiff1d_range n b <-> (c < n)%nat /\ c ∉ b.
Proof.
  unfold setdiff1d_range. rewrite list_elem_of_filter, elem_of_seq. intuition lia.
Qed.

Lemma setdiff1d_range_NoDup (n : nat) (b : list nat) : NoDup (setdiff1d_range n b).
Proof. apply NoDup_filter, NoDup_seq. Qed.

Lemma setdiff1d_range_length (n : nat) (b : list nat) :
  (length (setdiff1d_range n b) + length (filter (fun c => c ∈ b) (seq 0 n)) = n)%nat.
Proof.
  pose proof (filter_app_complement (fun c => c ∈ b) (seq 0 n)) as H.
  apply Permutation_length in H. rewrite length_app, length_seq in H.
  unfold setdiff1d_range. lia.
Qed.

Lemma setdiff1d_range_bounds (n : nat) (b : list nat) (p : nat) :
  p ∈ b -> (p < n)%nat ->
  (n - length b <= length (setdiff1d_range n b) <= n - 1)%nat.
Proof.
  intros Hp Hlt. pose proof (setdiff1d_range_length n b) as Hsum.
  assert (length (filter (fun c => c ∈ b) (seq 0 n)) <= length b)%nat.
  { apply submseteq_length, NoDup_submseteq; [apply NoDup_filter, NoDup_seq|].
    intros x Hx. by apply list_elem_of_filter in Hx as [Hx _]. }
  assert (0 < length (filter (fun c => c ∈ b) (seq 0 n)))%nat.
  { assert (p ∈ filter (fun c => c ∈ b) (seq 0 n)) as Hin.
    { apply list_elem_of_filter. split; [done|]. apply elem_of_seq. lia. }
    destruct (filter _ _); [by apply elem_of_nil in Hin | simpl; lia]. }
  lia.
Qed.

(** What [_kernel] returns on a rectangular 0/1 matrix with rows and
    columns. *)
Lemma kernel_shape_gen (nrows ncols : nat) (a : matrix) :
  binary_shape nrows ncols a -> (0 < nrows)%nat -> (0 < ncols)%nat ->
  exists ns, _kernel a = Ok ns /\
    binary_shape (length (setdiff1d_range ncols (pivot_of <$> a))) ncols ns.
Proof.
  intros Hs Hr Hc. pose proof Hs as [HL HF].
  destruct a as [|row0 rest]; [simpl in HL; lia|].
  assert (length row0 = ncols) as Hl0.
  { by destruct (binary_shape_row _ _ _ 0%nat Hs Hr) as [H0 _]. }
  unfold _kernel. cbv zeta. rewrite Hl0.
  destruct (Nat.eqb_spec ncols 0) as [|_]; [lia|].
  set (a := row0 :: rest) in *.
  eexists. split; [reflexivity|].
  set (free := setdiff1d_range ncols (pivot_of <$> a)).
  set (k := length free).
  assert (Forall (fun c => (c < ncols)%nat) free) as Hfree.
  { apply Forall_forall. intros c Hcin. by apply setdiff1d_range_spec in Hcin as [? _]. }
  destruct (kernel_free_ones ncols k free Hfree ltac:(done)) as [HL1 Hrows1].
  set (nv1 := foldl _ (zeros ncols k) (imap pair free)) in *.
  assert (Forall (fun row : vector => length row = k /\ Forall binary row) nv1) as HF1.
  { apply Forall_rows. intros x Hx. rewrite HL1 in Hx.
    destruct (Hrows1 x Hx) as [Hlx Hex]. split; [done|].
    apply Forall_lookup. intros j y Hy.
    assert (j < k)%nat as Hj by (apply lookup_lt_Some in Hy; lia).
    specialize (Hex j Hj). unfold entry in Hex.
    rewrite (nth_lookup_Some _ _ _ _ Hy) in Hex. rewrite Hex.
    destruct (decide _); [by right | by left]. }
  destruct (kernel_pivot_rows_Forall
              (fun row : vector => length row = k /\ Forall binary row)
              (fun i => (fun c => (- entry a i c) `mod` 2) <$> free)
              (imap pair (pivot_of <$> a)) nv1 HF1) as [HL2 HF2].
  { intros i. split; [by rewrite length_fmap|].
    apply Forall_fmap, Forall_forall. intros c _. apply neg_mod_binary. }
  cbv beta in HL2, HF2.
  set (nv2 := foldl _ nv1 (imap pair (pivot_of <$> a))) in *.
  split; [apply length_transpose|].
  apply Forall_rows. intros j Hj. rewrite length_transpose in Hj.
  rewrite row_at_transpose by done. split.
  - rewrite length_column. lia.
  - unfold column. apply Forall_fmap. eapply Forall_impl; [exact HF2|].
    intros row [Hlr Hbr]. cbn.
    rewrite Forall_lookup in Hbr. apply (Hbr j).
    destruct (nth_lookup_or_length row j 0) as [H|H]; [done | lia].
Qed.

(** X9: on a rectangular 0/1 matrix [_kernel] returns exactly when there is
    a row and a column.  It then returns 0/1 vectors as long as a row, at
    least (columns - rows) of them and never as many as there are
    columns: one column always counts as a pivot, even for the zero
    matrix. *)
Theorem kernel_shape (nrows ncols : nat) (a : matrix) :
  binary_shape nrows ncols a ->
  match _kernel a with
  | Ok ns =>
      (0 < nrows)%nat /\ (0 < ncols)%nat /\ Forall (fun v => length v = ncols /\ Forall binary v) ns /\
      (ncols - nrows <= length ns <= ncols - 1)%nat
  | Raise _ => nrows = 0%nat \/ ncols = 0%nat
  end.
Proof.
  intros Hs. pose proof Hs as [HL HF].
  destruct (decide (nrows = 0%nat)) as [->|Hr].
  { destruct a; [by left | discriminate]. }
  destruct (decide (ncols = 0%nat)) as [->|Hc].
  { destruct a as [|row0 rest]; [by left|].
    apply Forall_cons in HF as [[Hl0 _] _]. unfold _kernel. rewrite Hl0. by right. }
  destruct (kernel_shape_gen nrows ncols a Hs ltac:(lia) ltac:(lia)) as (ns & -> & Hns & HFns).
  split; [lia|]. split; [lia|]. split; [done|]. rewrite Hns.
  destruct (binary_shape_row _ _ _ 0%nat Hs ltac:(lia)) as [Hl0 _].
  pose proof (setdiff1d_range_bounds ncols (pivot_of <$> a) (pivot_of (row_at a 0))) as Hb.
  rewrite length_fmap, HL in Hb. apply Hb.
  - apply list_elem_of_fmap. exists (row_at a 0). split; [done|].
    apply (list_elem_of_lookup_2 _ 0%nat). apply lookup_row_at. lia.
  - rewrite <- Hl0. apply pivot_of_lt. intros E. rewrite E in Hl0. simpl in Hl0. lia.
Qed.

Lemma kernel_shape_y0_x0x1 :
  match _kernel y0_x0x1 with
  | Ok ns =>
      (0 < 2)%nat /\ (0 < 4)%nat /\ Forall (fun v => length v = 4%nat /\ Forall binary v) ns /\
      (4 - 2 <= length ns <= 4 - 1)%nat
  | Raise _ => 2%nat = 0%nat \/ 4%nat = 0%nat
  end.
Proof.
  apply (kernel_shape 2 4 y0_x0x1). exact y0_x0x1_binary_shape.
Defined.

Lemma kernel_unfold (nrows ncols : nat) (a : matrix) :
  binary_shape nrows ncols a -> (0 < nrows)%nat -> (0 < ncols)%nat ->
  _kernel a
  = Ok (transpose (length (setdiff1d_range ncols (pivot_of <$> a)))
          (foldl (fun (nv : matrix) '(i, p) =>
                    <[p := (fun c => (- entry a i c) `mod` 2)
                             <$> setdiff1d_range ncols (pivot_of <$> a)]> nv)
             (foldl (fun (nv : matrix) '(j, c) => <[c := <[j := 1]> (row_at nv c)]> nv)
                (zeros ncols (length (setdiff1d_range ncols (pivot_of <$> a))))
                (imap pair (setdiff1d_range ncols (pivot_of <$> a))))
             (imap pair (pivot_of <$> a)))).
Proof.
  intros Hs Hr Hc. pose proof Hs as [HL HF].
  destruct a as [|row0 rest]; [simpl in HL; lia|].
  assert (length row0 = ncols) as Hl0.
  { by destruct (binary_shape_row _ _ _ 0%nat Hs Hr) as [H0 _]. }
  unfold _kernel. cbv zeta. rewrite Hl0.
  destruct (Nat.eqb_spec ncols 0) as [|_]; [lia|]. reflexivity.
Qed.

Lemma pivots_lookup (a : matrix) (i p : nat) :
  (pivot_of <$> a) !! i = Some p <-> (i < length a)%nat /\ p = pivot_of (row_at a i).
Proof.
  rewrite list_lookup_fmap. split.
  - intros H. apply fmap_Some in H as (row & Hrow & ->).
    split; [by eapply lookup_lt_Some | by rewrite (row_at_lookup _ _ _ Hrow)].
  - intros [Hi ->]. by rewrite (lookup_row_at _ _ Hi).
Qed.

Lemma unit_pivots_lt (nrows ncols : nat) (a : matrix) (i : nat) :
  binary_shape nrows ncols a -> unit_pivots a -> (i < nrows)%nat ->
  (pivot_of (row_at a i) < ncols)%nat.
Proof.
  intros Hs Hu Hi. pose proof Hs as [HL _].
  destruct (binary_shape_row _ _ _ i Hs Hi) as [Hli _].
  specialize (Hu i i ltac:(lia) ltac:(lia)). rewrite decide_True in Hu by done.
  destruct (decide (pivot_of (row_at a i) < ncols)%nat); [done|].
  unfold entry in Hu. rewrite nth_overflow in Hu by lia. done.
Qed.

Lemma unit_pivots_NoDup (a : matrix) : unit_pivots a -> NoDup (pivot_of <$> a).
Proof.
  intros Hu. apply NoDup_alt. intros i i' p Hi Hi'.
  apply pivots_lookup in Hi as [Hi ->]. apply pivots_lookup in Hi' as [Hi' Heq].
  pose proof (Hu i i Hi Hi) as H1. rewrite decide_True in H1 by done.
  pose proof (Hu i i' Hi Hi') as H2. rewrite <- Heq, H1 in H2.
  by destruct (decide (i = i')).
Qed.

(** The kernel vectors on a matrix with unit pivot columns: vector [j]
    belongs to the [j]-th free column [c]; it holds bit [(i, c)] of the
    matrix at the pivot column of row [i], 1 at column [c] and 0 at the
    other free columns. *)
Lemma kernel_entries (nrows ncols : nat) (a : matrix) :
  binary_shape nrows ncols a -> (0 < nrows)%nat -> unit_pivots a ->
  exists ns, _kernel a = Ok ns /\
    length (setdiff1d_range ncols (pivot_of <$> a)) = (ncols - nrows)%nat /\
    binary_shape (ncols - nrows) ncols ns /\
    forall j c, setdiff1d_range ncols (pivot_of <$> a) !! j = Some c ->
      (forall i, (i < nrows)%nat -> entry ns j (pivot_of (row_at a i)) = entry a i c) /\
      (forall x, (x < ncols)%nat -> x ∉ pivot_of <$> a ->
         entry ns j x = if decide (x = c) then 1 else 0).
Proof.
  intros Hs Hr Hu. pose proof Hs as [HL HF].
  pose proof (unit_pivots_lt _ _ _ 0%nat Hs Hu Hr) as Hc0.
  assert (0 < ncols)%nat as Hc by lia.
  destruct (kernel_shape_gen _ _ _ Hs Hr Hc) as (ns & Hk & Hshape).
  exists ns. split; [done|].
  rewrite (kernel_unfold _ _ _ Hs Hr Hc) in Hk. injection Hk as Hk.
  set (free := setdiff1d_range ncols (pivot_of <$> a)) in *.
  set (k := length free) in *.
  assert (Forall (fun c => (c < ncols)%nat) free) as Hfree.
  { apply Forall_forall. intros c Hcin. by apply setdiff1d_range_spec in Hcin as [? _]. }
  destruct (kernel_free_ones ncols k free Hfree ltac:(done)) as [HL1 Hrows1].
  set (nv1 := foldl _ (zeros ncols k) (imap pair free)) in *.
  pose proof (unit_pivots_NoDup a Hu) as Hnd.
  assert (Forall (fun p => (p < length nv1)%nat) (pivot_of <$> a)) as Hps.
  { apply Forall_lookup. intros i p Hp. apply pivots_lookup in Hp as [Hi ->].
    rewrite HL1. apply (unit_pivots_lt nrows ncols); (done || lia). }
  destruct (kernel_pivot_rows
              (fun i => (fun c => (- entry a i c) `mod` 2) <$> free)
              (pivot_of <$> a) nv1 Hnd Hps) as [HL2 Hrows2].
  cbv beta in HL2, Hrows2.
  set (nv2 := foldl _ nv1 (imap pair (pivot_of <$> a))) in *.
  assert (k = (ncols - nrows)%nat) as Hkval.
  { pose proof (setdiff1d_range_length ncols (pivot_of <$> a)) as Hsum. fold free k in Hsum.
    assert (filter (fun c => c ∈ pivot_of <$> a) (seq 0 ncols) ≡ₚ pivot_of <$> a) as Hperm.
    { apply NoDup_Permutation; [apply NoDup_filter, NoDup_seq | done |].
      intros x. rewrite list_elem_of_filter, elem_of_seq. split; [by intros [? _]|].
      intros Hx. split; [done|]. split; [lia|].
      apply list_elem_of_lookup in Hx as [i Hi]. apply pivots_lookup in Hi as [Hi ->].
      simpl. apply (unit_pivots_lt nrows ncols); (done || lia). }
    apply Permutation_length in Hperm. rewrite length_fmap, HL in Hperm. lia. }
  split; [done|]. rewrite <- Hkval. split; [done|].
  intros j c Hj.
  assert (j < k)%nat as Hjk by (by apply lookup_lt_Some in Hj).
  assert (c < ncols)%nat as Hcc.
  { apply list_elem_of_lookup_2, setdiff1d_range_spec in Hj. tauto. }
  assert (forall x, (x < ncols)%nat -> entry ns j x = entry nv2 x j) as Hent.
  { intros x Hx. rewrite <- Hk. unfold entry at 1.
    rewrite row_at_transpose, nth_column, decide_True by (done || lia). done. }
  split.
  - intros i Hi. rewrite Hent by (by apply (unit_pivots_lt nrows ncols a)).
    unfold entry at 1.
    destruct (Hrows2 (pivot_of (row_at a i))) as [_ Hin].
    rewrite (Hin i) by (apply pivots_lookup; split; [lia | done]).
    rewrite (nth_lookup_Some _ _ _ ((- entry a i c) `mod` 2))
      by (by rewrite list_lookup_fmap, Hj).
    apply neg_mod_of_binary. by apply (entry_binary nrows ncols).
  - intros x Hx Hnp. rewrite Hent by done. unfold entry.
    destruct (Hrows2 x) as [Hout _]. rewrite Hout by done.
    destruct (Hrows1 x Hx) as [_ Hex]. fold (entry nv1 x j). rewrite Hex, Hj by done.
    destruct (decide (x = c)) as [->|Hne].
    + by rewrite decide_True.
    + rewrite decide_False; [done | congruence].
Qed.

Lemma sum_snoc (f : nat -> Z) (n : nat) :
  foldr Z.add 0 (f <$> seq 0 (S n)) = foldr Z.add 0 (f <$> seq 0 n) + f n.
Proof.
  rewrite seq_S, fmap_app, foldr_app. simpl.
  generalize (f <$> seq 0 n). intros l.
  induction l as [|x l IH]; simpl; lia.
Qed.

Lemma sum_two (f : nat -> Z) (n p c : nat) :
  (p < n)%nat -> (c < n)%nat -> p ≠ c ->
  (forall x, (x < n)%nat -> x ≠ p -> x ≠ c -> f x = 0) ->
  foldr Z.add 0 (f <$> seq 0 n) = f p + f c.
Proof.
  induction n as [|n IH]; intros Hp Hc Hne Hf; [lia|].
  rewrite sum_snoc.
  destruct (decide (p = n)) as [->|Hpn]; [|destruct (decide (c = n)) as [->|Hcn]].
  - rewrite (sum_single f n c) by (lia || (intros; apply Hf; lia)). lia.
  - rewrite (sum_single f n p) by (lia || (intros; apply Hf; lia)). lia.
  - rewrite IH by (lia || (intros; apply Hf; lia)).
    rewrite (Hf n) by lia. lia.
Qed.

Lemma dot_sum (u v : vector) (n : nat) :
  length u = n -> length v = n ->
  dot u v = foldr Z.add 0 ((fun x => nth x u 0 * nth x v 0) <$> seq 0 n).
Proof.
  revert v n; induction u as [|a u IH]; intros [|b v] [|n] Hu Hv; try discriminate; [done|].
  rewrite dot_cons. simpl seq. rewrite fmap_cons. cbn [foldr nth].
  rewrite <- fmap_S_seq, <- list_fmap_compose.
  rewrite (IH v n) by (simpl in *; lia). done.
Qed.

Lemma sum_filter (g : nat -> Z) (P : nat -> Prop) `{forall x, Decision (P x)} (l : list nat) :
  foldr Z.add 0 (g <$> l)
  = foldr Z.add 0 (g <$> filter P l) + foldr Z.add 0 (g <$> filter (fun x => ~ P x) l).
Proof.
  induction l as [|x l IH]; [done|].
  rewrite fmap_cons. cbn [foldr]. rewrite IH.
  destruct (decide (P x)) as [Hx|Hx].
  - rewrite (filter_cons_True P) by done.
    rewrite (filter_cons_False (fun x => ~ P x)) by tauto.
    rewrite fmap_cons. cbn [foldr]. lia.
  - rewrite (filter_cons_False P) by done.
    rewrite (filter_cons_True (fun x => ~ P x)) by done.
    rewrite fmap_cons. cbn [foldr]. lia.
Qed.

Lemma sum_single_list (g : nat -> Z) (l : list nat) (p : nat) :
  NoDup l -> p ∈ l -> (forall x, x ∈ l -> x ≠ p -> g x = 0) ->
  foldr Z.add 0 (g <$> l) = g p.
Proof.
  induction l as [|x l IH]; intros Hnd Hp Hg; [by apply elem_of_nil in Hp|].
  apply NoDup_cons in Hnd as [Hx Hnd]. rewrite fmap_cons. cbn [foldr].
  assert (forall l' : list nat, (forall y, y ∈ l' -> g y = 0) -> foldr Z.add 0 (g <$> l') = 0)
    as Hzero.
  { induction l' as [|y l' IH']; intros Hy; [done|].
    rewrite fmap_cons. cbn [foldr]. rewrite IH', (Hy y); [done | by left |].
    intros z Hz. apply Hy. by right. }
  apply elem_of_cons in Hp as [->|Hp].
  - rewrite Hzero; [lia|]. intros y Hy. apply Hg; [by right|]. by intros ->.
  - rewrite IH; [| done | done | intros y Hy; apply Hg; by right].
    rewrite (Hg x); [lia | by left | by intros ->].
Qed.

Lemma leading_pivot_of (row : vector) :
  all_zero row = false -> leading row = Some (pivot_of row).
Proof.
  intros Hnz. unfold leading.
  destruct (list_find (fun x => x ≠ 0) row) as [[c x]|] eqn:E.
  - apply list_find_Some in E as (Hc & Hx & Hbefore). simpl. f_equal. symmetry.
    apply pivot_of_unit.
    + by eapply lookup_lt_Some.
    + intros j Hj.
      destruct (nth_lookup_or_length row j 0) as [Hy|Hy].
      * specialize (Hbefore j _ Hy Hj). lia.
      * by rewrite nth_overflow.
    + by rewrite (nth_lookup_Some _ _ _ _ Hc).
  - apply list_find_None in E.
    assert (all_zero row = true) as Hz.
    { apply all_zero_spec. eapply Forall_impl; [exact E|]. simpl. lia. }
    congruence.
Qed.

(** A 0/1 matrix in reduced form without zero rows has unit pivot columns. *)
Lemma reduced_unit_pivots (nrows ncols : nat) (a : matrix) :
  binary_shape nrows ncols a -> reduced a -> Forall (fun row => all_zero row = false) a ->
  unit_pivots a.
Proof.
  intros Hs Hred Hnz i i' Hi Hi'. pose proof Hs as [HL _].
  rewrite Forall_rows in Hnz.
  pose proof (leading_pivot_of _ (Hnz i' Hi')) as Hlead.
  destruct (decide (i = i')) as [->|Hne].
  - apply leading_Some in Hlead as (_ & Hc & Hne0).
    destruct (binary_shape_row _ _ _ i' Hs ltac:(lia)) as [Hli _].
    destruct (entry_binary nrows ncols a i' (pivot_of (row_at a i')) Hs) as [E|E];
      [lia | lia | done | done].
  - by apply (Hred i' _ i Hlead).
Qed.

(** On a matrix with unit pivot columns every kernel vector is sent to
    zero. *)
Lemma kernel_in_nullspace (nrows ncols : nat) (a : matrix) :
  binary_shape nrows ncols a -> (0 < nrows)%nat -> unit_pivots a ->
  exists ns, _kernel a = Ok ns /\ binary_shape (ncols - nrows) ncols ns /\
    forall v, v ∈ ns -> in_nullspace a v.
Proof.
  intros Hs Hr Hu. pose proof Hs as [HL _].
  destruct (kernel_entries _ _ _ Hs Hr Hu) as (ns & Hk & Hlen & Hshape & Hent).
  exists ns. split; [done|]. split; [done|]. intros v Hv.
  apply list_elem_of_lookup in Hv as [j Hj].
  assert (j < ncols - nrows)%nat as Hjk.
  { apply lookup_lt_Some in Hj. by rewrite (proj1 Hshape) in Hj. }
  destruct (lookup_lt_is_Some_2 (setdiff1d_range ncols (pivot_of <$> a)) j) as [c Hc]; [lia|].
  destruct (Hent j c Hc) as [Hpiv Hfree].
  pose proof (list_elem_of_lookup_2 _ _ _ Hc) as Hcin.
  apply setdiff1d_range_spec in Hcin as [Hcc Hcnp].
  rewrite <- (row_at_lookup _ _ _ Hj).
  destruct (binary_shape_row _ _ _ j Hshape Hjk) as [Hlv _].
  apply in_nullspace_rows. intros i Hi. rewrite HL in Hi.
  destruct (binary_shape_row _ _ _ i Hs Hi) as [Hli _].
  rewrite (dot_sum _ _ ncols) by done.
  pose proof (unit_pivots_lt _ _ _ i Hs Hu Hi) as Hpl.
  rewrite (sum_two _ ncols (pivot_of (row_at a i)) c); [| done | done | |].
  - fold (entry a i (pivot_of (row_at a i))) (entry ns j (pivot_of (row_at a i)))
         (entry a i c) (entry ns j c).
    rewrite (Hu i i) by lia. rewrite decide_True by done.
    rewrite Hpiv by done. rewrite Hfree by done. rewrite decide_True by done.
    generalize (entry a i c). intros e. Z.div_mod_to_equations. lia.
  - intros E. apply Hcnp. rewrite <- E. apply list_elem_of_fmap. exists (row_at a i).
    split; [done|]. apply (list_elem_of_lookup_2 _ i), lookup_row_at. lia.
  - intros x Hx Hxp Hxc. fold (entry a i x) (entry ns j x).
    destruct (decide (x ∈ pivot_of <$> a)) as [Hin|Hout].
    + apply list_elem_of_lookup in Hin as [i' Hi']. apply pivots_lookup in Hi' as [Hi' ->].
      rewrite (Hu i i') by lia. rewrite decide_False; [lia|]. by intros ->.
    + rewrite Hfree by done. rewrite decide_False by done. lia.
Qed.

(** X10: on a 0/1 matrix with at least one row, in reduced form and
    without zero rows, [_kernel] returns (columns - rows) vectors, each a
    0/1 vector of the nullspace of the matrix. *)
Theorem kernel_reduced_nullspace (nrows ncols : nat) (a : matrix) :
  binary_shape nrows ncols a -> (0 < nrows)%nat ->
  reduced a -> Forall (fun row => all_zero row = false) a ->
  exists ns, _kernel a = Ok ns /\ binary_shape (ncols - nrows) ncols ns /\
    forall v, v ∈ ns -> in_nullspace a v.
Proof.
  intros Hs Hr Hred Hnz. apply kernel_in_nullspace; [done | done |].
  by apply (reduced_unit_pivots nrows ncols).
Qed.

Lemma z0z1_x0_binary_shape : binary_shape 2 4 z0z1_x0.
Proof.
  split; [done|]. repeat constructor; (by left) || (by right).
Qed.

Lemma z0z1_x0_reduced : reduced z0z1_x0.
Proof.
  intros r c r' Hlead Hr' Hne.
  destruct r as [|[|r]].
  - injection Hlead as <-. destruct r' as [|[|r']]; [done | done | simpl in Hr'; lia].
  - injection Hlead as <-. destruct r' as [|[|r']]; [done | done | simpl in Hr'; lia].
  - by destruct r.
Qed.

Lemma z0z1_x0_no_zero_row : Forall (fun row => all_zero row = false) z0z1_x0.
Proof. by repeat constructor. Qed.

Lemma kernel_reduced_nullspace_z0z1_x0 :
  exists ns, _kernel z0z1_x0 = Ok ns /\ binary_shape (4 - 2) 4 ns /\
    forall v, v ∈ ns -> in_nullspace z0z1_x0 v.
Proof.
  apply (kernel_reduced_nullspace 2 4 z0z1_x0).
  - exact z0z1_x0_binary_shape.
  - lia.
  - exact z0z1_x0_reduced.
  - exact z0z1_x0_no_zero_row.
Defined.

Lemma sum_index (g : nat -> Z) (l : list nat) :
  foldr Z.add 0 (g <$> l)
  = foldr Z.add 0 ((fun j => g (nth j l 0%nat)) <$> seq 0 (length l)).
Proof.
  induction l as [|x l IH]; [done|].
  rewrite fmap_cons. cbn [foldr length]. simpl seq. rewrite fmap_cons. cbn [foldr nth].
  rewrite <- fmap_S_seq, <- list_fmap_compose. by rewrite IH.
Qed.

(** The kernel vectors on a matrix with unit pivot columns are linearly
    independent over GF(2). *)
Lemma kernel_independent (nrows ncols : nat) (a : matrix) (ns : matrix) :
  binary_shape nrows ncols a -> (0 < nrows)%nat -> unit_pivots a ->
  _kernel a = Ok ns ->
  full_column_rank (ncols - nrows) (transpose ncols ns).
Proof.
  intros Hs Hr Hu Hk.
  destruct (kernel_entries _ _ _ Hs Hr Hu) as (ns' & Hk' & Hlen & Hshape & Hent).
  rewrite Hk in Hk'. injection Hk' as <-.
  pose proof (setdiff1d_range_NoDup ncols (pivot_of <$> a)) as Hnd.
  intros v Hlv Hbv Hnull.
  apply (list_eq_same_length _ _ (ncols - nrows)); [by rewrite length_replicate | done |].
  intros j' x y Hj' Hx Hy. apply lookup_replicate in Hy as [-> _].
  destruct (lookup_lt_is_Some_2 (setdiff1d_range ncols (pivot_of <$> a)) j') as [c Hc]; [lia|].
  pose proof (list_elem_of_lookup_2 _ _ _ Hc) as Hcin.
  apply setdiff1d_range_spec in Hcin as [Hcc Hcnp].
  rewrite in_nullspace_rows, length_transpose in Hnull.
  specialize (Hnull c Hcc). rewrite row_at_transpose in Hnull by done.
  rewrite (dot_unit _ _ j') in Hnull.
  - rewrite decide_True in Hnull by lia.
    rewrite (nth_lookup_Some _ _ _ _ Hx) in Hnull.
    rewrite Forall_lookup in Hbv. by destruct (Hbv _ _ Hx) as [-> | ->].
  - rewrite length_column, (proj1 Hshape). done.
  - intros j Hj. rewrite Hlv in Hj.
    rewrite nth_column, decide_True by (rewrite (proj1 Hshape); lia).
    destruct (lookup_lt_is_Some_2 (setdiff1d_range ncols (pivot_of <$> a)) j) as [cj Hcj];
      [lia|].
    destruct (Hent j cj Hcj) as [_ Hfree]. rewrite Hfree by done.
    destruct (decide (j = j')) as [->|Hne].
    + rewrite decide_True; [done | congruence].
    + rewrite decide_False; [done|]. intros ->. apply Hne.
      by apply (NoDup_lookup _ _ _ _ Hnd Hcj Hc).
Qed.

(** Every 0/1 vector of the nullspace of a matrix with unit pivot columns
    is a GF(2) combination of the kernel vectors. *)
Lemma kernel_spans (nrows ncols : nat) (a : matrix) (ns : matrix) (u : vector) :
  binary_shape nrows ncols a -> (0 < nrows)%nat -> unit_pivots a ->
  _kernel a = Ok ns ->
  length u = ncols -> Forall binary u -> in_nullspace a u ->
  exists w, length w = (ncols - nrows)%nat /\ Forall binary w /\
    forall x, (x < ncols)%nat -> nth x u 0 = dot (column ns x) w `mod` 2.
Proof.
  intros Hs Hr Hu Hk Hlu Hbu Hnull. pose proof Hs as [HL _].
  destruct (kernel_entries _ _ _ Hs Hr Hu) as (ns' & Hk' & Hlen & Hshape & Hent).
  rewrite Hk in Hk'. injection Hk' as <-.
  pose proof (setdiff1d_range_NoDup ncols (pivot_of <$> a)) as Hnd.
  assert (forall x, (x < ncols)%nat -> binary (nth x u 0)) as Hux.
  { intros x Hx. rewrite Forall_lookup in Hbu. apply (Hbu x).
    destruct (nth_lookup_or_length u x 0); [done | lia]. }
  set (free := setdiff1d_range ncols (pivot_of <$> a)) in *.
  exists ((fun c => nth c u 0) <$> free).
  split; [by rewrite length_fmap|]. split.
  { apply Forall_fmap, Forall_forall. intros c Hc.
    apply setdiff1d_range_spec in Hc as [Hc _]. by apply Hux. }
  intros x Hx.
  assert (forall j, (j < ncols - nrows)%nat -> nth j (column ns x) 0 = entry ns j x) as Hcol.
  { intros j Hj. by rewrite nth_column, decide_True by (rewrite (proj1 Hshape); lia). }
  destruct (decide (x ∈ pivot_of <$> a)) as [Hin|Hout].
  - apply list_elem_of_lookup in Hin as [i Hi]. apply pivots_lookup in Hi as [Hi ->].
    rewrite HL in Hi.
    set (g := fun c => entry a i c * nth c u 0).
    assert (dot (column ns (pivot_of (row_at a i))) ((fun c => nth c u 0) <$> free)
            = foldr Z.add 0 (g <$> free)) as ->.
    { rewrite (dot_sum _ _ (ncols - nrows))
        by (rewrite ?length_column, ?length_fmap; (apply Hshape || done)).
      rewrite (sum_index g free), Hlen. f_equal. apply list_fmap_ext. intros j ? Hj.
      apply lookup_seq in Hj as [-> Hj]. simpl.
      destruct (lookup_lt_is_Some_2 free j) as [cj Hcj]; [lia|].
      rewrite Hcol by done. destruct (Hent j cj Hcj) as [Hpiv _]. rewrite Hpiv by done.
      rewrite (nth_lookup_Some _ _ _ (nth cj u 0)) by (by rewrite list_lookup_fmap, Hcj).
      unfold g. by rewrite (nth_lookup_Some _ _ _ _ Hcj). }
    rewrite in_nullspace_rows in Hnull. specialize (Hnull i ltac:(lia)).
    destruct (binary_shape_row _ _ _ i Hs Hi) as [Hli _].
    rewrite (dot_sum _ _ ncols) in Hnull by done.
    rewrite (sum_filter _ (fun c => c ∈ pivot_of <$> a)) in Hnull.
    fold (setdiff1d_range ncols (pivot_of <$> a)) in Hnull. fold free in Hnull.
    rewrite (sum_single_list _ _ (pivot_of (row_at a i))) in Hnull.
    + fold (entry a i (pivot_of (row_at a i))) in Hnull.
      rewrite (Hu i i), decide_True in Hnull by (lia || done).
      change (foldr Z.add 0 ((fun x : nat => nth x (row_at a i) 0 * nth x u 0) <$> free))
        with (foldr Z.add 0 (g <$> free)) in Hnull.
      revert Hnull.
      pose proof (Hux _ (unit_pivots_lt _ _ _ i Hs Hu Hi)) as Hb.
      generalize (foldr Z.add 0 (g <$> free)). revert Hb.
      generalize (nth (pivot_of (row_at a i)) u 0).
      intros b [-> | ->] z Hz; Z.div_mod_to_equations; lia.
    + apply NoDup_filter, NoDup_seq.
    + apply list_elem_of_filter. split.
      * apply list_elem_of_fmap. exists (row_at a i). split; [done|].
        apply (list_elem_of_lookup_2 _ i), lookup_row_at. lia.
      * apply elem_of_seq. pose proof (unit_pivots_lt _ _ _ i Hs Hu Hi). lia.
    + intros y Hy Hne. apply list_elem_of_filter in Hy as [Hy _].
      apply list_elem_of_lookup in Hy as [i' Hi']. apply pivots_lookup in Hi' as [Hi' ->].
      fold (entry a i (pivot_of (row_at a i'))). rewrite (Hu i i') by lia.
      rewrite decide_False; [lia|]. by intros ->.
  - assert (x ∈ free) as Hxf by (by apply setdiff1d_range_spec).
    apply list_elem_of_lookup in Hxf as [j0 Hj0].
    rewrite (dot_unit _ _ j0).
    + rewrite length_fmap, decide_True by (by eapply lookup_lt_Some).
      rewrite (nth_lookup_Some ((fun c => nth c u 0) <$> free) j0 0 (nth x u 0))
        by (by rewrite list_lookup_fmap, Hj0).
      by destruct (Hux x Hx) as [-> | ->].
    + rewrite length_column, length_fmap, Hlen. apply Hshape.
    + intros j Hj. rewrite length_fmap, Hlen in Hj. rewrite Hcol by done.
      destruct (lookup_lt_is_Some_2 free j) as [cj Hcj]; [lia|].
      destruct (Hent j cj Hcj) as [_ Hfree]. rewrite Hfree by done.
      destruct (decide (j = j0)) as [->|Hne].
      * rewrite decide_True; [done | congruence].
      * rewrite decide_False; [done|]. intros ->. apply Hne.
        by apply (NoDup_lookup _ _ _ _ Hnd Hcj Hj0).
Qed.

(** X11: on a 0/1 matrix with at least one row, in reduced form and
    without zero rows, the vectors [_kernel] returns are a basis of the
    nullspace over GF(2): they are linearly independent, and every 0/1
    vector the matrix sends to zero is a combination of them. *)
Theorem kernel_reduced_basis (nrows ncols : nat) (a : matrix) :
  binary_shape nrows ncols a -> (0 < nrows)%nat ->
  reduced a -> Forall (fun row => all_zero row = false) a ->
  exists ns, _kernel a = Ok ns /\
    full_column_rank (ncols - nrows) (transpose ncols ns) /\
    forall u, length u = ncols -> Forall binary u -> in_nullspace a u ->
      exists w, length w = (ncols - nrows)%nat /\ Forall binary w /\
        forall x, (x < ncols)%nat -> nth x u 0 = dot (column ns x) w `mod` 2.
Proof.
  intros Hs Hr Hred Hnz.
  pose proof (reduced_unit_pivots _ _ _ Hs Hred Hnz) as Hu.
  destruct (kernel_entries _ _ _ Hs Hr Hu) as (ns & Hk & _).
  exists ns. split; [done|]. split.
  - by apply (kernel_independent nrows ncols a).
  - intros u Hlu Hbu Hnull. by apply (kernel_spans nrows ncols a).
Qed.

Lemma kernel_reduced_basis_z0z1_x0 :
  exists ns, _kernel z0z1_x0 = Ok ns /\
    full_column_rank (4 - 2) (transpose 4 ns) /\
    forall u, length u = 4%nat -> Forall binary u -> in_nullspace z0z1_x0 u ->
      exists w, length w = (4 - 2)%nat /\ Forall binary w /\
        forall x, (x < 4)%nat -> nth x u 0 = dot (column ns x) w `mod` 2.
Proof.
  apply (kernel_reduced_basis 2 4 z0z1_x0).
  - exact z0z1_x0_binary_shape.
  - lia.
  - exact z0z1_x0_reduced.
  - exact z0z1_x0_no_zero_row.
Defined.

(** ** From the binary matrix to the kernel *)

Lemma dot_all_zero (row v : vector) : all_zero row = true -> dot row v = 0.
Proof.
  rewrite all_zero_spec. intros Hz. revert v.
  induction Hz as [|x row -> _ IH]; intros v; [apply dot_nil_l|].
  destruct v as [|y v]; [apply dot_nil_r|]. rewrite dot_cons, IH. lia.
Qed.

Lemma strip_zero_rows_shape (nrows ncols : nat) (a : matrix) :
  binary_shape nrows ncols a ->
  binary_shape (length (strip_zero_rows a)) ncols (strip_zero_rows a).
Proof.
  intros [_ HF]. split; [done|]. apply Forall_forall. intros row Hrow.
  apply list_elem_of_filter in Hrow as [_ Hrow].
  rewrite Forall_forall in HF. by apply HF.
Qed.

Lemma strip_zero_rows_no_zero_row (a : matrix) :
  Forall (fun row => all_zero row = false) (strip_zero_rows a).
Proof.
  apply Forall_forall. intros row Hrow. by apply list_elem_of_filter in Hrow as [? _].
Qed.

Lemma strip_zero_rows_nullspace (a : matrix) (v : vector) :
  in_nullspace (strip_zero_rows a) v <-> in_nullspace a v.
Proof.
  unfold in_nullspace. rewrite !Forall_forall. split; intros H row Hrow.
  - destruct (all_zero row) eqn:E.
    + by rewrite dot_all_zero.
    + apply H. by apply list_elem_of_filter.
  - apply H. by apply list_elem_of_filter in Hrow as [_ ?].
Qed.

(** The kernel of the stripped reduction, when that is in reduced form. *)
Lemma kernel_of_reduction (nrows ncols : nat) (a : matrix) :
  binary_shape nrows ncols a ->
  strip_zero_rows (_reduced_row_echelon a) ≠ [] ->
  reduced (strip_zero_rows (_reduced_row_echelon a)) ->
  exists ns, _kernel (strip_zero_rows (_reduced_row_echelon a)) = Ok ns /\
    binary_shape (ncols - length (strip_zero_rows (_reduced_row_echelon a))) ncols ns /\
    (forall v, v ∈ ns -> in_nullspace a v) /\
    full_column_rank (length ns) (transpose ncols ns) /\
    forall u, length u = ncols -> Forall binary u -> in_nullspace a u ->
      exists w, length w = length ns /\ Forall binary w /\
        forall x, (x < ncols)%nat -> nth x u 0 = dot (column ns x) w `mod` 2.
Proof.
  intros Hs Hne Hred.
  assert (binary_shape nrows ncols (_reduced_row_echelon a) /\
          forall v, length v = ncols ->
            (in_nullspace (_reduced_row_echelon a) v <-> in_nullspace a v)) as [Hs1 Hnull1].
  { destruct (reduced_row_echelon_unfold nrows ncols a Hs) as [->|[_ ->]]; [done|].
    destruct (reduction_loop_keeps nrows ncols a (nrows `min` ncols) Hs) as (H1 & _ & H2);
      [lia | lia | done]. }
  set (b := strip_zero_rows (_reduced_row_echelon a)) in *.
  pose proof (strip_zero_rows_shape _ _ _ Hs1) as Hsb. fold b in Hsb.
  pose proof (strip_zero_rows_no_zero_row (_reduced_row_echelon a)) as Hnz. fold b in Hnz.
  assert (0 < length b)%nat as Hpos by (destruct b; [done | simpl; lia]).
  pose proof (reduced_unit_pivots _ _ _ Hsb Hred Hnz) as Hu.
  destruct (kernel_in_nullspace _ _ _ Hsb Hpos Hu) as (ns & Hk & Hshape & Hin).
  exists ns. split; [done|]. split; [done|]. split; [|split].
  - intros v Hv. apply Hnull1.
    + pose proof (proj2 Hshape) as HF. rewrite Forall_forall in HF.
      by destruct (HF v Hv).
    + apply strip_zero_rows_nullspace. by apply Hin.
  - rewrite (proj1 Hshape). by apply (kernel_independent (length b) ncols b).
  - intros u Hlu Hbu Hnu. rewrite (proj1 Hshape).
    apply (kernel_spans (length b) ncols b); try done.
    apply strip_zero_rows_nullspace. by apply Hnull1.
Qed.

(** X12: for the 0/1 matrix [a] of a Hamiltonian, whenever the reduction
    with its zero rows removed is in reduced form (and has a row), the
    vectors [_kernel] returns for it are a basis of the nullspace of [a]
    itself: as many as columns minus remaining rows, each sent to zero by
    [a], and every 0/1 vector [a] sends to zero is a GF(2) combination of
    them. *)
Theorem kernel_of_reduction_basis (nrows ncols : nat) (a : matrix) :
  binary_shape nrows ncols a ->
  strip_zero_rows (_reduced_row_echelon a) ≠ [] ->
  reduced (strip_zero_rows (_reduced_row_echelon a)) ->
  exists ns, _kernel (strip_zero_rows (_reduced_row_echelon a)) = Ok ns /\
    binary_shape (ncols - length (strip_zero_rows (_reduced_row_echelon a))) ncols ns /\
    (forall v, v ∈ ns -> in_nullspace a v) /\
    full_column_rank (length ns) (transpose ncols ns) /\
    forall u, length u = ncols -> Forall binary u -> in_nullspace a u ->
      exists w, length w = length ns /\ Forall binary w /\
        forall x, (x < ncols)%nat -> nth x u 0 = dot (column ns x) w `mod` 2.
Proof. apply kernel_of_reduction. Qed.

Lemma z0z1_y0_reduction_reduced :
  reduced (strip_zero_rows (_reduced_row_echelon z0z1_y0)).
Proof.
  intros r c r' Hlead Hr' Hne.
  destruct r as [|[|r]].
  - injection Hlead as <-. destruct r' as [|[|r']]; [done | done | simpl in Hr'; lia].
  - injection Hlead as <-. destruct r' as [|[|r']]; [done | done | simpl in Hr'; lia].
  - by destruct r.
Qed.

Lemma kernel_of_reduction_basis_example :
  exists ns, _kernel (strip_zero_rows (_reduced_row_echelon z0z1_y0)) = Ok ns /\
    binary_shape
      (4 - length (strip_zero_rows (_reduced_row_echelon z0z1_y0))) 4 ns /\
    (forall v, v ∈ ns -> in_nullspace z0z1_y0 v) /\
    full_column_rank (length ns) (transpose 4 ns) /\
    forall u, length u = 4%nat -> Forall binary u ->
      in_nullspace z0z1_y0 u ->
      exists w, length w = length ns /\ Forall binary w /\
        forall x, (x < 4)%nat -> nth x u 0 = dot (column ns x) w `mod` 2.
Proof.
  apply (kernel_of_reduction_basis 2 4 z0z1_y0).
  - split; [done|]. repeat constructor; (by left) || (by right).
  - discriminate.
  - exact z0z1_y0_reduction_reduced.
Defined.

(** ** [generate_taus] and the matrix [generate_paulis] reads *)

Lemma pauli_map_binary (x z : Z) :
  binary x -> binary z -> pauli_map x z = Ok (pauli_name x z).
Proof. by intros [-> | ->] [-> | ->]. Qed.

Lemma tau_loop (pairs : list (Z * Z)) (tau0 : list factor) (k : nat) :
  Forall (fun xz => binary xz.1 /\ binary xz.2) pairs ->
  for_each
    (fun (tau : list factor) '(idx, (x, z)) =>
       p ← pauli_map x z; Ok (tau ++ [(p, Z.of_nat idx)]))
    tau0 (imap (fun i => pair (k + i)%nat) pairs)
  = Ok (tau0 ++ imap (fun i xz => (pauli_name xz.1 xz.2, Z.of_nat (k + i))) pairs).
Proof.
  revert tau0 k; induction pairs as [|[x z] pairs IH]; intros tau0 k Hb.
  - cbn [imap for_each]. by rewrite app_nil_r.
  - apply Forall_cons in Hb as [[Hx Hz] Hb]. cbn [fst snd] in Hx, Hz.
    cbn [imap for_each]. rewrite (pauli_map_binary x z Hx Hz), !bind_Ok.
    rewrite (imap_ext _ (fun i => pair (S k + i)%nat) pairs)
      by (intros; cbn; f_equal; lia).
    rewrite IH by done. rewrite <- app_assoc. cbn [app fst snd]. do 3 f_equal.
    apply imap_ext. intros i [x' z'] _. cbn. do 2 f_equal. lia.
Qed.

Lemma tau_of_binary (num_qubits : nat) (v : vector) :
  Forall binary v ->
  tau_of num_qubits v
  = Ok (("Identity"%string, 0)
          :: imap (fun i xz => (pauli_name xz.1 xz.2, Z.of_nat i))
               (zip (take num_qubits v) (drop num_qubits v))).
Proof.
  intros Hb. unfold tau_of.
  apply (tau_loop (zip (take num_qubits v) (drop num_qubits v)) [("Identity"%string, 0)] 0).
  apply Forall_forall. intros [x z] Hxz. cbn [fst snd].
  pose proof (Forall_take _ num_qubits _ Hb) as Ht.
  pose proof (Forall_drop _ num_qubits _ Hb) as Hd.
  rewrite Forall_forall in Ht, Hd. split.
  - apply Ht. by apply elem_of_zip_l in Hxz.
  - apply Hd. by apply elem_of_zip_r in Hxz.
Qed.

Lemma simplify_tensor_factors (tau : list factor) (s : string) (w : Z) :
  s ≠ "Identity"%string ->
  (s, w) ∈ factors (simplify_tensor tau) <-> (s, w) ∈ tau.
Proof.
  intros Hs. unfold simplify_tensor.
  assert ((s, w) ∈ tau <-> (s, w) ∈ filter (fun o : factor => o.1 ≠ "Identity"%string) tau)
    as ->.
  { rewrite list_elem_of_filter. cbn [fst]. tauto. }
  destruct (filter (fun o : factor => o.1 ≠ "Identity"%string) tau)
    as [|[n w1] [|o2 rest]].
  - unfold Identity, factors. cbn [name wires fmap list_fmap].
    rewrite list_elem_of_singleton, elem_of_nil. split; [|done].
    intros H. inversion H. by subst.
  - unfold factors. cbn [name wires fmap list_fmap]. done.
  - unfold factors. cbn [name wires]. by rewrite zip_fst_snd.
Qed.

Lemma simplify_tensor_well_formed (num_qubits : nat) (o : factor) (tau : list factor) :
  Forall (fun o : factor => 0 <= o.2 < Z.of_nat num_qubits) (o :: tau) ->
  well_formed num_qubits (simplify_tensor (o :: tau)).
Proof.
  intros Hr. unfold simplify_tensor.
  assert (Forall (fun o : factor => 0 <= o.2 < Z.of_nat num_qubits)
            (filter (fun o : factor => o.1 ≠ "Identity"%string) (o :: tau))) as Hf.
  { apply Forall_forall. intros x Hx. apply list_elem_of_filter in Hx as [_ Hx].
    rewrite Forall_forall in Hr. by apply Hr. }
  destruct (filter (fun o : factor => o.1 ≠ "Identity"%string) (o :: tau))
    as [|[n w1] [|o2 rest]].
  - split; [done|]. cbn. apply Forall_cons in Hr as [Ho _].
    apply Forall_cons. split; [exact Ho | by apply Forall_nil].
  - split; [done|]. cbn [wires]. apply Forall_cons in Hf as [Hw _].
    apply Forall_cons. split; [exact Hw | by apply Forall_nil].
  - split.
    + cbn [name wires]. rewrite !length_fmap. split; [done|]. simpl. lia.
    + cbn [wires]. by apply Forall_fmap.
Qed.

Lemma binary_vector_ext (n : nat) (u w : vector) :
  length u = n -> length w = n -> Forall binary u -> Forall binary w ->
  (forall c, (c < n)%nat -> nth c u 0 = 1 <-> nth c w 0 = 1) ->
  u = w.
Proof.
  intros Hlu Hlw Hbu Hbw Heq.
  apply (list_eq_same_length _ _ n); [done | done |].
  intros c x y Hc Hx Hy. specialize (Heq c Hc).
  rewrite (nth_lookup_Some _ _ _ _ Hx), (nth_lookup_Some _ _ _ _ Hy) in Heq.
  rewrite Forall_lookup in Hbu, Hbw.
  destruct (Hbu _ _ Hx) as [-> | ->], (Hbw _ _ Hy) as [-> | ->]; try done.
  - by destruct Heq as [_ ->].
  - by destruct Heq as [-> _].
Qed.

Lemma pairs_lookup (num_qubits : nat) (v : vector) (i : nat) :
  length v = (2 * num_qubits)%nat -> (i < num_qubits)%nat ->
  zip (take num_qubits v) (drop num_qubits v) !! i
  = Some (nth i v 0, nth (num_qubits + i) v 0).
Proof.
  intros Hl Hi. apply lookup_zip_with_Some. exists (nth i v 0), (nth (num_qubits + i) v 0).
  split; [done|]. split.
  - rewrite lookup_take_lt by done.
    destruct (nth_lookup_or_length v i 0); [done | lia].
  - rewrite lookup_drop.
    destruct (nth_lookup_or_length v (num_qubits + i) 0); [done | lia].
Qed.

Lemma tau_member (num_qubits : nat) (v : vector) (s : string) (i : nat) :
  length v = (2 * num_qubits)%nat -> (i < num_qubits)%nat -> s ≠ "Identity"%string ->
  (s, Z.of_nat i) ∈ ("Identity"%string, 0)
                      :: imap (fun i xz => (pauli_name xz.1 xz.2, Z.of_nat i))
                           (zip (take num_qubits v) (drop num_qubits v))
  <-> pauli_name (nth i v 0) (nth (num_qubits + i) v 0) = s.
Proof.
  intros Hl Hi Hs. rewrite elem_of_cons, elem_of_lookup_imap. split.
  - intros [H|(i' & [x z] & Heq & Hlook)]; [by inversion H; subst|].
    inversion Heq as [[Hname Hidx]]. apply Nat2Z.inj in Hidx. subst i'.
    rewrite pairs_lookup in Hlook by done. by inversion Hlook; subst.
  - intros <-. right. exists i, (nth i v 0, nth (num_qubits + i) v 0).
    split; [done|]. by apply pairs_lookup.
Qed.

Lemma pauli_name_Z (x z : Z) :
  binary x -> binary z ->
  (exists s, s ∈ ["PauliZ"; "PauliY"]%string /\ pauli_name x z = s) <-> z = 1.
Proof.
  intros [-> | ->] [-> | ->]; cbn; split; try done.
  - intros (s & Hs & <-). repeat (apply elem_of_cons in Hs as [Hs|Hs]; [discriminate|]).
    by apply elem_of_nil in Hs.
  - intros _. exists "PauliZ"%string. split; [by left | done].
  - intros (s & Hs & <-). repeat (apply elem_of_cons in Hs as [Hs|Hs]; [discriminate|]).
    by apply elem_of_nil in Hs.
  - intros _. exists "PauliY"%string. split; [right; by left | done].
Qed.

Lemma pauli_name_X (x z : Z) :
  binary x -> binary z ->
  (exists s, s ∈ ["PauliX"; "PauliY"]%string /\ pauli_name x z = s) <-> x = 1.
Proof.
  intros [-> | ->] [-> | ->]; cbn; split; try done.
  - intros (s & Hs & <-). repeat (apply elem_of_cons in Hs as [Hs|Hs]; [discriminate|]).
    by apply elem_of_nil in Hs.
  - intros (s & Hs & <-). repeat (apply elem_of_cons in Hs as [Hs|Hs]; [discriminate|]).
    by apply elem_of_nil in Hs.
  - intros _. exists "PauliX"%string. split; [by left | done].
  - intros _. exists "PauliY"%string. split; [right; by left | done].
Qed.

Lemma Identity_not_in (labels : list string) :
  forallb (fun s => negb (String.eqb s "Identity")) labels = true ->
  "Identity"%string ∉ labels.
Proof.
  intros H Hin. apply list_elem_of_In in Hin.
  rewrite forallb_forall in H. specialize (H _ Hin). by rewrite String.eqb_refl in H.
Qed.

(** The generator built from a 0/1 vector [(x | z)] of length 2N encodes
    to [(z | x)]. *)
Lemma tau_round_trip (num_qubits : nat) (v : vector) :
  length v = (2 * num_qubits)%nat -> Forall binary v ->
  exists tau, tau_of num_qubits v = Ok tau /\
    encode_term num_qubits (simplify_tensor tau) = Ok (swap_halves num_qubits v).
Proof.
  intros Hl Hb. eexists. split; [by apply tau_of_binary|].
  destruct num_qubits as [|n].
  { destruct v; [reflexivity | discriminate]. }
  set (N := S n) in *.
  set (tau := imap (fun i xz => (pauli_name xz.1 xz.2, Z.of_nat i))
                (zip (take N v) (drop N v))).
  assert (forall c, (c < 2 * N)%nat -> binary (nth c v 0)) as Hv.
  { intros c Hc. rewrite Forall_lookup in Hb. apply (Hb c).
    destruct (nth_lookup_or_length v c 0); [done | lia]. }
  assert (well_formed N (simplify_tensor (("Identity"%string, 0) :: tau))) as Hwf.
  { apply simplify_tensor_well_formed. apply Forall_cons. split; [cbn; lia|].
    apply Forall_forall. intros o Ho.
    apply elem_of_lookup_imap in Ho as (i & xz & -> & Hi). cbn [snd].
    apply lookup_lt_Some in Hi. rewrite length_zip_with, length_take, length_drop in Hi. lia. }
  destruct (encode_term_spec N _ Hwf) as (row & Hrow & Hbits).
  rewrite Hrow. f_equal.
  destruct (encode_term_shape _ _ _ Hrow) as [Hlr Hbr].
  assert (forall labels i, (i < N)%nat -> "Identity"%string ∉ labels ->
            (acts_as labels (simplify_tensor (("Identity"%string, 0) :: tau)) i
             <-> exists s, s ∈ labels /\ pauli_name (nth i v 0) (nth (N + i) v 0) = s))
    as Hacts.
  { intros labels i Hi Hid. unfold acts_as.
    split; intros (s & Hs & H); exists s; (split; [done|]);
      (assert (s ≠ "Identity"%string) as Hne by (intros E; apply Hid; by rewrite <- E)).
    - apply (proj1 (simplify_tensor_factors _ _ _ Hne)) in H.
      by apply (tau_member N v s i).
    - apply (proj2 (simplify_tensor_factors _ _ _ Hne)).
      by apply (tau_member N v s i). }
  apply (binary_vector_ext (2 * N)).
  - done.
  - unfold swap_halves. rewrite length_app, length_take, length_drop. lia.
  - done.
  - unfold swap_halves. apply Forall_app. split; [by apply Forall_drop | by apply Forall_take].
  - intros c Hc. unfold swap_halves. destruct (decide (c < N)%nat) as [Hlt|Hge].
    + destruct (Hbits c Hlt) as [HZ _]. rewrite HZ, Hacts by (done || by apply Identity_not_in).
      rewrite pauli_name_Z by (apply Hv; lia).
      rewrite app_nth1 by (rewrite length_drop; lia). by rewrite nth_drop.
    + destruct (Hbits (c - N)%nat ltac:(lia)) as [_ HX].
      replace (N + (c - N))%nat with c in HX by lia.
      rewrite HX, Hacts by (lia || by apply Identity_not_in).
      rewrite pauli_name_X by (apply Hv; lia).
      rewrite app_nth2 by (rewrite length_drop; lia).
      rewrite length_drop, nth_take by lia.
      by replace (c - (length v - N))%nat with (c - N)%nat by lia.
Qed.

Lemma generate_taus_encodings (num_qubits : nat) (ns : matrix) :
  Forall (fun v => length v = (2 * num_qubits)%nat /\ Forall binary v) ns ->
  exists gens ts, generate_taus ns num_qubits = Ok gens /\
    length gens = length ns /\
    map_res first_op gens = Ok ts /\
    _binary_matrix ts num_qubits = Ok (swap_halves num_qubits <$> ns).
Proof.
  intros Hns.
  assert (exists gens ts, generate_taus ns num_qubits = Ok gens /\
            length gens = length ns /\ map_res first_op gens = Ok ts /\
            map_res (encode_term num_qubits) ts = Ok (swap_halves num_qubits <$> ns))
    as (gens & ts & H1 & H2 & H3 & H4).
  { induction Hns as [|v ns [Hl Hb] _ (gens & ts & H1 & H2 & H3 & H4)].
    - by exists [], [].
    - destruct (tau_round_trip num_qubits v Hl Hb) as (tau & Htau & Henc).
      exists (Hamiltonian_simplified 1%Q tau :: gens), (simplify_tensor tau :: ts).
      unfold generate_taus in *. cbn [map_res].
      rewrite Htau, !bind_Ok, H1, !bind_Ok.
      split; [done|]. split; [simpl; lia|].
      change (first_op (Hamiltonian_simplified 1 tau)) with (Ok (simplify_tensor tau)).
      rewrite !bind_Ok, H3, !bind_Ok.
      split; [done|]. rewrite Henc, !bind_Ok, H4, !bind_Ok. by rewrite fmap_cons. }
  exists gens, ts. by rewrite binary_matrix_rows.
Qed.

(** X13: from 0/1 vectors [(x | z)] of length 2N [generate_taus] builds
    one generator each, without raising, and the matrix [generate_paulis]
    computes from these generators holds the vectors with their halves
    exchanged, [(z | x)]; so [generate_paulis] does not raise on them
    either. *)
Theorem generate_taus_round_trip (num_qubits : nat) (ns : matrix) :
  Forall (fun v => length v = (2 * num_qubits)%nat /\ Forall binary v) ns ->
  exists gens ts sx, generate_taus ns num_qubits = Ok gens /\
    length gens = length ns /\
    map_res first_op gens = Ok ts /\
    _binary_matrix ts num_qubits = Ok (swap_halves num_qubits <$> ns) /\
    generate_paulis gens num_qubits = Ok sx.
Proof.
  intros Hns.
  destruct (generate_taus_encodings num_qubits ns Hns) as (gens & ts & H1 & H2 & H3 & H4).
  exists gens, ts. eexists. repeat (split; [done|]).
  unfold generate_paulis. rewrite H3, bind_Ok, H4, bind_Ok. reflexivity.
Qed.

Lemma generate_taus_round_trip_example :
  exists gens ts sx, generate_taus [[1; 1; 1; 0]; [0; 0; 0; 1]] 2 = Ok gens /\
    length gens = length [[1; 1; 1; 0]; [0; 0; 0; 1]] /\
    map_res first_op gens = Ok ts /\
    _binary_matrix ts 2 = Ok (swap_halves 2 <$> [[1; 1; 1; 0]; [0; 0; 0; 1]]) /\
    generate_paulis gens 2 = Ok sx.
Proof.
  apply (generate_taus_round_trip 2 [[1; 1; 1; 0]; [0; 0; 0; 1]]).
  repeat constructor; (by left) || (by right).
Defined.

(** ** [generate_symmetries]: the generators against the Hamiltonian *)

Lemma sum_add (f g : nat -> Z) (l : list nat) :
  foldr Z.add 0 ((fun x => f x + g x) <$> l)
  = foldr Z.add 0 (f <$> l) + foldr Z.add 0 (g <$> l).
Proof.
  induction l as [|x l IH]; [done|]. rewrite !fmap_cons. cbn [foldr]. rewrite IH. lia.
Qed.

(** The symplectic product of [(z | x)] with a row is the plain product
    of the row with [(x | z)]. *)
Lemma symplectic_swap_halves (num_qubits : nat) (v r : vector) :
  length v = (2 * num_qubits)%nat -> length r = (2 * num_qubits)%nat ->
  symplectic num_qubits (swap_halves num_qubits v) r = dot r v `mod` 2.
Proof.
  intros Hv Hr. unfold symplectic. f_equal.
  replace (dot r v)
    with (dot (take num_qubits r ++ drop num_qubits r) (take num_qubits v ++ drop num_qubits v))
    by (by rewrite !take_drop).
  rewrite dot_app by (rewrite !length_take; lia).
  rewrite (dot_sum (take num_qubits r) (take num_qubits v) num_qubits)
    by (rewrite length_take; lia).
  rewrite (dot_sum (drop num_qubits r) (drop num_qubits v) num_qubits)
    by (rewrite length_drop; lia).
  rewrite <- sum_add. f_equal. apply list_fmap_ext. intros i ? Hi.
  apply lookup_seq in Hi as [-> Hi]. cbn [Nat.add]. unfold swap_halves.
  rewrite app_nth1 by (rewrite length_drop; lia).
  rewrite app_nth2 by (rewrite length_drop; lia).
  rewrite length_drop.
  replace (num_qubits + i - (length v - num_qubits))%nat with i by lia.
  rewrite !nth_take, !nth_drop by lia. lia.
Qed.

Lemma generate_symmetries_inv (qubit_op : Hamiltonian) (num_qubits : nat) gens sx :
  generate_symmetries qubit_op num_qubits = Ok (gens, sx) ->
  exists a ns, _binary_matrix (ops qubit_op) num_qubits = Ok a /\
    _kernel (strip_zero_rows (_reduced_row_echelon a)) = Ok ns /\
    generate_taus ns num_qubits = Ok gens /\
    generate_paulis gens num_qubits = Ok sx.
Proof.
  unfold generate_symmetries. intros H.
  apply bind_Ok_inv in H as (a & Ha & H). cbv zeta in H.
  apply bind_Ok_inv in H as (ns & Hns & H).
  apply bind_Ok_inv in H as (gens' & Hg & H).
  apply bind_Ok_inv in H as (sx' & Hsx & H).
  inversion H; subst. by exists a, ns.
Qed.

(** X14: when [generate_symmetries] returns and the stripped reduction of
    the Hamiltonian's matrix is in reduced form, there is one generator per
    free column (2N minus the rows that remain), and every generator
    commutes with every term of the Hamiltonian: the symplectic product
    of their encodings is 0. *)
Theorem generate_symmetries_commute (qubit_op : Hamiltonian) (num_qubits : nat)
    (a : matrix) (gens : list Hamiltonian) (sx : list term) :
  _binary_matrix (ops qubit_op) num_qubits = Ok a ->
  reduced (strip_zero_rows (_reduced_row_echelon a)) ->
  generate_symmetries qubit_op num_qubits = Ok (gens, sx) ->
  length gens
  = (2 * num_qubits - length (strip_zero_rows (_reduced_row_echelon a)))%nat /\
  forall g t, g ∈ gens -> t ∈ ops qubit_op ->
    exists eg et, generator_encoding num_qubits g = Ok eg /\
      encoding num_qubits t = Ok et /\ symplectic num_qubits eg et = 0.
Proof.
  intros Ha Hred Hsym.
  apply generate_symmetries_inv in Hsym as (a' & ns & Ha' & Hk & Hg & Hsx).
  rewrite Ha in Ha'. injection Ha' as <-.
  pose proof (binary_matrix_shape _ _ _ Ha) as Hs.
  assert (strip_zero_rows (_reduced_row_echelon a) ≠ []) as Hne.
  { intros E. rewrite E in Hk. discriminate. }
  destruct (kernel_of_reduction _ _ _ Hs Hne Hred) as (ns' & Hk' & Hshape & Hnull & _).
  rewrite Hk in Hk'. injection Hk' as <-.
  destruct (generate_taus_encodings num_qubits ns (proj2 Hshape))
    as (gens' & ts & Hg' & Hlen & Hts & Hbm).
  rewrite Hg in Hg'. injection Hg' as <-.
  split; [by rewrite Hlen, (proj1 Hshape)|].
  intros g t Hgin Htin.
  apply list_elem_of_lookup in Hgin as [j Hj]. apply list_elem_of_lookup in Htin as [r Hr].
  destruct (map_res_lookup _ _ _ _ _ Hts Hj) as (tg & Htg & Hfirst).
  rewrite binary_matrix_rows in Hbm.
  destruct (map_res_lookup _ _ _ _ _ Hbm Htg) as (eg & Heg & Henc).
  rewrite list_lookup_fmap in Heg. apply fmap_Some in Heg as (v & Hv & ->).
  pose proof (binary_matrix_row _ _ _ _ _ Ha Hr) as Het.
  exists (swap_halves num_qubits v), (row_at a r).
  split; [|split].
  - unfold generator_encoding. by rewrite Hfirst, bind_Ok, encoding_encode_term.
  - by rewrite encoding_encode_term.
  - assert (r < length (ops qubit_op))%nat as Hrl by (by eapply lookup_lt_Some).
    destruct (binary_shape_row _ _ _ r Hs Hrl) as [Hlr _].
    pose proof (proj2 Hshape) as HF. rewrite Forall_lookup in HF.
    destruct (HF _ _ Hv) as [Hlv _].
    rewrite symplectic_swap_halves by done.
    pose proof (Hnull v (list_elem_of_lookup_2 _ _ _ Hv)) as Hn.
    rewrite in_nullspace_rows in Hn. apply Hn. by rewrite (proj1 Hs).
Qed.

Lemma generate_symmetries_commute_z0z1_y0 :
  exists gens sx,
    generate_symmetries (MkHamiltonian [1%Q; 1%Q] [tZ0Z1; PauliY 0]) 2 = Ok (gens, sx) /\
    length gens
    = (2 * 2 - length (strip_zero_rows (_reduced_row_echelon z0z1_y0)))%nat /\
    forall g t, g ∈ gens -> t ∈ ops (MkHamiltonian [1%Q; 1%Q] [tZ0Z1; PauliY 0]) ->
      exists eg et, generator_encoding 2 g = Ok eg /\
        encoding 2 t = Ok et /\ symplectic 2 eg et = 0.
Proof.
  eexists _, _. split; [vm_compute; reflexivity|].
  apply (generate_symmetries_commute (MkHamiltonian [1%Q; 1%Q] [tZ0Z1; PauliY 0]) 2
           z0z1_y0 _ [PauliX 0; PauliX 1]).
  - reflexivity.
  - exact z0z1_y0_reduction_reduced.
  - vm_compute. reflexivity.
Defined.

(** ** What makes [generate_taus] and [generate_symmetries] raise *)

Lemma pauli_map_Ok (x z : Z) (p : string) :
  pauli_map x z = Ok p -> binary x /\ binary z.
Proof.
  destruct x as [|[x|x|]|x]; destruct z as [|[z|z|]|z]; simpl; intros H; try discriminate;
    split; (by left) || (by right).
Qed.

Lemma pauli_map_Raise (x z : Z) (e : exn) : pauli_map x z = Raise e -> e = KeyError.
Proof.
  destruct x as [|[x|x|]|x]; destruct z as [|[z|z|]|z]; simpl; intros H; try discriminate;
    by inversion H.
Qed.

Lemma tau_loop_result (l : list (nat * (Z * Z))) (tau0 : list factor) :
  match for_each
          (fun (tau : list factor) '(idx, (x, z)) =>
             p ← pauli_map x z; Ok (tau ++ [(p, Z.of_nat idx)]))
          tau0 l with
  | Ok _ => Forall (fun ixz => binary ixz.2.1 /\ binary ixz.2.2) l
  | Raise e => e = KeyError /\ ~ Forall (fun ixz => binary ixz.2.1 /\ binary ixz.2.2) l
  end.
Proof.
  revert tau0; induction l as [|[i [x z]] l IH]; intros tau0; [by cbn|].
  cbn [for_each]. destruct (pauli_map x z) as [p|e] eqn:E.
  - rewrite !bind_Ok. apply pauli_map_Ok in E. specialize (IH (tau0 ++ [(p, Z.of_nat i)])).
    destruct (for_each _ _ l) as [tau|e].
    + by apply Forall_cons.
    + destruct IH as [-> Hn]. split; [done|]. intros H. apply Hn.
      by apply Forall_cons in H as [_ H].
  - cbn. split; [by eapply pauli_map_Raise|].
    intros H. apply Forall_cons in H as [[Hx Hz] _]. cbn [fst snd] in Hx, Hz.
    rewrite (pauli_map_binary x z Hx Hz) in E. discriminate.
Qed.

Lemma Forall_imap_pair {A} (P : A -> Prop) (l : list A) :
  Forall (fun ix : nat * A => P ix.2) (imap pair l) <-> Forall P l.
Proof.
  rewrite !Forall_lookup. split.
  - intros H i x Hx. apply (H i (i, x)). by rewrite list_lookup_imap, Hx.
  - intros H i [j x] Hx. apply list_lookup_imap_Some in Hx as (y & Hy & Heq).
    inversion Heq; subst. cbn. by apply (H i).
Qed.

Lemma tau_of_result (num_qubits : nat) (v : vector) :
  match tau_of num_qubits v with
  | Ok _ => Forall (fun xz : Z * Z => binary xz.1 /\ binary xz.2)
              (zip (take num_qubits v) (drop num_qubits v))
  | Raise e => e = KeyError /\
      ~ Forall (fun xz : Z * Z => binary xz.1 /\ binary xz.2)
          (zip (take num_qubits v) (drop num_qubits v))
  end.
Proof.
  unfold tau_of.
  pose proof (tau_loop_result
                (imap pair (zip (take num_qubits v) (drop num_qubits v)))
                [("Identity"%string, 0)]) as Hv.
  destruct (for_each _ _ _) as [tau|e].
  - by apply (Forall_imap_pair (fun xz : Z * Z => binary xz.1 /\ binary xz.2)) in Hv.
  - destruct Hv as [-> Hn]. split; [done|]. intros H. apply Hn.
    by apply (Forall_imap_pair (fun xz : Z * Z => binary xz.1 /\ binary xz.2)).
Qed.

(** X15: [generate_taus] raises only [KeyError], and exactly when some
    vector pairs an entry that is not 0 or 1 ([pauli_map] has the four
    keys "00", "10", "11", "01" only); otherwise it returns one generator
    per vector.  The pairs are those of the first [num_qubits] entries
    with the entries that follow. *)
Theorem generate_taus_key_error (num_qubits : nat) (ns : matrix) :
  match generate_taus ns num_qubits with
  | Ok gens =>
      length gens = length ns /\
      Forall (fun v => Forall (fun xz : Z * Z => binary xz.1 /\ binary xz.2)
                         (zip (take num_qubits v) (drop num_qubits v))) ns
  | Raise e =>
      e = KeyError /\
      ~ Forall (fun v => Forall (fun xz : Z * Z => binary xz.1 /\ binary xz.2)
                           (zip (take num_qubits v) (drop num_qubits v))) ns
  end.
Proof.
  unfold generate_taus. induction ns as [|v ns IH]; [by cbn|].
  cbn [map_res]. pose proof (tau_of_result num_qubits v) as Hv.
  destruct (tau_of num_qubits v) as [tau|e].
  - rewrite !bind_Ok.
    destruct (map_res _ ns) as [gens|e].
    + rewrite bind_Ok. destruct IH as [Hlen HF]. split; [simpl; lia | by apply Forall_cons].
    + destruct IH as [-> Hn]. split; [done|]. intros H. apply Hn.
      by apply Forall_cons in H as [_ H].
  - destruct Hv as [-> Hn]. split; [done|]. intros H. apply Hn.
    by apply Forall_cons in H as [H _].
Qed.

Lemma dot_comm (u v : vector) : dot u v = dot v u.
Proof.
  revert v; induction u as [|x u IH]; intros [|y v]; try done.
  rewrite !dot_cons, IH. lia.
Qed.

Lemma dot_unit_r (row : vector) (c : nat) :
  (c < length row)%nat ->
  dot row (<[c := 1]> (replicate (length row) 0)) = nth c row 0.
Proof.
  intros Hc. rewrite dot_comm, (dot_unit _ _ c).
  - by rewrite decide_True.
  - by rewrite length_insert, length_replicate.
  - intros j Hj. rewrite nth_insert by (by rewrite length_replicate).
    destruct (decide (j = c)); [done | apply nth_replicate_zero].
Qed.

Lemma zero_rows_nullspace (nrows ncols : nat) (a : matrix) :
  binary_shape nrows ncols a ->
  Forall (fun row => all_zero row = true) a
  <-> forall v, length v = ncols -> in_nullspace a v.
Proof.
  intros [_ HF]. split.
  - intros Hz v _. unfold in_nullspace. eapply Forall_impl; [exact Hz|].
    intros row Hrow. cbn. by rewrite dot_all_zero.
  - intros Hn. rewrite Forall_forall in HF. apply Forall_forall. intros row Hrow.
    destruct (HF row Hrow) as [Hl Hb]. apply all_zero_spec, Forall_lookup. intros c x Hx.
    assert (c < ncols)%nat as Hc by (apply lookup_lt_Some in Hx; lia).
    specialize (Hn (<[c := 1]> (replicate ncols 0))
                   ltac:(by rewrite length_insert, length_replicate)).
    unfold in_nullspace in Hn. rewrite Forall_forall in Hn. specialize (Hn row Hrow).
    rewrite <- Hl, dot_unit_r, (nth_lookup_Some _ _ _ _ Hx) in Hn by lia.
    rewrite Forall_lookup in Hb. by destruct (Hb _ _ Hx) as [-> | ->].
Qed.

Lemma strip_zero_rows_nil (a : matrix) :
  strip_zero_rows a = [] <-> Forall (fun row => all_zero row = true) a.
Proof.
  unfold strip_zero_rows. induction a as [|row a IH]; [done|].
  rewrite Forall_cons. destruct (all_zero row) eqn:E.
  - rewrite filter_cons_False by (by rewrite E). rewrite IH. tauto.
  - rewrite filter_cons_True by done. split; [done | by intros [? _]].
Qed.

Lemma exists_non_zero_row (a : matrix) :
  Exists (fun row => all_zero row = false) a
  <-> ~ Forall (fun row => all_zero row = true) a.
Proof.
  induction a as [|row a IH].
  - rewrite Exists_nil. split; [done|]. intros H. by apply H.
  - rewrite Exists_cons, Forall_cons, IH. destruct (all_zero row); split.
    + intros [?|H] [_ H']; [done | by apply H].
    + intros H. right. intros H'. by apply H.
    + by intros _ [? _].
    + intros _. by left.
Qed.

(** X16: once [_binary_matrix] has returned the matrix of the
    Hamiltonian, [generate_symmetries] returns if and only if that matrix
    has a non-zero row; on a Hamiltonian whose terms are all identities
    (or that has no term) the stripped reduction is empty and [_kernel]
    raises. *)
Theorem generate_symmetries_returns (qubit_op : Hamiltonian) (num_qubits : nat) (a : matrix) :
  _binary_matrix (ops qubit_op) num_qubits = Ok a ->
  (exists gens sx, generate_symmetries qubit_op num_qubits = Ok (gens, sx))
  <-> Exists (fun row => all_zero row = false) a.
Proof.
  intros Ha. pose proof (binary_matrix_shape _ _ _ Ha) as Hs.
  assert (binary_shape (length (ops qubit_op)) (2 * num_qubits) (_reduced_row_echelon a) /\
          forall v, length v = (2 * num_qubits)%nat ->
            (in_nullspace (_reduced_row_echelon a) v <-> in_nullspace a v)) as [Hs1 Hnull1].
  { destruct (reduced_row_echelon_unfold _ _ a Hs) as [->|[_ ->]]; [done|].
    destruct (reduction_loop_keeps _ _ a
                (length (ops qubit_op) `min` (2 * num_qubits)) Hs) as (H1 & _ & H2);
      [lia | lia | done]. }
  assert (strip_zero_rows (_reduced_row_echelon a) = []
          <-> Forall (fun row => all_zero row = true) a) as Hnil.
  { rewrite strip_zero_rows_nil, (zero_rows_nullspace _ _ _ Hs1), (zero_rows_nullspace _ _ _ Hs).
    split; intros H v Hv; [apply Hnull1 | apply Hnull1]; auto. }
  rewrite exists_non_zero_row, <- Hnil. split.
  - intros (gens & sx & H) E.
    apply generate_symmetries_inv in H as (a' & ns & Ha' & Hk & _).
    rewrite Ha in Ha'. injection Ha' as <-. rewrite E in Hk. discriminate.
  - intros Hne.
    set (b := strip_zero_rows (_reduced_row_echelon a)) in *.
    pose proof (strip_zero_rows_shape _ _ _ Hs1) as Hsb. fold b in Hsb.
    pose proof (strip_zero_rows_no_zero_row (_reduced_row_echelon a)) as Hnz. fold b in Hnz.
    assert (0 < length b)%nat as Hpos by (destruct b; [done | simpl; lia]).
    assert (0 < 2 * num_qubits)%nat as Hcols.
    { destruct (binary_shape_row _ _ _ 0%nat Hsb Hpos) as [Hl0 _].
      rewrite Forall_rows in Hnz. specialize (Hnz 0%nat Hpos).
      destruct (row_at b 0); [discriminate | simpl in Hl0; lia]. }
    destruct (kernel_shape_gen _ _ _ Hsb Hpos Hcols) as (ns & Hk & Hshape).
    destruct (generate_taus_encodings num_qubits ns (proj2 Hshape))
      as (gens & ts & Hg & _ & Hts & Hbm).
    exists gens. eexists. unfold generate_symmetries.
    rewrite Ha, bind_Ok. cbv zeta. fold b. rewrite Hk, bind_Ok, Hg, bind_Ok.
    unfold generate_paulis. rewrite Hts, bind_Ok, Hbm, !bind_Ok. reflexivity.
Qed.

Lemma generate_symmetries_returns_z0z1_y0 :
  (exists gens sx,
     generate_symmetries (MkHamiltonian [1%Q; 1%Q] [tZ0Z1; PauliY 0]) 2 = Ok (gens, sx))
  <-> Exists (fun row => all_zero row = false) z0z1_y0.
Proof.
  apply (generate_symmetries_returns (MkHamiltonian [1%Q; 1%Q] [tZ0Z1; PauliY 0]) 2 z0z1_y0).
  reflexivity.
Defined.
